(** * The option and compositor specification parsers of holoviews/util/parser.py

    A shallow embedding of the classes [Parser], [OptsSpec] and
    [CompositorSpec].  The pyparsing grammar objects ([opts_spec],
    [compositor_spec]) and Python's [eval] belong to third-party code: they
    enter the development as section variables.  Everything the repository
    itself computes on their results is embedded as executable functions.

    A Python string is a [string]: its characters stand for the code points
    below 256, and a slice or an index counts characters.

    Python dictionaries keep insertion order, and two dictionary
    comprehensions of [OptsSpec.parse] rewrite keys (aliases, deprecations),
    so that the order decides which entry survives a collision: dictionaries
    are association lists with first-match lookup and in-place update. *)

From Stdlib Require Import String Ascii List Bool Arith Lia Permutation.
Import ListNotations.
Local Open Scope string_scope.
Local Open Scope list_scope.

Notation "a +++ b" := (String.append a b) (at level 60, right associativity).

(** ** Python strings *)

Module Str.

(** [c in s] for a one-character string [c]. *)
Fixpoint contains_char (c : ascii) (s : string) : bool :=
  match s with
  | EmptyString => false
  | String a s' => Ascii.eqb a c || contains_char c s'
  end.

(** [s[0]]; [None] stands for the IndexError on the empty string. *)
Definition first_char (s : string) : option ascii :=
  match s with
  | EmptyString => None
  | String a _ => Some a
  end.

(** [s[-1]]; [None] stands for the IndexError on the empty string. *)
Fixpoint last_char (s : string) : option ascii :=
  match s with
  | EmptyString => None
  | String a EmptyString => Some a
  | String _ s' => last_char s'
  end.

(** [s[1:]] *)
Definition drop_first (s : string) : string :=
  match s with
  | EmptyString => EmptyString
  | String _ s' => s'
  end.

(** [s[:-1]] *)
Fixpoint drop_last (s : string) : string :=
  match s with
  | EmptyString => EmptyString
  | String _ EmptyString => EmptyString
  | String a s' => String a (drop_last s')
  end.

(** [s[:n]] for a non-negative [n]. *)
Fixpoint take (n : nat) (s : string) : string :=
  match n, s with
  | S n', String a s' => String a (take n' s')
  | _, _ => EmptyString
  end.

(** [s[n:]] for a non-negative [n]. *)
Fixpoint drop (n : nat) (s : string) : string :=
  match n, s with
  | S n', String _ s' => drop n' s'
  | _, _ => s
  end.

(** The characters for which [str.isspace] holds, which [str.strip]
    removes: of the code points below 256 these are 9 to 13, 28 to 32,
    133 (next line) and 160 (no-break space). *)
Definition is_space (a : ascii) : bool :=
  let n := nat_of_ascii a in
  (((9 <=? n) && (n <=? 13)) || ((28 <=? n) && (n <=? 32))
   || (n =? 133) || (n =? 160))%nat.

Fixpoint lstrip (s : string) : string :=
  match s with
  | EmptyString => EmptyString
  | String a s' => if is_space a then lstrip s' else s
  end.

Fixpoint rstrip (s : string) : string :=
  match s with
  | EmptyString => EmptyString
  | String a s' =>
      match rstrip s' with
      | EmptyString => if is_space a then EmptyString else String a EmptyString
      | r => String a r
      end
  end.

(** [s.strip()] *)
Definition strip (s : string) : string := rstrip (lstrip s).

(** [s.startswith(p)] *)
Definition startswith (p s : string) : bool := String.prefix p s.

(** [s.endswith(p)] *)
Definition endswith (p s : string) : bool :=
  String.eqb (drop (String.length s - String.length p) s) p
  && (String.length p <=? String.length s)%nat.

(** [s.replace(old, new)] for a non-empty [old]: leftmost occurrences,
    not overlapping.  [skip] counts the characters of a match that are
    still to be passed over. *)
Fixpoint replace_from (skip : nat) (old new : string) (s : string) : string :=
  match s with
  | EmptyString => EmptyString
  | String a s' =>
      match skip with
      | S k => replace_from k old new s'
      | O =>
          if String.prefix old s
          then new +++ replace_from (String.length old - 1) old new s'
          else String a (replace_from 0 old new s')
      end
  end.

Definition replace (old new s : string) : string := replace_from 0 old new s.

(** [s.split(sep)] for a one-character [sep]; the result is never empty. *)
Fixpoint split (sep : ascii) (s : string) : list string :=
  match s with
  | EmptyString => [EmptyString]
  | String a s' =>
      if Ascii.eqb a sep then EmptyString :: split sep s'
      else match split sep s' with
           | [] => [String a EmptyString]
           | w :: ws => String a w :: ws
           end
  end.

(** [sep.join(l)] *)
Definition join (sep : string) (l : list string) : string := String.concat sep l.

(** [x in l] for a list of strings. *)
Definition mem (x : string) (l : list string) : bool :=
  existsb (String.eqb x) l.

End Str.

(** ** Exceptions, warnings and the result of a call *)

(** The messages of the SyntaxErrors the module raises, with their
    arguments. *)
Inductive syntax_error : Type :=
| InvalidSpecification                      (* "Invalid specification syntax." *)
| FailedRemainder (rest : string)           (* "Failed to parse remainder of string: %r" *)
| RepeatedNormalization (normopt : string)  (* "... must not contain repeated %r" *)
| NormalizationNotOneOf                     (* "Normalization option not one of ..." *)
| NormalizationBoth (one other : string)     (* "... cannot contain both %s and %s" *)
| CouldNotEvaluate (keyword : string)       (* "Could not evaluate keyword: %r" *)
| ModeRequired                              (* "Either data or display mode must be specified." *)
| OperationNotAvailable (op : string).      (* "Operation %s not available for use with compositors." *)

Inductive exn : Type :=
| SyntaxError (e : syntax_error)
| IndexError
| KeyError (key : string)
| TypeError
| AttributeError
| ValueError
| ParseException
| OtherException (name : string).  (* any other exception, by the name of its class *)

(** What [parsewarning.warning] is called with. *)
Inductive warning : Type :=
| IgnoringKeyword (keyword : string)   (* "Ignoring keyword pair that fails to evaluate: '%s'" *)
| ElementDeprecated (old new : string). (* "Element {old} deprecated. Use {new} instead." *)

(** A call emits warnings and then either raises or returns. *)
Definition M (A : Type) : Type := (list warning * (exn + A))%type.

Definition ret {A} (x : A) : M A := ([], inr x).
Definition raise {A} (e : exn) : M A := ([], inl e).
Definition warn (w : warning) : M unit := ([w], inr tt).

Definition bind {A B} (m : M A) (f : A -> M B) : M B :=
  match m with
  | (w, inl e) => (w, inl e)
  | (w, inr a) => let '(w', r) := f a in (w ++ w', r)
  end.

Notation "x <- m ;; k" := (bind m (fun x => k))
  (at level 61, m at next level, right associativity).
Notation "m ;;; k" := (bind m (fun _ => k))
  (at level 61, right associativity).

(** A [for] loop whose body updates one variable. *)
Fixpoint for_each {A S} (body : S -> A -> M S) (l : list A) (s : S) : M S :=
  match l with
  | [] => ret s
  | x :: l' => s' <- body s x ;; for_each body l' s'
  end.

Definition warnings {A} (m : M A) : list warning := fst m.
Definition outcome {A} (m : M A) : exn + A := snd m.

(** ** Python dictionaries with string keys *)

Module PyDict.

Definition t (V : Type) : Type := list (string * V).

Definition empty {V} : t V := [].

(** [d.get(k)] *)
Fixpoint get {V} (d : t V) (k : string) : option V :=
  match d with
  | [] => None
  | (k', v) :: d' => if String.eqb k k' then Some v else get d' k
  end.

(** [k in d] *)
Definition contains {V} (d : t V) (k : string) : bool :=
  match get d k with Some _ => true | None => false end.

(** [d[k] = v]: an existing key keeps its place, a new one goes last. *)
Fixpoint set {V} (d : t V) (k : string) (v : V) : t V :=
  match d with
  | [] => [(k, v)]
  | (k', v') :: d' =>
      if String.eqb k k' then (k', v) :: d' else (k', v') :: set d' k v
  end.

(** [d.update(e)] *)
Definition update {V} (d e : t V) : t V :=
  fold_left (fun acc kv => set acc (fst kv) (snd kv)) e d.

Definition keys {V} (d : t V) : list string := map fst d.

(** No key occurs twice: what every Python dictionary satisfies. *)
Definition wf {V} (d : t V) : Prop := NoDup (keys d).

End PyDict.

(** ** Parse results *)

(** What [ParseResults.asList()] returns for the content of a nested
    expression: strings and nested lists of them. *)
#[warning="-register-all"]
Inductive tok : Type :=
| Tok (s : string)
| Nest (l : list tok).

(** Python values that end up in option dictionaries.  [PyObj] stands for
    any other object, named by its source text. *)
Inductive pyval : Type :=
| PyNone
| PyBool (b : bool)
| PyInt (n : nat)
| PyStr (s : string)
| PyObj (src : string).

(** What the statement [kwargs.update(eval(..))] of [todict] does to
    [kwargs]: the items that [update] sets, in order, and whether the
    statement completes or raises.  When [eval] itself raises, no item is
    set; when [update] raises on an element of what [eval] returned, the
    items of the elements before it are set already.  The items have str
    keys: a key of another type, which the calls of [Options] and
    [Compositor] with the dictionary as keyword arguments refuse, is not
    represented. *)
Inductive evaluation : Type :=
| Updated (items : PyDict.t pyval)
| Raised (items : PyDict.t pyval).

(** The items that the statement sets. *)
Definition items_of (ev : evaluation) : PyDict.t pyval :=
  match ev with
  | Updated items => items
  | Raised items => items
  end.

(** ** class Parser *)

Module Parser.

(** Strip out a leading and a trailing comma from the token. *)
Definition _strip_commas (kw : string) : M string :=
  match Str.last_char kw with
  | None => raise IndexError
  | Some c =>
      let kw := if Ascii.eqb c "," then Str.drop_last kw else kw in
      match Str.first_char kw with
      | None => raise IndexError
      | Some c0 => ret (if Ascii.eqb c0 "," then Str.drop_first kw else kw)
      end
  end.

(** [inner % s] with [inner = '(%s)' if mode=='parens' else '[%s]'] *)
Definition inner (mode : string) (s : string) : string :=
  if String.eqb mode "parens" then "(" +++ s +++ ")" else "[" +++ s +++ "]".

(** [''.join(l)] *)
Definition cat (l : list string) : string := Str.join "" l.

(** [recurse_token(token, inner)].  On a string the loop runs over its
    characters, none of which is a list. *)
Fixpoint recurse_token (mode : string) (token : tok) : string :=
  match token with
  | Tok s => inner mode s
  | Nest toks =>
      inner mode (cat (map (fun tok =>
        match tok with
        | Nest ts =>
            inner mode (cat (map (fun t =>
              match t with
              | Nest _ => recurse_token mode t
              | Tok s => s
              end) ts))
        | Tok s => s
        end) toks))
  end.

(** [l[-1] = l[-1] + s] *)
Definition append_to_last (l : list string) (s : string) : M (list string) :=
  match l with
  | [] => raise IndexError
  | _ => ret (removelast l ++ [last l "" +++ s])
  end.

(** The body of the loop of [collect_tokens]. *)
Definition collect_step (mode : string) (tokens : list string) (token : tok)
  : M (list string) :=
  match token with
  | Nest _ => append_to_last tokens (recurse_token mode token)
  | Tok s =>
      if String.eqb (Str.strip s) "," then ret tokens
      else kw <- _strip_commas s ;; ret (tokens ++ [kw])
  end.

(** Collect the tokens from a (potentially) nested parse result. *)
Definition collect_tokens (parseresult : option (list tok)) (mode : string)
  : M (list string) :=
  match parseresult with
  | None => ret []
  | Some l => for_each (collect_step mode) l []
  end.

(** [itertools.groupby(l, key)]: the maximal runs of equal key, in order. *)
Fixpoint groupby {A} (key : A -> bool) (l : list A) : list (bool * list A) :=
  match l with
  | [] => []
  | x :: l' =>
      match groupby key l' with
      | (b, g) :: rest =>
          if Bool.eqb (key x) b then (b, x :: g) :: rest
          else (key x, [x]) :: (b, g) :: rest
      | [] => [(key x, [x])]
      end
  end.

(** ['=' in el] *)
Definition has_eq (el : string) : bool := Str.contains_char "=" el.

(** [(')' in el) or ('}' in el)] *)
Definition has_closer (el : string) : bool :=
  Str.contains_char ")" el || Str.contains_char "}" el.

(** The body of the first loop of [todict]. *)
Definition group_step (grouped : list string) (group : bool * list string)
  : M (list string) :=
  let '(val, items) := group in
  if val then ret (grouped ++ items)
  else
    let elements := items in
    let joiner := if existsb has_closer elements then "," else "" in
    append_to_last grouped (joiner +++ Str.join joiner elements).

(** The first loop of [todict]: group tokens without '=' and append them
    to the last token containing '='. *)
Definition group_tokens (tokens : list string) : M (list string) :=
  for_each group_step (groupby has_eq tokens) [].

(** The substitutions applied to every keyword, in this order. *)
Definition substitutions : list (string * string) :=
  [("(,", "("); ("{,", "{"); ("=,", "="); (",:", ":"); (":,", ":");
   (",,", ","); (",.", ".")].

Definition repair_keyword (keyword : string) : string :=
  fold_left (fun kw p => Str.replace (fst p) (snd p) kw) substitutions keyword.

Section Eval.

(** The caller's namespace [ns] and, for a keyword, what the statement
    [kwargs.update(eval('dict(%s)' % keyword, dict(cls.namespace, **ns)))]
    does. *)
Variable namespace : Type.
Variable py_eval : namespace -> string -> evaluation.

(** The class attribute of the same name. *)
Variable abort_on_eval_failure : bool.

(** The body of the second loop of [todict]: the bare [except] catches
    what [eval] and what [update] raise. *)
Definition eval_step (ns : namespace) (kwargs : PyDict.t pyval) (keyword : string)
  : M (PyDict.t pyval) :=
  let keyword := repair_keyword keyword in
  match py_eval ns keyword with
  | Updated items => ret (PyDict.update kwargs items)
  | Raised items =>
      let kwargs := PyDict.update kwargs items in
      if abort_on_eval_failure
      then raise (SyntaxError (CouldNotEvaluate keyword))
      else warn (IgnoringKeyword keyword) ;;; ret kwargs
  end.

(** Return the dictionary of the keywords of a nested parse result. *)
Definition todict (parseresult : option (list tok)) (mode : string) (ns : namespace)
  : M (PyDict.t pyval) :=
  tokens <- collect_tokens parseresult mode ;;
  grouped <- group_tokens tokens ;;
  for_each (eval_step ns) grouped PyDict.empty.

End Eval.

End Parser.

(** ** class OptsSpec *)

(** Modelled from the spec: the options object holding the resolved keyword
    values of one category (class [Options] of core/options.py is not among
    the sources); the constructor keeps the keyword pairs it is given, when
    it accepts them. *)
Record Options : Type := mkOptions { kwargs : PyDict.t pyval }.

Module OptsSpec.

(** One element of the result of [opts_spec]: a path specification and the
    named results that are present.  Each options field holds what
    [group[name][0].asList()] returns. *)
Record spec_group : Type := mkGroup {
  pathspec : string;
  norm_options : option (list tok);
  plot_options : option (list tok);
  style_options : option (list tok)
}.

(** Aliases that map to the current option name for backward
    compatibility. *)
Definition aliases : PyDict.t string :=
  [("horizontal_spacing", "hspace");
   ("vertical_spacing", "vspace");
   ("figure_alpha", "    fig_alpha");
   ("figure_bounds", "fig_bounds");
   ("figure_inches", "fig_inches");
   ("figure_latex", "fig_latex");
   ("figure_rcparams", "fig_rcparams");
   ("figure_size", "fig_size");
   ("show_xaxis", "xaxis");
   ("show_yaxis", "yaxis")].

Definition deprecations : list (string * string) := [("GridImage", "Image")].

(** [name in parse_group] and [parse_group[name][0].asList()] at once;
    [None] as a group stands for the empty dictionary. *)
Definition named (field : spec_group -> option (list tok))
  (parse_group : option spec_group) : option (list tok) :=
  match parse_group with
  | Some g => field g
  | None => None
  end.

(** [opt == s] for an element of a token list and a string. *)
Definition tok_is (s : string) (opt : tok) : bool :=
  match opt with
  | Tok s' => String.eqb s' s
  | Nest _ => false
  end.

(** [opts.count(s)] *)
Definition count (s : string) (opts : list tok) : nat :=
  length (filter (tok_is s) opts).

(** [s in opts] *)
Definition tok_in (s : string) (opts : list tok) : bool :=
  existsb (tok_is s) opts.

(** [opt in options] for a list of strings [options]. *)
Definition in_options (options : list string) (opt : tok) : bool :=
  match opt with
  | Tok s => Str.mem s options
  | Nest _ => false
  end.

Definition norm_flags : list string :=
  ["+framewise"; "-framewise"; "+axiswise"; "-axiswise"].

Definition excluded : list (string * string) :=
  [("+framewise", "-framewise"); ("+axiswise", "-axiswise")].

(** [dict(axiswise=axiswise, framewise=framewise)] *)
Definition norm_dict (axiswise framewise : bool) : PyDict.t pyval :=
  [("axiswise", PyBool axiswise); ("framewise", PyBool framewise)].

(** Given a normalization parse group, validate the option list and compute
    the normalization options; [None] is Python's None. *)
Definition process_normalization (parse_group : option spec_group)
  : M (option (PyDict.t pyval)) :=
  match named norm_options parse_group with
  | None => ret None
  | Some [] => ret None
  | Some opts =>
      let options := norm_flags in
      for_each (fun _ normopt =>
        if (1 <? count normopt opts)%nat
        then raise (SyntaxError (RepeatedNormalization normopt))
        else ret tt) options tt ;;;
      (if negb (forallb (in_options options) opts)
       then raise (SyntaxError NormalizationNotOneOf)
       else ret tt) ;;;
      for_each (fun _ pair =>
        if tok_in (fst pair) opts && tok_in (snd pair) opts
        then raise (SyntaxError (NormalizationBoth (fst pair) (snd pair)))
        else ret tt) excluded tt ;;;
      match opts with
      | [Nest _] => raise AttributeError
      | [Tok o] =>
          if Str.endswith "framewise" o then
            ret (Some (norm_dict false (tok_in "+framewise" opts)))
          else if Str.endswith "axiswise" o then
            ret (Some (norm_dict (tok_in "+axiswise" opts) false))
          else
            ret (Some (norm_dict (tok_in "+axiswise" opts)
                                 (tok_in "+framewise" opts)))
      | _ =>
          ret (Some (norm_dict (tok_in "+axiswise" opts)
                               (tok_in "+framewise" opts)))
      end
  end.

(** [s.add(x)] on a set of strings, kept as a duplicate-free list in the
    order of insertion, which is also the order the model iterates it in.
    Python iterates a set in the order of its hash table, which the model
    does not fix: what is stated of the dictionary that [parse] returns is
    stated of its look-ups, for paths that no other path of the line is
    returned under the same name with, and the order of a set does not
    change them. *)
Definition set_add (x : string) (s : list string) : list string :=
  if Str.mem x s then s else s ++ [x].

Definition has_options (group : spec_group) : bool :=
  match norm_options group, plot_options group, style_options group with
  | None, None, None => false
  | _, _, _ => true
  end.

(** The loop of [_group_paths_without_options], from a given set of active
    path specifications. *)
Fixpoint group_paths (active_pathspecs : list string) (groups : list spec_group)
  : list (list string * option spec_group) :=
  match groups with
  | [] =>
      match active_pathspecs with
      | [] => []
      | _ => [(active_pathspecs, None)]
      end
  | group :: rest =>
      let active_pathspecs := set_add (pathspec group) active_pathspecs in
      if has_options group
      then (active_pathspecs, Some group) :: group_paths [] rest
      else group_paths active_pathspecs rest
  end.

(** Combine groups without options with the first subsequent group which
    has options; what the generator yields, in order. *)
Definition _group_paths_without_options (line_parse_result : list spec_group)
  : list (list string * option spec_group) :=
  group_paths [] line_parse_result.

(** The body of the loop of [_merge_options]. *)
Definition merge_step {V} (merged : PyDict.t (PyDict.t V))
  (item : string * PyDict.t V) : PyDict.t (PyDict.t V) :=
  let '(option_type, options) := item in
  let merged :=
    if negb (PyDict.contains merged option_type)
    then PyDict.set merged option_type PyDict.empty
    else merged in
  match PyDict.get merged option_type with
  | Some d => PyDict.set merged option_type (PyDict.update d options)
  | None => merged
  end.

(** Update the [old_opts] option dictionary with the options defined in
    [new_opts], every option type separately.  (The update in place of the
    dictionaries of [old_opts] is seen through [old_opts] only, which
    [parse] drops.) *)
Definition _merge_options {V} (old_opts new_opts : PyDict.t (PyDict.t V))
  : PyDict.t (PyDict.t V) :=
  let merged := old_opts in
  fold_left merge_step new_opts merged.

(** The loop of [apply_deprecations]. *)
Fixpoint deprecate (split : list string) (path : string)
  (table : list (string * string)) : M string :=
  match table with
  | [] => ret path
  | (old, new) :: table' =>
      if String.eqb (hd "" split) old
      then warn (ElementDeprecated old new) ;;;
           ret (Str.join "." (new :: tl split))
      else deprecate split path table'
  end.

(** Convert any potentially deprecated paths and issue appropriate
    warnings. *)
Definition apply_deprecations (path : string) : M string :=
  deprecate (Str.split "." path) path deprecations.

Section Parse.

(** pyparsing's [opts_spec.scanString(line)], as the list of its matches
    (tokens, start, end), and [opts_spec.parseString(line)], which raises
    or returns the list of groups. *)
Variable scanString : string -> list (list spec_group * nat * nat).
Variable parseString : string -> exn + list spec_group.

Variable namespace : Type.
Variable py_eval : namespace -> string -> evaluation.
Variable abort_on_eval_failure : bool.

(** What the call [Options(keywords)] raises on the keyword pairs of a
    category, if anything: the constructor is not among the sources. *)
Variable options_error : PyDict.t pyval -> option exn.

(** [{cls.aliases.get(k,k): v for k,v in opts.items()}] *)
Definition rename_aliases (opts : PyDict.t pyval) : PyDict.t pyval :=
  fold_left (fun acc kv =>
    let k := fst kv in
    PyDict.set acc (match PyDict.get aliases k with Some a => a | None => k end)
               (snd kv)) opts PyDict.empty.

(** The options of one group: the statements of the loop of [parse] before
    the paths are assigned. *)
Definition group_options (ns : namespace) (group : option spec_group)
  : M (PyDict.t (PyDict.t pyval)) :=
  let options := PyDict.empty in
  normalization <- process_normalization group ;;
  let options :=
    match normalization with
    | Some n => PyDict.set options "norm" n
    | None => options
    end in
  options <-
    match named plot_options group with
    | Some plotopts =>
        opts <- Parser.todict namespace py_eval abort_on_eval_failure
                  (Some plotopts) "brackets" ns ;;
        ret (PyDict.set options "plot" (rename_aliases opts))
    | None => ret options
    end ;;
  match named style_options group with
  | Some styleopts =>
      opts <- Parser.todict namespace py_eval abort_on_eval_failure
                (Some styleopts) "parens" ns ;;
      ret (PyDict.set options "style" (rename_aliases opts))
  | None => ret options
  end.

(** [for pathspec in pathspecs:
       parse[pathspec] = cls._merge_options(parse.get(pathspec, {}), options)] *)
Definition assign_paths (pathspecs : list string)
  (options : PyDict.t (PyDict.t pyval))
  (parse : PyDict.t (PyDict.t (PyDict.t pyval)))
  : PyDict.t (PyDict.t (PyDict.t pyval)) :=
  fold_left (fun parse pathspec =>
    PyDict.set parse pathspec
      (_merge_options
         (match PyDict.get parse pathspec with Some o => o | None => PyDict.empty end)
         options)) pathspecs parse.

(** The body of the loop of [parse] over the grouped paths. *)
Definition parse_step (ns : namespace)
  (parse : PyDict.t (PyDict.t (PyDict.t pyval)))
  (item : list string * option spec_group)
  : M (PyDict.t (PyDict.t (PyDict.t pyval))) :=
  let '(pathspecs, group) := item in
  options <- group_options ns group ;;
  ret (assign_paths pathspecs options parse).

(** [Options(keywords)] *)
Definition new_options (option_pairs : PyDict.t pyval) : M Options :=
  match options_error option_pairs with
  | Some e => raise e
  | None => ret (mkOptions option_pairs)
  end.

(** [{option_type: Options(keywords) for option_type, keywords in options.items()}] *)
Definition to_options (options : PyDict.t (PyDict.t pyval)) : M (PyDict.t Options) :=
  for_each (fun acc kv =>
    o <- new_options (snd kv) ;;
    ret (PyDict.set acc (fst kv) o)) options PyDict.empty.

(** The dictionary comprehension that [parse] returns: of every item the
    key is evaluated before the value. *)
Definition deprecated_paths (parse : PyDict.t (PyDict.t (PyDict.t pyval)))
  : M (PyDict.t (PyDict.t Options)) :=
  for_each (fun acc kv =>
    path <- apply_deprecations (fst kv) ;;
    value <- to_options (snd kv) ;;
    ret (PyDict.set acc path value)) parse PyDict.empty.

(** Parse an options specification, returning a dictionary with path keys
    and the options of every category as values. *)
Definition parse (line : string) (ns : namespace) : M (PyDict.t (PyDict.t Options)) :=
  let parses := scanString line in
  (match parses with
   | [p] =>
       let e := snd p in
       let processed := Str.take e line in
       if negb (String.eqb (Str.strip processed) (Str.strip line))
       then raise (SyntaxError (FailedRemainder (Str.drop e line)))
       else ret tt
   | _ => raise (SyntaxError InvalidSpecification)
   end) ;;;
  line_parse_result <- ([], parseString line) ;;
  let grouped_paths := _group_paths_without_options line_parse_result in
  parse <- for_each (parse_step ns) grouped_paths PyDict.empty ;;
  deprecated_paths parse.

End Parse.

End OptsSpec.

(** ** class CompositorSpec *)

(** Modelled from the spec: a compositor definition with its overlay
    pattern, operation, value (group) identifier, mode and settings (class
    [Compositor] of the operation package is not among the sources); the
    constructor keeps its arguments, when it accepts them. *)
Record Compositor (operation : Type) : Type := mkCompositor {
  pattern : string;
  operation_of : operation;
  group_of : string;
  mode_of : string;
  settings : PyDict.t pyval
}.
Arguments mkCompositor {operation}.

Module CompositorSpec.

(** One element of the result of [compositor_spec].  [spec] holds
    [group['spec'].asList()[0]] and [op_settings] what
    [group['op_settings'][0].asList()] returns. *)
Record comp_group : Type := mkGroup {
  mode : option string;
  op : string;
  spec : list tok;
  value : string;
  op_settings : option (list tok)
}.

(** [' '.join(l)] on the elements of a parse result: a nested list among
    them is a TypeError. *)
Fixpoint strings_of (l : list tok) : M (list string) :=
  match l with
  | [] => ret []
  | Tok s :: l' => ss <- strings_of l' ;; ret (s :: ss)
  | Nest _ :: _ => raise TypeError
  end.

Section Parse.

Variable scanString : string -> list (list comp_group * nat * nat).
Variable parseString : string -> exn + list comp_group.

(** [Compositor.operations] and [op.__name__]. *)
Variable operation : Type.
Variable operations : list operation.
Variable op_name : operation -> string.

Variable namespace : Type.
Variable py_eval : namespace -> string -> evaluation.
Variable abort_on_eval_failure : bool.

(** What the call [Compositor(spec, operation, value, mode, settings)]
    raises on its arguments, if anything: the constructor is not among the
    sources. *)
Variable compositor_error :
  string -> operation -> string -> string -> PyDict.t pyval -> option exn.

(** [{op.__name__:op for op in Compositor.operations}] *)
Definition opmap : PyDict.t operation :=
  fold_left (fun acc o => PyDict.set acc (op_name o) o) operations PyDict.empty.

(** The body of the loop of [parse] over the groups. *)
Definition parse_step (ns : namespace) (definitions : list (Compositor operation))
  (group : comp_group) : M (list (Compositor operation)) :=
  mode <- match mode group with
          | Some m =>
              if negb (Str.mem m ["data"; "display"])
              then raise (SyntaxError ModeRequired) else ret m
          | None => raise (SyntaxError ModeRequired)
          end ;;
  let kwargs := PyDict.empty in
  operation <- match PyDict.get opmap (op group) with
               | Some o => ret o
               | None => raise (KeyError (op group))
               end ;;
  words <- strings_of (spec group) ;;
  let spec := Str.join " " words in
  (if negb (PyDict.contains opmap (op group))
   then raise (SyntaxError (OperationNotAvailable (op group)))
   else ret tt) ;;;
  kwargs <- match op_settings group with
            | Some s =>
                Parser.todict namespace py_eval abort_on_eval_failure
                  (Some s) "brackets" ns
            | None => ret kwargs
            end ;;
  definition <- match compositor_error spec operation (value group) mode kwargs with
                | Some e => raise e
                | None => ret (mkCompositor spec operation (value group) mode kwargs)
                end ;;
  ret (definitions ++ [definition]).

(** Parse compositor specifications, returning a list of Compositors. *)
Definition parse (line : string) (ns : namespace) : M (list (Compositor operation)) :=
  let definitions := [] in
  let parses := scanString line in
  (match parses with
   | [p] =>
       let e := snd p in
       let processed := Str.take e line in
       if negb (String.eqb (Str.strip processed) (Str.strip line))
       then raise (SyntaxError (FailedRemainder (Str.drop e line)))
       else ret tt
   | _ => raise (SyntaxError InvalidSpecification)
   end) ;;;
  groups <- ([], parseString line) ;;
  for_each (parse_step ns) groups definitions.

End Parse.

End CompositorSpec.

(** ** Sample inputs

    A small evaluator and constant grammars, used to run the functions on
    concrete lines. *)

Module Sample.

(** The value of a decimal literal. *)
Fixpoint digits (s : string) (acc : nat) : option nat :=
  match s with
  | EmptyString => Some acc
  | String c s' =>
      let n := nat_of_ascii c in
      if ((48 <=? n) && (n <=? 57))%nat
      then digits s' (10 * acc + (n - 48))
      else None
  end.

(** A decimal literal of Python: digits, with no leading zero unless all
    of them are zeros. *)
Definition decimal (s : string) : option nat :=
  match s with
  | EmptyString => None
  | String c _ =>
      match digits s 0 with
      | Some n => if Ascii.eqb c "0" && negb (n =? 0)%nat then None else Some n
      | None => None
      end
  end.

Definition is_letter (c : ascii) : bool :=
  let n := nat_of_ascii c in
  (((65 <=? n) && (n <=? 90)) || ((97 <=? n) && (n <=? 122)) || (n =? 95))%nat.

Definition is_digit (c : ascii) : bool :=
  let n := nat_of_ascii c in ((48 <=? n) && (n <=? 57))%nat.

Fixpoint all_chars (f : ascii -> bool) (s : string) : bool :=
  match s with
  | EmptyString => true
  | String c s' => f c && all_chars f s'
  end.

(** The reserved words of Python. *)
Definition reserved : list string :=
  ["False"; "None"; "True"; "and"; "as"; "assert"; "async"; "await"; "break";
   "class"; "continue"; "def"; "del"; "elif"; "else"; "except"; "finally";
   "for"; "from"; "global"; "if"; "import"; "in"; "is"; "lambda"; "nonlocal";
   "not"; "or"; "pass"; "raise"; "return"; "try"; "while"; "with"; "yield"].

(** A name of letters, digits and underscores that starts with no digit and
    is not reserved. *)
Definition is_name (s : string) : bool :=
  match s with
  | EmptyString => false
  | String c s' =>
      is_letter c && all_chars (fun a => is_letter a || is_digit a) s'
      && negb (Str.mem s reserved)
  end.

(** The statement [kwargs.update(eval('dict(%s)' % keyword, ..))] on the
    keywords of the examples.  A keyword [name=literal], with such a name
    and a decimal literal, None, True or False, sets the one item.  Every
    other keyword is taken to raise in [eval]: of these the examples use
    none but ["y=@"], which is no expression of Python.  The namespace plays
    no part. *)
Definition eval_literal (ns : unit) (keyword : string) : evaluation :=
  match Str.split "=" keyword with
  | [name; v] =>
      if negb (is_name name) then Raised []
      else if String.eqb v "None" then Updated [(name, PyNone)]
      else if String.eqb v "True" then Updated [(name, PyBool true)]
      else if String.eqb v "False" then Updated [(name, PyBool false)]
      else match decimal v with
           | Some n => Updated [(name, PyInt n)]
           | None => Raised []
           end
  | _ => Raised []
  end.


(** The no-break space, code point 160. *)
Definition nbsp : string := String (ascii_of_nat 160) EmptyString.

(** Constructors that accept every argument. *)
Definition accept_options : PyDict.t pyval -> option exn := fun _ => None.

(** A constructor that raises ValueError when it is given the keyword
    [key], for which it has a parameter of its own. *)
Definition reject_key : PyDict.t pyval -> option exn :=
  fun keywords => if PyDict.contains keywords "key" then Some ValueError else None.

Definition accept_compositor {operation : Type}
  : string -> operation -> string -> string -> PyDict.t pyval -> option exn :=
  fun _ _ _ _ _ => None.

(** A scan that finds the single match [groups], ending at [e]. *)
Definition scan_one {G} (groups : list G) (e : nat)
  : string -> list (list G * nat * nat) :=
  fun _ => [(groups, 0, e)].

(** A scan that finds no match. *)
Definition scan_none {G} : string -> list (list G * nat * nat) :=
  fun _ => [].

(** A parse that returns [groups]. *)
Definition parse_to {G} (groups : list G) : string -> exn + list G :=
  fun _ => inr groups.

(** A group that is a bare path. *)
Definition bare (path : string) : OptsSpec.spec_group :=
  OptsSpec.mkGroup path None None None.

(** A group with style options only. *)
Definition styled (path : string) (style : list tok) : OptsSpec.spec_group :=
  OptsSpec.mkGroup path None None (Some style).

End Sample.

(** ** The conditions on a normalization token list, as the specification
    words them *)

Module NormSpec.

(** Some flag occurs more than once. *)
Definition repeated_flag (opts : list tok) : Prop :=
  exists flag, In flag OptsSpec.norm_flags /\ 1 < OptsSpec.count flag opts.

(** Some element is none of the four flags. *)
Definition unknown_token (opts : list tok) : Prop :=
  exists t, In t opts /\ forall flag, In flag OptsSpec.norm_flags -> t <> Tok flag.

(** Both signs of one axis are present. *)
Definition sign_conflict (opts : list tok) : Prop :=
  (In (Tok "+framewise") opts /\ In (Tok "-framewise") opts)
  \/ (In (Tok "+axiswise") opts /\ In (Tok "-axiswise") opts).

(** A valid list: no duplicates, no unknown tokens, no +/- conflict. *)
Definition valid (opts : list tok) : Prop :=
  ~ repeated_flag opts /\ ~ unknown_token opts /\ ~ sign_conflict opts.

(** The three checks of [process_normalization], as one boolean. *)
Definition rejected (opts : list tok) : bool :=
  existsb (fun flag => (1 <? OptsSpec.count flag opts)%nat) OptsSpec.norm_flags
  || negb (forallb (OptsSpec.in_options OptsSpec.norm_flags) opts)
  || existsb (fun pair => OptsSpec.tok_in (fst pair) opts
                          && OptsSpec.tok_in (snd pair) opts) OptsSpec.excluded.

(** A group that carries the normalization block [opts] only. *)
Definition block (path : string) (opts : list tok) : option OptsSpec.spec_group :=
  Some (OptsSpec.mkGroup path (Some opts) None None).

End NormSpec.

(** The set of the path specifications of a run of groups, as
    [_group_paths_without_options] accumulates it. *)
Definition paths_of (groups : list OptsSpec.spec_group) : list string :=
  fold_left (fun active g => OptsSpec.set_add (OptsSpec.pathspec g) active) groups [].

(** ** The keyword grouping, as the specification words it *)

Module GroupSpec.

(** A keyword token followed by its run of tokens without '='. *)
Definition segment : Type := (string * list string)%type.

Definition flatten (segs : list segment) : list string :=
  flat_map (fun seg => fst seg :: snd seg) segs.

Definition well_formed (segs : list segment) : Prop :=
  Forall (fun seg =>
            Parser.has_eq (fst seg) = true /\
            Forall (fun t => Parser.has_eq t = false) (snd seg)) segs.

(** The keyword with its run appended: with commas when some token of the
    run holds ')' or '}', with no separator otherwise. *)
Definition attach (seg : segment) : string :=
  let (keyword, run) := seg in
  match run with
  | [] => keyword
  | _ =>
      if existsb Parser.has_closer run
      then keyword +++ "," +++ Str.join "," run
      else keyword +++ Str.join "" run
  end.

(** The token list is empty or starts with a keyword token. *)
Definition starts_with_keyword (tokens : list string) : Prop :=
  match tokens with
  | [] => True
  | t :: _ => Parser.has_eq t = true
  end.

(** Whether the text holds a closing bracket ')' or '}' that no earlier
    opening bracket of the text matches; [open] holds the closers that the
    brackets opened so far expect, innermost first. *)
Fixpoint unmatched_from (open : list ascii) (s : string) : bool :=
  match s with
  | EmptyString => false
  | String c s' =>
      if Ascii.eqb c "(" then unmatched_from (")"%char :: open) s'
      else if Ascii.eqb c "{" then unmatched_from ("}"%char :: open) s'
      else if Ascii.eqb c ")" || Ascii.eqb c "}" then
        match open with
        | expected :: open' =>
            if Ascii.eqb c expected then unmatched_from open' s' else true
        | [] => true
        end
      else unmatched_from open s'
  end.

(** The run holds an unmatched closing bracket. *)
Definition unmatched_closer (run : list string) : bool :=
  unmatched_from [] (Str.join "" run).

End GroupSpec.

(** ** The keywords of a list that evaluate, and those that do not *)

Module EvalSpec.

Section Keywords.

Variable namespace : Type.
Variable py_eval : namespace -> string -> evaluation.

(** The items that the keywords, repaired, set: of every keyword what its
    update sets before the statement completes or raises, in order. *)
Definition assigned (ns : namespace) (grouped : list string) : list (PyDict.t pyval) :=
  map (fun keyword => items_of (py_eval ns (Parser.repair_keyword keyword))) grouped.


(** The keywords, repaired, for which the statement raises, in order. *)
Definition failing (ns : namespace) (grouped : list string) : list string :=
  flat_map (fun keyword =>
              match py_eval ns (Parser.repair_keyword keyword) with
              | Updated _ => []
              | Raised _ => [Parser.repair_keyword keyword]
              end) grouped.


(** [kwargs] updated with every dictionary in turn. *)
Definition update_all (kwargs : PyDict.t pyval) (ds : list (PyDict.t pyval))
  : PyDict.t pyval :=
  fold_left PyDict.update ds kwargs.

End Keywords.

End EvalSpec.

(** ** Auxiliary notions for the further properties *)

(** Induction on a nested token, with the hypothesis on every element of a
    nested list. *)
Fixpoint tok_nested_ind (P : tok -> Prop)
  (HTok : forall s, P (Tok s))
  (HNest : forall l, Forall P l -> P (Nest l))
  (t : tok) : P t :=
  match t with
  | Tok s => HTok s
  | Nest l =>
      HNest l
        ((fix all (l : list tok) : Forall P l :=
            match l with
            | [] => Forall_nil P
            | x :: l' => Forall_cons x (tok_nested_ind P HTok HNest x) (all l')
            end) l)
  end.

Module TokenSpec.

(** [token.strip() == ','] *)
Definition bare_comma (s : string) : bool := String.eqb (Str.strip s) ",".

(** A scalar token that [collect_tokens] keeps. *)
Definition kept (t : tok) : bool :=
  match t with
  | Tok s => negb (bare_comma s)
  | Nest _ => false
  end.

(** The character is present and is not a comma. *)
Definition not_comma (c : option ascii) : bool :=
  match c with
  | Some a => negb (Ascii.eqb a ",")
  | None => false
  end.

(** A token that is not a bare comma and neither starts nor ends with a
    comma. *)
Definition clean (s : string) : bool :=
  negb (bare_comma s) && not_comma (Str.first_char s) && not_comma (Str.last_char s).

End TokenSpec.

Module KeywordSpec.

(** The text without its commas. *)
Fixpoint remove_commas (s : string) : string :=
  match s with
  | EmptyString => EmptyString
  | String a s' =>
      if Ascii.eqb a "," then remove_commas s' else String a (remove_commas s')
  end.

End KeywordSpec.

Module MergeSpec.

(** Two option dictionaries have the same categories, and in every category
    the same value for every key. *)
Definition same_options {V} (d1 d2 : PyDict.t (PyDict.t V)) : Prop :=
  forall c,
    match PyDict.get d1 c, PyDict.get d2 c with
    | Some x, Some y => forall k, PyDict.get x k = PyDict.get y k
    | None, None => True
    | _, _ => False
    end.

(** Every category of the dictionary has no key twice. *)
Definition categories_wf {V} (d : PyDict.t (PyDict.t V)) : Prop :=
  Forall (fun kv => PyDict.wf (snd kv)) d.

(** The groups that a list of yields carries. *)
Definition yielded_groups (yields : list (list string * option OptsSpec.spec_group))
  : list OptsSpec.spec_group :=
  flat_map (fun y => match snd y with Some g => [g] | None => [] end) yields.

End MergeSpec.

Module AliasSpec.

(** [cls.aliases.get(k,k)]: the current name of an option. *)
Definition canonical (k : string) : string :=
  match PyDict.get OptsSpec.aliases k with
  | Some a => a
  | None => k
  end.

End AliasSpec.

Module ParseSpec.

(** The three option categories. *)
Definition category (c : string) : Prop := c = "norm" \/ c = "plot" \/ c = "style".

(** A SyntaxError or an IndexError. *)
Definition benign (e : exn) : Prop := (exists se, e = SyntaxError se) \/ e = IndexError.

(** Every category of the options is one of the three. *)
Definition only_categories {V} (options : PyDict.t V) : Prop :=
  forall c, PyDict.contains options c = true -> category c.

End ParseSpec.

Module LineSpec.

(** The name under which [parse] returns a path: what [apply_deprecations]
    returns for it. *)
Definition returned_name (path : string) : string :=
  match outcome (OptsSpec.apply_deprecations path) with
  | inr name => name
  | inl _ => path
  end.

(** No other path of the list is returned under the name of [p]. *)
Definition unambiguous (paths : list string) (p : string) : Prop :=
  forall q, In q paths -> returned_name q = returned_name p -> q = p.

(** A yielded set of paths with the options that its group is resolved
    to. *)
Definition step : Type := (list string * PyDict.t (PyDict.t pyval))%type.

(** The options of the path [p] after the steps, from the options [acc]:
    the options of every step whose set holds [p] are merged in, in
    order. *)
Definition options_from (acc : PyDict.t (PyDict.t pyval)) (p : string)
  (steps : list step) : PyDict.t (PyDict.t pyval) :=
  fold_left (fun acc st =>
               if Str.mem p (fst st) then OptsSpec._merge_options acc (snd st)
               else acc) steps acc.

Definition options_for (p : string) (steps : list step)
  : PyDict.t (PyDict.t pyval) :=
  options_from PyDict.empty p steps.

(** The path [p] is in the set of some step. *)
Definition mentioned (p : string) (steps : list step) : bool :=
  existsb (fun st => Str.mem p (fst st)) steps.

(** Some step whose set holds [p] has the category [c]. *)
Definition has_category (p c : string) (steps : list step) : bool :=
  existsb (fun st => Str.mem p (fst st) && PyDict.contains (snd st) c) steps.

(** The value that the steps give the option [k] of the category [c] of the
    path [p]: that of the last step whose set holds [p] and whose options
    have the option. *)
Fixpoint last_value (p c k : string) (steps : list step) : option pyval :=
  match steps with
  | [] => None
  | st :: rest =>
      match last_value p c k rest with
      | Some v => Some v
      | None =>
          if Str.mem p (fst st)
          then match PyDict.get (snd st) c with
               | Some d => PyDict.get d k
               | None => None
               end
          else None
      end
  end.

Section Resolved.

Variable namespace : Type.
Variable py_eval : namespace -> string -> evaluation.
Variable abort_on_eval_failure : bool.

(** The steps are the yields of [_group_paths_without_options], each with
    the options that the statements of the loop of [parse] compute for its
    group. *)
Definition resolved (ns : namespace)
  (yields : list (list string * option OptsSpec.spec_group))
  (steps : list step) : Prop :=
  Forall2 (fun y st =>
             fst st = fst y
             /\ exists w,
                  OptsSpec.group_options namespace py_eval abort_on_eval_failure
                    ns (snd y) = (w, inr (snd st))) yields steps.

End Resolved.

End LineSpec.

Module CompositorFacts.

Section Definitions.

Variable operation : Type.
Variable operations : list operation.
Variable op_name : operation -> string.
Variable namespace : Type.
Variable py_eval : namespace -> string -> evaluation.
Variable abort_on_eval_failure : bool.

(** The definition [d] is the one that [CompositorSpec.parse] builds for
    the group [g]. *)
Definition built_from (ns : namespace) (g : CompositorSpec.comp_group)
  (d : Compositor operation) : Prop :=
  CompositorSpec.mode g = Some (mode_of operation d)
  /\ Str.mem (mode_of operation d) ["data"; "display"] = true
  /\ PyDict.get (CompositorSpec.opmap operation operations op_name)
                (CompositorSpec.op g) = Some (operation_of operation d)
  /\ (exists words,
        CompositorSpec.strings_of (CompositorSpec.spec g) = ret words
        /\ pattern operation d = Str.join " " words)
  /\ group_of operation d = CompositorSpec.value g
  /\ match CompositorSpec.op_settings g with
     | None => settings operation d = PyDict.empty
     | Some s =>
         exists w,
           Parser.todict namespace py_eval abort_on_eval_failure
             (Some s) "brackets" ns = (w, inr (settings operation d))
     end.

End Definitions.

End CompositorFacts.

(** * holoviews/element/geom.py: class Selection2DExpr *)

Module Geom.

(** What the method raises in the model. *)
Inductive error : Type :=
| NameError (name : string).

Section Selection.

(** The numbers of the bounds and Python's [>] on them. *)
Variable num : Type.
Variable gt : num -> num -> bool.

(** The expressions that the method builds with [dim]: [dim(d) >= v],
    [dim(d) <= v] and [a & b]. *)
Inductive sel_expr : Type :=
| Ge (d : string) (v : num)
| Le (d : string) (v : num)
| And (a b : sel_expr).

(** [Rectangles(data)] for a list of bounds. *)
Record Rectangles : Type := mkRectangles { boxes : list (num * num * num * num) }.

(** What the method returns: [selection_expr, bbox, region_element]. *)
Definition result : Type :=
  (option sel_expr * option (PyDict.t (num * num)) * option Rectangles)%type.

(** The method [_get_selection_expr_for_stream_value] for an element whose
    first two dimensions are named [xdim] and [ydim] and whose plot option
    [invert_axes] is given; [bounds] and [index_cols] are the entries of
    [kwargs], [None] when missing.  The name [unique_zip] is not defined in
    the module. *)
Definition _get_selection_expr_for_stream_value
  (dims : string * string) (invert_axes : bool)
  (bounds : option (num * num * num * num)) (index_cols : option (list string))
  : error + result :=
  match bounds with
  | None => inr (None, None, Some (mkRectangles []))
  | Some (x0, y0, x1, y1) =>
      let bounds := (x0, y0, x1, y1) in
      let '(y0, y1) := if gt y0 y1 then (y1, y0) else (y0, y1) in
      let '(x0, x1) := if gt x0 x1 then (x1, x0) else (x0, x1) in
      let '(xdim, ydim) := dims in
      let '(xdim, ydim) := if invert_axes then (ydim, xdim) else (xdim, ydim) in
      let bbox := PyDict.set (PyDict.set PyDict.empty xdim (x0, x1)) ydim (y0, y1) in
      match index_cols with
      | Some (_ :: _) => inl (NameError "unique_zip")
      | _ =>
          let selection_expr :=
            And (And (And (Ge xdim x0) (Le xdim x1)) (Ge ydim y0)) (Le ydim y1) in
          let region_element := mkRectangles [bounds] in
          inr (Some selection_expr, Some bbox, Some region_element)
      end
  end.

End Selection.

End Geom.

(** * holoviews/plotting/plotly/plot.py *)

Module Plotly.

Section Adjoint.

(** The subplots, whether Python takes one as true, and what its
    [initialize_plot] returns. *)
Variable subplot : Type.
Variable figure : Type.
Variable truthy : subplot -> bool.
Variable initialize : subplot -> figure.

(** [AdjointLayoutPlot.initialize_plot]: the figures of the subplots at
    main, right and top, or [[None]]. *)
Definition adjoint_initialize_plot (subplots : PyDict.t subplot) : list (option figure) :=
  let adjoined_plots :=
    fold_left (fun adjoined_plots pos =>
                 match PyDict.get subplots pos with
                 | Some sub =>
                     if truthy sub then adjoined_plots ++ [Some (initialize sub)]
                     else adjoined_plots
                 | None => adjoined_plots
                 end) ["main"; "right"; "top"] [] in
  match adjoined_plots with
  | [] => [None]
  | _ => adjoined_plots
  end.

End Adjoint.

Section Grid.

(** The plots that [LayoutPlot.subplots] holds for the coordinates, and the
    list that [initialize_plot] of such a plot returns: figures and None. *)
Variable subplot : Type.
Variable figure : Type.
Variable subplots : nat * nat -> option subplot.
Variable initialize : subplot -> list (option figure).

Definition row : Type := list (option figure).

(** The variables of the loop of [LayoutPlot.initialize_plot]. *)
Record grid : Type := mkGrid {
  plots : list row;
  insert_rows : list nat;
  insert_cols : list nat;
  adjoined : bool
}.

(** [l.insert(i, x)] for [i >= 0]: past the end it appends. *)
Definition list_insert {A} (i : nat) (x : A) (l : list A) : list A :=
  firstn i l ++ x :: skipn i l.

(** [plots[i] = f(plots[i])] for [i >= 0], IndexError past the end. *)
Definition update_row (i : nat) (f : row -> row) (plots : list row) : M (list row) :=
  match nth_error plots i with
  | Some r => ret (firstn i plots ++ f r :: skipn (S i) plots)
  | None => raise IndexError
  end.

(** [plots[n-1] = f(plots[n-1])]: for [n = 0] the index -1 is the last
    row. *)
Definition update_row_before (n : nat) (f : row -> row) (plots : list row)
  : M (list row) :=
  match n with
  | O => match length plots with
         | O => raise IndexError
         | S k => update_row k f plots
         end
  | S i => update_row i f plots
  end.

(** [x in l] for numbers. *)
Definition mem_nat (x : nat) (l : list nat) : bool := existsb (Nat.eqb x) l.

(** [for ir in range(n): plots[index(ir)].insert(c+1, None)] *)
Fixpoint pad_rows (index : nat -> nat) (c : nat) (irs : list nat) (plots : list row)
  : M (list row) :=
  match irs with
  | [] => ret plots
  | ir :: irs' =>
      plots <- update_row (index ir) (list_insert (c + 1) None) plots ;;
      pad_rows index c irs' plots
  end.

(** The branch of the loop body for more than two plots: a top marginal. *)
Definition triple_branch (g : grid) (r c offset : nat) (subs : row)
  : M (grid * row * nat) :=
  let cols := insert_cols g ++ [c] in
  st <-
    (if negb (mem_nat r (insert_rows g)) then
       match nth_error (plots g) r with
       | None => raise IndexError
       | Some row_r =>
           let inserted :=
             list_insert (r + offset) (repeat None (length row_r)) (plots g) in
           padded <- pad_rows (fun ir => ir) c (seq 0 r) inserted ;;
           ret (padded, insert_rows g ++ [r], offset + 1)
       end
     else ret (plots g, insert_rows g, offset)) ;;
  let '(plots1, rows1, offset1) := st in
  plots2 <- update_row_before (r + offset1)
              (fun row => row ++ [last subs None; None]) plots1 ;;
  ret (mkGrid plots2 rows1 cols true, removelast subs, offset1).

(** The branch for two plots: a right marginal. *)
Definition dual_branch (g : grid) (r c offset : nat) (subs : row)
  : M (grid * row * nat) :=
  let cols := insert_cols g ++ [c] in
  plots1 <- pad_rows (fun _ => r) c (seq 0 r) (plots g) ;;
  plots2 <-
    (if mem_nat r (insert_rows g)
     then update_row_before (r + offset) (fun row => row ++ [None; None]) plots1
     else ret plots1) ;;
  ret (mkGrid plots2 (insert_rows g) cols true, subs, offset).

(** The branch for a single plot. *)
Definition single_branch (g : grid) (r c offset : nat) (subs : row)
  : M (grid * row * nat) :=
  plots1 <-
    (if mem_nat r (insert_rows g)
     then update_row_before (r + offset)
            (fun row => row ++ repeat None
                          (1 + (if mem_nat c (insert_cols g) then 1 else 0)))
            (plots g)
     else ret (plots g)) ;;
  ret (mkGrid plots1 (insert_rows g) (insert_cols g) (adjoined g), subs, offset).

(** The body of the loop over [self.coords]. *)
Definition grid_step (g : grid) (coord : nat * nat) : M grid :=
  let '(r, c) := coord in
  match subplots (r, c) with
  | None => ret g
  | Some sub =>
      let subs := initialize sub in
      let offset := length (filter (fun ir => (ir <=? r)%nat) (insert_rows g)) in
      st <-
        (if (2 <? length subs)%nat then triple_branch g r c offset subs
         else if (1 <? length subs)%nat then dual_branch g r c offset subs
         else single_branch g r c offset subs) ;;
      let '(g1, subs1, offset1) := st in
      plots1 <- update_row (r + offset1) (fun row => row ++ subs1) (plots g1) ;;
      plots2 <-
        (if (length subs1 =? 1)%nat && mem_nat c (insert_cols g1)
         then update_row (r + offset1) (fun row => row ++ [None]) plots1
         else ret plots1) ;;
      ret (mkGrid plots2 (insert_rows g1) (insert_cols g1) (adjoined g1))
  end.

(** The grid of plots that [LayoutPlot.initialize_plot] builds before it
    makes the figure. *)
Definition build_grid (rows : nat) (coords : list (nat * nat)) : M grid :=
  for_each grid_step coords (mkGrid (repeat [] rows) [] [] false).

(** The plots of the coordinates of row [r], in the order of the
    coordinates. *)
Definition row_plots (r : nat) (coords : list (nat * nat)) : row :=
  flat_map (fun coord =>
              if (fst coord =? r)%nat
              then match subplots coord with
                   | Some sub => initialize sub
                   | None => []
                   end
              else []) coords.

(** How many plots the cell at a coordinate returns, and whether it brings
    a right marginal (more than one plot) or a top marginal (more than
    two). *)
Definition plot_count (coord : nat * nat) : nat :=
  match subplots coord with
  | Some sub => length (initialize sub)
  | None => 0
  end.

Definition marginal (coord : nat * nat) : bool := (1 <? plot_count coord)%nat.

Definition top_marginal (coord : nat * nat) : bool := (2 <? plot_count coord)%nat.

End Grid.

End Plotly.

(** * Properties *)

(** ** Facts on the result monad *)

Lemma bind_ret_l {A B} (x : A) (f : A -> M B) : bind (ret x) f = f x.
Proof. unfold bind, ret. destruct (f x) as [w r]. reflexivity. Qed.

Lemma bind_raise {A B} (e : exn) (f : A -> M B) : bind (raise e) f = raise e.
Proof. reflexivity. Qed.

Lemma bind_value {A B} (w : list warning) (x : A) (f : A -> M B) :
  bind (w, inr x) f = (w ++ fst (f x), snd (f x)).
Proof. unfold bind. destruct (f x). reflexivity. Qed.

Lemma bind_error {A B} (w : list warning) (e : exn) (f : A -> M B) :
  bind (w, inl e) f = (w, inl e).
Proof. reflexivity. Qed.

Lemma for_each_app {A S} (body : S -> A -> M S) (l1 l2 : list A) (s : S) :
  for_each body (l1 ++ l2) s = (s' <- for_each body l1 s ;; for_each body l2 s').
Proof.
  revert s. induction l1 as [|x l1 IH]; intros s; cbn [for_each app].
  - now rewrite bind_ret_l.
  - destruct (body s x) as [w [e|s']]; [reflexivity|].
    unfold bind at 1 3. rewrite IH.
    destruct (for_each body l1 s') as [w1 [e1|s1]]; simpl.
    + reflexivity.
    + destruct (for_each body l2 s1) as [w2 r2]. now rewrite app_assoc.
Qed.

(** ** Facts on dictionaries *)

Module PyDictFacts.
Import PyDict.

Lemma get_set_eq {V} (d : t V) k v : get (set d k v) k = Some v.
Proof.
  induction d as [|[k' v'] d IH]; simpl.
  - now rewrite String.eqb_refl.
  - destruct (String.eqb k k') eqn:E; simpl; rewrite E; auto.
Qed.

Lemma get_set_neq {V} (d : t V) k k' v : k <> k' -> get (set d k v) k' = get d k'.
Proof.
  intros N. induction d as [|[k0 v0] d IH]; simpl.
  - destruct (String.eqb_spec k' k); congruence.
  - destruct (String.eqb_spec k k0); simpl.
    + subst k0. destruct (String.eqb_spec k' k); congruence.
    + now rewrite IH.
Qed.

Lemma get_set {V} (d : t V) k k' v :
  get (set d k v) k' = if String.eqb k' k then Some v else get d k'.
Proof.
  destruct (String.eqb_spec k' k).
  - subst. apply get_set_eq.
  - apply get_set_neq. congruence.
Qed.

Lemma get_none_keys {V} (d : t V) k : get d k = None <-> ~ In k (keys d).
Proof.
  induction d as [|[k' v'] d IH]; simpl.
  - tauto.
  - destruct (String.eqb_spec k k').
    + subst. split; [discriminate | intros H; exfalso; apply H; now left].
    + rewrite IH. split; [intros H [E|I]; congruence | tauto].
Qed.

Lemma keys_set {V} (d : t V) k v :
  keys (set d k v) = if contains d k then keys d else keys d ++ [k].
Proof.
  unfold contains. induction d as [|[k' v'] d IH]; simpl.
  - reflexivity.
  - destruct (String.eqb_spec k k'); simpl.
    + reflexivity.
    + rewrite IH. now destruct (get d k).
Qed.

Lemma wf_empty {V} : wf (@empty V).
Proof. constructor. Qed.

Lemma wf_set {V} (d : t V) k v : wf d -> wf (set d k v).
Proof.
  unfold wf. intros H. rewrite keys_set. unfold contains.
  destruct (get d k) eqn:E; [assumption|].
  apply get_none_keys in E.
  apply NoDup_app; [assumption | repeat constructor; intros [] | ].
  intros x Hx [<-|[]]. contradiction.
Qed.

Lemma wf_update {V} (d e : t V) : wf d -> wf (update d e).
Proof.
  unfold update. revert d. induction e as [|[k v] e IH]; intros d H; simpl.
  - assumption.
  - apply IH. now apply wf_set.
Qed.

(** Looking a key up after [d.update(e)]: the value of [e] where it has
    one, the value of [d] elsewhere. *)
Lemma get_update {V} (d e : t V) k :
  wf e ->
  get (update d e) k = match get e k with Some v => Some v | None => get d k end.
Proof.
  unfold update, wf. revert d. induction e as [|[k0 v0] e IH]; intros d H; simpl.
  - reflexivity.
  - inversion H as [|? ? Hn Hd]; subst. rewrite (IH _ Hd), get_set.
    destruct (String.eqb_spec k k0).
    + subst. apply get_none_keys in Hn. now rewrite Hn.
    + reflexivity.
Qed.

Lemma set_fresh {V} (d : t V) k v : get d k = None -> set d k v = d ++ [(k, v)].
Proof.
  induction d as [|[k' v'] d IH]; simpl; intros H.
  - reflexivity.
  - destruct (String.eqb k k'); [discriminate|]. now rewrite IH.
Qed.

Lemma update_fresh {V} (d e : t V) :
  wf e -> (forall k, In k (keys e) -> get d k = None) -> update d e = d ++ e.
Proof.
  unfold update, wf. revert d. induction e as [|[k v] e IH]; intros d H F; simpl.
  - now rewrite app_nil_r.
  - inversion H as [|? ? Hn Hd]; subst.
    rewrite set_fresh by (apply F; now left).
    rewrite IH; [now rewrite <- app_assoc | assumption |].
    intros k' I. simpl.
    assert (G : get d k' = None) by (apply F; now right).
    apply get_none_keys. unfold keys. rewrite map_app. simpl.
    intros J. apply in_app_or in J. destruct J as [J|[J|[]]].
    + apply get_none_keys in G. contradiction.
    + subst. contradiction.
Qed.

Lemma update_empty {V} (e : t V) : wf e -> update empty e = e.
Proof. intros H. now apply update_fresh. Qed.

End PyDictFacts.

(** ** Merging option dictionaries *)

Section Merge.
Import PyDict PyDictFacts OptsSpec.

Context {V : Type}.

Lemma get_merge_step (merged : t (t V)) c0 (o : t V) c :
  get (merge_step merged (c0, o)) c =
  if String.eqb c c0
  then Some (update (match get merged c0 with Some d => d | None => empty end) o)
  else get merged c.
Proof.
  unfold merge_step, contains. destruct (get merged c0) as [d|] eqn:E; simpl.
  - rewrite E. apply get_set.
  - rewrite get_set_eq, get_set. destruct (String.eqb_spec c c0); [reflexivity|].
    apply get_set_neq. congruence.
Qed.

Lemma get_merge_options (old_opts new_opts : t (t V)) c :
  wf new_opts ->
  get (_merge_options old_opts new_opts) c =
  match get new_opts c with
  | Some n => Some (update (match get old_opts c with Some o => o | None => empty end) n)
  | None => get old_opts c
  end.
Proof.
  unfold _merge_options, wf. revert old_opts.
  induction new_opts as [|[c0 o] new IH]; intros old H; cbn [fold_left].
  - reflexivity.
  - inversion H as [|? ? Hn Hd]; subst. rewrite (IH _ Hd), get_merge_step.
    cbn [get]. destruct (String.eqb_spec c c0).
    + subst. apply get_none_keys in Hn. now rewrite Hn.
    + reflexivity.
Qed.

End Merge.

(** ** The options of a line *)

Section OptsParse.
Import PyDict PyDictFacts OptsSpec.

Lemma apply_deprecations_total (path : string) :
  exists wd key, apply_deprecations path = (wd, inr key).
Proof.
  unfold apply_deprecations, deprecations. cbn [deprecate].
  destruct (String.eqb _ "GridImage"); do 2 eexists; reflexivity.
Qed.

Lemma wf_rename_aliases (opts : t pyval) : wf (rename_aliases opts).
Proof.
  unfold rename_aliases. generalize (@empty pyval) (@wf_empty pyval).
  induction opts as [|[k v] opts IH]; intros acc H; cbn [fold_left].
  - assumption.
  - apply IH. now apply wf_set.
Qed.

End OptsParse.

Lemma get_in {V} (d : PyDict.t V) k v : PyDict.get d k = Some v -> In (k, v) d.
Proof.
  induction d as [|[k' v'] d IH]; simpl; [discriminate|].
  destruct (String.eqb_spec k k'); intros H.
  - injection H as <-. subst. now left.
  - right. auto.
Qed.

(** ** The whole line must be consumed *)

(** The three ways the check at the head of both [parse] methods ends. *)
Lemma whole_line_check {T} (parses : list (T * nat * nat)) (line : string) :
  let check : M unit :=
    match parses with
    | [p] =>
        let e := snd p in
        let processed := Str.take e line in
        if negb (String.eqb (Str.strip processed) (Str.strip line))
        then raise (SyntaxError (FailedRemainder (Str.drop e line)))
        else ret tt
    | _ => raise (SyntaxError InvalidSpecification)
    end in
  (length parses <> 1 /\ check = raise (SyntaxError InvalidSpecification))
  \/ (exists toks start e,
        parses = [(toks, start, e)] /\
        Str.strip (Str.take e line) <> Str.strip line /\
        check = raise (SyntaxError (FailedRemainder (Str.drop e line))))
  \/ (exists toks start e,
        parses = [(toks, start, e)] /\
        Str.strip (Str.take e line) = Str.strip line /\
        check = ret tt).
Proof.
  destruct parses as [|[[toks start] e] [|q parses]]; cbn zeta.
  - left. split; [discriminate | reflexivity].
  - right. cbn [snd].
    destruct (String.eqb_spec (Str.strip (Str.take e line)) (Str.strip line)).
    + right. exists toks, start, e. auto.
    + left. exists toks, start, e. auto.
  - left. split; [discriminate | reflexivity].
Qed.

(** C1: [OptsSpec.parse] and [CompositorSpec.parse] return a result only
    when the scan of the line has exactly one match whose consumed prefix,
    stripped, is the stripped line; any other number of matches is the
    syntax error "Invalid specification syntax.", and a single match that
    leaves more than whitespace is the syntax error that names the
    remainder of the line; in both cases nothing is returned and no warning
    is emitted. *)
Theorem parse_requires_whole_line :
  (forall scanString parseString namespace py_eval abort_on_eval_failure
          options_error line (ns : namespace),
      let r := OptsSpec.parse scanString parseString namespace py_eval
                 abort_on_eval_failure options_error line ns in
      (forall result, outcome r = inr result ->
         exists toks start e,
           scanString line = [(toks, start, e)] /\
           Str.strip (Str.take e line) = Str.strip line)
      /\ (length (scanString line) <> 1 ->
          r = raise (SyntaxError InvalidSpecification))
      /\ (forall toks start e,
            scanString line = [(toks, start, e)] ->
            Str.strip (Str.take e line) <> Str.strip line ->
            r = raise (SyntaxError (FailedRemainder (Str.drop e line)))))
  /\
  (forall scanString parseString operation operations op_name
          namespace py_eval abort_on_eval_failure compositor_error line
          (ns : namespace),
      let r := CompositorSpec.parse scanString parseString operation operations
                 op_name namespace py_eval abort_on_eval_failure
                 compositor_error line ns in
      (forall result, outcome r = inr result ->
         exists toks start e,
           scanString line = [(toks, start, e)] /\
           Str.strip (Str.take e line) = Str.strip line)
      /\ (length (scanString line) <> 1 ->
          r = raise (SyntaxError InvalidSpecification))
      /\ (forall toks start e,
            scanString line = [(toks, start, e)] ->
            Str.strip (Str.take e line) <> Str.strip line ->
            r = raise (SyntaxError (FailedRemainder (Str.drop e line))))).
Proof.
  split.
  - intros scanString parseString namespace py_eval abort options_error line ns r.
    subst r. unfold OptsSpec.parse.
    destruct (whole_line_check (scanString line) line)
      as [[Hl Hc] | [(toks & start & e & Hs & Hne & Hc)
                    | (toks & start & e & Hs & He & Hc)]];
      cbn zeta in Hc; rewrite Hc.
    + repeat split.
      * discriminate.
      * intros toks start e Hs. rewrite Hs in Hl. now elim Hl.
    + repeat split.
      * discriminate.
      * intros Hl. rewrite Hs in Hl. now elim Hl.
      * intros toks' start' e' Hs'. rewrite Hs in Hs'.
        injection Hs' as <- <- <-. reflexivity.
    + repeat split.
      * intros _ _. eauto.
      * intros Hl. rewrite Hs in Hl. now elim Hl.
      * intros toks' start' e' Hs'. rewrite Hs in Hs'.
        injection Hs' as <- <- <-. contradiction.
  - intros scanString parseString operation operations op_name
      namespace py_eval abort compositor_error line ns r.
    subst r. unfold CompositorSpec.parse.
    destruct (whole_line_check (scanString line) line)
      as [[Hl Hc] | [(toks & start & e & Hs & Hne & Hc)
                    | (toks & start & e & Hs & He & Hc)]];
      cbn zeta in Hc |- *; rewrite Hc.
    + repeat split.
      * discriminate.
      * intros toks start e Hs. rewrite Hs in Hl. now elim Hl.
    + repeat split.
      * discriminate.
      * intros Hl. rewrite Hs in Hl. now elim Hl.
      * intros toks' start' e' Hs'. rewrite Hs in Hs'.
        injection Hs' as <- <- <-. reflexivity.
    + repeat split.
      * intros _ _. eauto.
      * intros Hl. rewrite Hs in Hl. now elim Hl.
      * intros toks' start' e' Hs'. rewrite Hs in Hs'.
        injection Hs' as <- <- <-. contradiction.
Qed.

Lemma parse_requires_whole_line_witness :
  OptsSpec.parse (Sample.scan_one [Sample.bare "Curve"] 5)
    (Sample.parse_to [Sample.bare "Curve"]) unit Sample.eval_literal false
    Sample.accept_options "Curve @#$" tt
  = raise (SyntaxError (FailedRemainder " @#$"))
  /\ CompositorSpec.parse Sample.scan_none (Sample.parse_to []) string ["max"]
       (fun o => o) unit Sample.eval_literal false Sample.accept_compositor "" tt
     = raise (SyntaxError InvalidSpecification)
  /\ (exists toks start e,
        Sample.scan_one [Sample.bare "Curve"] 5 ("Curve" +++ Sample.nbsp)
        = [(toks, start, e)]
        /\ Str.strip (Str.take e ("Curve" +++ Sample.nbsp))
           = Str.strip ("Curve" +++ Sample.nbsp)).
Proof.
  destruct parse_requires_whole_line as [H1 H2]. split; [|split].
  - destruct (H1 (Sample.scan_one [Sample.bare "Curve"] 5)
                 (Sample.parse_to [Sample.bare "Curve"]) unit Sample.eval_literal
                 false Sample.accept_options "Curve @#$" tt) as (_ & _ & H).
    apply (H [Sample.bare "Curve"] 0 5).
    + reflexivity.
    + discriminate.
  - destruct (H2 Sample.scan_none (Sample.parse_to []) string ["max"] (fun o => o)
                 unit Sample.eval_literal false Sample.accept_compositor "" tt)
      as (_ & H & _).
    apply H. simpl. discriminate.
  - destruct (H1 (Sample.scan_one [Sample.bare "Curve"] 5)
                 (Sample.parse_to [Sample.bare "Curve"]) unit Sample.eval_literal
                 false Sample.accept_options ("Curve" +++ Sample.nbsp) tt)
      as (H & _ & _).
    apply (H [("Curve", [])]). reflexivity.
Defined.

(** ** Normalization options *)

Section Normalization.
Import OptsSpec NormSpec.

Lemma tok_in_In s opts : tok_in s opts = true <-> In (Tok s) opts.
Proof.
  unfold tok_in. rewrite existsb_exists. split.
  - intros (t & I & E). destruct t as [s'|l]; [|discriminate].
    apply String.eqb_eq in E. now subst.
  - intros I. exists (Tok s). split; [assumption|]. apply String.eqb_refl.
Qed.

Lemma in_options_false t :
  in_options norm_flags t = false <-> forall flag, In flag norm_flags -> t <> Tok flag.
Proof.
  destruct t as [s|l]; cbn [in_options].
  - unfold Str.mem. split.
    + intros E flag I X. injection X as ->.
      assert (X : existsb (String.eqb flag) norm_flags = true).
      { apply existsb_exists. exists flag. split; [assumption | apply String.eqb_refl]. }
      congruence.
    + intros H. destruct (existsb (String.eqb s) norm_flags) eqn:E; [|reflexivity].
      apply existsb_exists in E. destruct E as (flag & I & E).
      apply String.eqb_eq in E. subst. now elim (H flag I).
  - split; [discriminate | reflexivity].
Qed.

Lemma forallb_false {A} (f : A -> bool) (l : list A) :
  forallb f l = false <-> exists x, In x l /\ f x = false.
Proof.
  induction l as [|a l IH]; simpl.
  - split; [discriminate | intros (x & [] & _)].
  - rewrite andb_false_iff, IH. split.
    + intros [E | (x & I & E)]; [exists a | exists x]; auto.
    + intros (x & [<- | I] & E); [now left | right; eauto].
Qed.

Lemma rejected_iff opts :
  rejected opts = true <->
  repeated_flag opts \/ unknown_token opts \/ sign_conflict opts.
Proof.
  unfold rejected, repeated_flag, unknown_token, sign_conflict.
  rewrite !orb_true_iff, negb_true_iff, <- or_assoc.
  assert (B1 : existsb (fun flag => (1 <? count flag opts)%nat) norm_flags = true
               <-> exists flag, In flag norm_flags /\ 1 < count flag opts).
  { rewrite existsb_exists. split; intros (flag & I & E); exists flag;
      (split; [assumption | now apply Nat.ltb_lt]). }
  assert (B2 : forallb (in_options norm_flags) opts = false
               <-> exists t, In t opts /\
                     forall flag, In flag norm_flags -> t <> Tok flag).
  { rewrite forallb_false. split; intros (t & I & E); exists t;
      (split; [assumption | now apply in_options_false]). }
  assert (B3 : existsb (fun pair => tok_in (fst pair) opts && tok_in (snd pair) opts)
                 excluded = true
               <-> (In (Tok "+framewise") opts /\ In (Tok "-framewise") opts)
                   \/ (In (Tok "+axiswise") opts /\ In (Tok "-axiswise") opts)).
  { cbn [existsb excluded fst snd].
    rewrite !orb_true_iff, !andb_true_iff, !tok_in_In. intuition discriminate. }
  rewrite B1, B2, B3. reflexivity.
Qed.

Lemma process_normalization_checked parse_group opts :
  named norm_options parse_group = Some opts -> opts <> [] ->
  if rejected opts
  then exists se, process_normalization parse_group = raise (SyntaxError se)
  else process_normalization parse_group =
       ret (Some
         match opts with
         | [Tok o] =>
             if Str.endswith "framewise" o
             then norm_dict false (tok_in "+framewise" opts)
             else if Str.endswith "axiswise" o
                  then norm_dict (tok_in "+axiswise" opts) false
                  else norm_dict (tok_in "+axiswise" opts) (tok_in "+framewise" opts)
         | _ => norm_dict (tok_in "+axiswise" opts) (tok_in "+framewise" opts)
         end).
Proof.
  intros H N. unfold process_normalization. rewrite H.
  destruct opts as [|t l]; [congruence|]. clear N H.
  unfold rejected. set (opts := t :: l).
  cbn [for_each norm_flags excluded existsb fst snd].
  repeat match goal with
  | |- context [if ?b then raise ?e else ret tt] =>
      destruct b eqn:?; cbn [orb negb andb];
      [ rewrite ?bind_ret_l, ?orb_true_r; cbn [bind raise]; eexists; reflexivity
      | rewrite ?bind_ret_l ]
  end.
  destruct t as [o|n]; destruct l as [|t' l]; try reflexivity.
  - destruct (Str.endswith "framewise" o); [reflexivity|].
    destruct (Str.endswith "axiswise" o); reflexivity.
  - discriminate.
Qed.

Lemma process_normalization_absent parse_group :
  named norm_options parse_group = None ->
  process_normalization parse_group = ret None.
Proof. intros H. unfold process_normalization. now rewrite H. Qed.

Lemma process_normalization_empty parse_group :
  named norm_options parse_group = Some [] ->
  process_normalization parse_group = ret None.
Proof. intros H. unfold process_normalization. now rewrite H. Qed.

End Normalization.

(** C5: [process_normalization] raises a syntax error exactly when the token
    list repeats one of the four flags, holds an element that is none of the
    four flags, or holds both signs of one axis; it raises nothing else, and
    the pair +axiswise, +framewise is accepted with both flags true. *)
Theorem normalization_syntax_errors :
  (forall parse_group opts,
      OptsSpec.named OptsSpec.norm_options parse_group = Some opts ->
      (exists se, outcome (OptsSpec.process_normalization parse_group)
                  = inl (SyntaxError se))
      <-> (NormSpec.repeated_flag opts \/ NormSpec.unknown_token opts
           \/ NormSpec.sign_conflict opts))
  /\ (forall parse_group e,
        outcome (OptsSpec.process_normalization parse_group) = inl e ->
        exists se, e = SyntaxError se)
  /\ (forall path,
        OptsSpec.process_normalization
          (NormSpec.block path [Tok "+axiswise"; Tok "+framewise"])
        = ret (Some [("axiswise", PyBool true); ("framewise", PyBool true)])).
Proof.
  split; [|split].
  - intros parse_group opts H. rewrite <- rejected_iff.
    destruct opts as [|t l].
    + rewrite (process_normalization_empty _ H). cbn. split.
      * intros (se & E). discriminate.
      * discriminate.
    + pose proof (process_normalization_checked parse_group (t :: l) H) as C.
      destruct (NormSpec.rejected (t :: l)).
      * destruct C as (se & E); [discriminate|]. rewrite E. split; [reflexivity|].
        intros _. now exists se.
      * rewrite C by discriminate. split; [|discriminate].
        intros (se & E). discriminate.
  - intros parse_group e H.
    destruct (OptsSpec.named OptsSpec.norm_options parse_group) as [[|t l]|] eqn:N.
    + rewrite (process_normalization_empty _ N) in H. discriminate.
    + pose proof (process_normalization_checked parse_group (t :: l) N) as C.
      destruct (NormSpec.rejected (t :: l)).
      * destruct C as (se & E); [discriminate|]. rewrite E in H.
        injection H as <-. now exists se.
      * rewrite C in H by discriminate. discriminate.
    + rewrite (process_normalization_absent _ N) in H. discriminate.
  - reflexivity.
Qed.

Lemma normalization_syntax_errors_witness :
  exists se,
    outcome (OptsSpec.process_normalization
               (NormSpec.block "Curve" [Tok "+framewise"; Tok "-framewise"]))
    = inl (SyntaxError se).
Proof.
  destruct normalization_syntax_errors as (H & _ & _).
  apply (H (NormSpec.block "Curve" [Tok "+framewise"; Tok "-framewise"])
           [Tok "+framewise"; Tok "-framewise"] eq_refl).
  right. right. left. simpl. auto.
Defined.

Section NormalizationEntry.
Import OptsSpec.

Variable namespace : Type.
Variable py_eval : namespace -> string -> evaluation.
Variable abort_on_eval_failure : bool.

(** The "norm" entry of the options of a group is what
    [process_normalization] returns, and is missing when that is None. *)
Lemma group_options_norm ns group normalization w options :
  process_normalization group = ret normalization ->
  group_options namespace py_eval abort_on_eval_failure ns group = (w, inr options) ->
  PyDict.get options "norm" = normalization.
Proof.
  intros Hn. unfold group_options. rewrite Hn, bind_ret_l.
  set (o1 := match normalization with
             | Some n => PyDict.set PyDict.empty "norm" n
             | None => PyDict.empty
             end).
  assert (G1 : PyDict.get o1 "norm" = normalization)
    by (subst o1; destruct normalization; reflexivity).
  clearbody o1.
  destruct (named plot_options group) as [plotopts|].
  - destruct (Parser.todict _ _ _ (Some plotopts) _ ns) as [wp [ep|dp]].
    + cbn. discriminate.
    + cbn [bind ret]. destruct (named style_options group) as [styleopts|].
      * destruct (Parser.todict _ _ _ (Some styleopts) _ ns) as [ws [es|ds]];
          cbn; [discriminate|].
        intros E. injection E as _ <-.
        now rewrite !PyDictFacts.get_set_neq by discriminate.
      * cbn. intros E. injection E as _ <-.
        now rewrite PyDictFacts.get_set_neq by discriminate.
  - rewrite bind_ret_l. destruct (named style_options group) as [styleopts|].
    + destruct (Parser.todict _ _ _ (Some styleopts) _ ns) as [ws [es|ds]];
        cbn; [discriminate|].
      intros E. injection E as _ <-.
      now rewrite PyDictFacts.get_set_neq by discriminate.
    + cbn. intros E. now injection E as _ <-.
Qed.

End NormalizationEntry.

Lemma valid_not_rejected opts : NormSpec.valid opts -> NormSpec.rejected opts = false.
Proof.
  intros (H1 & H2 & H3). destruct (NormSpec.rejected opts) eqn:E; [|reflexivity].
  apply rejected_iff in E. tauto.
Qed.

Lemma not_rejected_valid opts : NormSpec.rejected opts = false -> NormSpec.valid opts.
Proof.
  intros E. unfold NormSpec.valid.
  repeat split; intros H;
    (assert (R : NormSpec.rejected opts = true) by (apply rejected_iff; tauto));
    congruence.
Qed.

Lemma single_flag o :
  NormSpec.rejected [Tok o] = false ->
  o = "+framewise" \/ o = "-framewise" \/ o = "+axiswise" \/ o = "-axiswise".
Proof.
  unfold NormSpec.rejected. intros H.
  apply orb_false_iff in H. destruct H as [H _].
  apply orb_false_iff in H. destruct H as [_ H].
  apply negb_false_iff in H. cbn [forallb OptsSpec.in_options] in H.
  rewrite andb_true_r in H. unfold Str.mem, OptsSpec.norm_flags in H.
  cbn [existsb] in H. rewrite !orb_true_iff in H.
  destruct H as [H|[H|[H|[H|H]]]]; try discriminate;
    apply String.eqb_eq in H; auto.
Qed.

(** C4, as the code has it: for a valid normalization token list, a single
    framewise flag gives axiswise false and framewise the sign of the flag, a
    single axiswise flag gives framewise false and axiswise the sign of the
    flag, and two or more tokens give each flag true exactly when its +
    token is present; an empty token list and a missing normalization block
    both give None, and the options of a group have a "norm" entry only for
    a result other than None. *)
Theorem normalization_defaults :
  (forall path opts,
      NormSpec.valid opts ->
      match opts with
      | [] =>
          OptsSpec.process_normalization (NormSpec.block path opts) = ret None
      | [t] =>
          exists o, t = Tok o /\
            (((o = "+framewise" \/ o = "-framewise") /\
              OptsSpec.process_normalization (NormSpec.block path opts)
              = ret (Some [("axiswise", PyBool false);
                           ("framewise", PyBool (String.eqb o "+framewise"))]))
             \/
             ((o = "+axiswise" \/ o = "-axiswise") /\
              OptsSpec.process_normalization (NormSpec.block path opts)
              = ret (Some [("axiswise", PyBool (String.eqb o "+axiswise"));
                           ("framewise", PyBool false)])))
      | _ =>
          OptsSpec.process_normalization (NormSpec.block path opts)
          = ret (Some [("axiswise", PyBool (OptsSpec.tok_in "+axiswise" opts));
                       ("framewise", PyBool (OptsSpec.tok_in "+framewise" opts))])
      end)
  /\ (forall parse_group,
        OptsSpec.named OptsSpec.norm_options parse_group = None ->
        OptsSpec.process_normalization parse_group = ret None)
  /\ (forall namespace py_eval abort_on_eval_failure (ns : namespace)
             group normalization w options,
        OptsSpec.process_normalization group = ret normalization ->
        OptsSpec.group_options namespace py_eval abort_on_eval_failure ns group
        = (w, inr options) ->
        PyDict.get options "norm" = normalization).
Proof.
  split; [|split].
  - intros path opts V. apply valid_not_rejected in V.
    destruct opts as [|t [|t' l]].
    + reflexivity.
    + pose proof (process_normalization_checked
                    (NormSpec.block path [t]) [t] eq_refl) as C.
      rewrite V in C. specialize (C ltac:(discriminate)).
      assert (exists o, t = Tok o) as (o & ->).
      { destruct t as [o|n]; [now exists o|].
        unfold NormSpec.rejected in V. cbn in V. discriminate. }
      exists o. split; [reflexivity|].
      destruct (single_flag o V) as [-> | [-> | [-> | ->]]];
        [left | left | right | right]; (split; [auto | exact C]).
    + pose proof (process_normalization_checked
                    (NormSpec.block path (t :: t' :: l)) (t :: t' :: l) eq_refl) as C.
      rewrite V in C. specialize (C ltac:(discriminate)).
      rewrite C. now destruct t.
  - apply process_normalization_absent.
  - apply group_options_norm.
Qed.

Lemma normalization_defaults_witness :
  OptsSpec.process_normalization
    (NormSpec.block "Curve" [Tok "-axiswise"; Tok "+framewise"])
  = ret (Some [("axiswise", PyBool false); ("framewise", PyBool true)]).
Proof.
  destruct normalization_defaults as (H & _ & _).
  apply (H "Curve" [Tok "-axiswise"; Tok "+framewise"]).
  apply not_rejected_valid. reflexivity.
Defined.

(** An empty normalization block is a valid token list with zero tokens, and
    it gives None, not the dictionary with both flags false: the statement
    that every valid list of zero or at least two tokens gives the two flags
    fails. *)
Lemma normalization_defaults_counterexample :
  NormSpec.valid []
  /\ OptsSpec.process_normalization (NormSpec.block "Curve" []) = ret None
  /\ ~ (forall opts,
          NormSpec.valid opts -> length opts <> 1 ->
          OptsSpec.process_normalization (NormSpec.block "Curve" opts)
          = ret (Some [("axiswise", PyBool (OptsSpec.tok_in "+axiswise" opts));
                       ("framewise", PyBool (OptsSpec.tok_in "+framewise" opts))])).
Proof.
  assert (V : NormSpec.valid []) by (apply not_rejected_valid; reflexivity).
  split; [exact V|]. split; [reflexivity|].
  intros H. specialize (H [] V ltac:(discriminate)). discriminate.
Qed.

(** ** Grouping the paths of a line *)

Section Grouping.
Import OptsSpec.

Lemma set_add_nonempty x s : set_add x s <> [].
Proof.
  unfold set_add. destruct (Str.mem x s) eqn:E.
  - destruct s; [discriminate E | discriminate].
  - destruct s; discriminate.
Qed.

Lemma mem_In x s : Str.mem x s = true <-> In x s.
Proof.
  unfold Str.mem. rewrite existsb_exists. split.
  - intros (y & I & E). apply String.eqb_eq in E. now subst.
  - intros I. exists x. split; [assumption | apply String.eqb_refl].
Qed.

Lemma set_add_NoDup x s : NoDup s -> NoDup (set_add x s).
Proof.
  intros H. unfold set_add. destruct (Str.mem x s) eqn:E; [assumption|].
  apply NoDup_app; [assumption | repeat constructor; intros [] |].
  intros y I [<-|[]]. apply mem_In in I. congruence.
Qed.

Lemma add_all_NoDup groups active :
  NoDup active ->
  NoDup (fold_left (fun a g => set_add (pathspec g) a) groups active).
Proof.
  revert active. induction groups as [|g groups IH]; intros active H; cbn [fold_left].
  - assumption.
  - apply IH. now apply set_add_NoDup.
Qed.

Lemma add_all_nonempty groups active :
  active <> [] ->
  fold_left (fun a g => set_add (pathspec g) a) groups active <> [].
Proof.
  revert active. induction groups as [|g groups IH]; intros active H; cbn [fold_left].
  - assumption.
  - apply IH, set_add_nonempty.
Qed.

Lemma paths_of_NoDup groups : NoDup (paths_of groups).
Proof. apply add_all_NoDup. constructor. Qed.

Lemma group_paths_options active bare g rest :
  Forall (fun b => has_options b = false) bare ->
  has_options g = true ->
  group_paths active (bare ++ g :: rest) =
  (fold_left (fun a b => set_add (pathspec b) a) (bare ++ [g]) active, Some g)
    :: group_paths [] rest.
Proof.
  intros Hb Hg. revert active.
  induction Hb as [|b bare Hb _ IH]; intros active; cbn [app group_paths fold_left].
  - now rewrite Hg.
  - rewrite Hb. apply IH.
Qed.

Lemma group_paths_trailing active bare :
  Forall (fun b => has_options b = false) bare ->
  group_paths active bare =
  match fold_left (fun a b => set_add (pathspec b) a) bare active with
  | [] => []
  | s => [(s, None)]
  end.
Proof.
  intros Hb. revert active.
  induction Hb as [|b bare Hb _ IH]; intros active; cbn [group_paths fold_left].
  - now destruct active.
  - rewrite Hb. apply IH.
Qed.

Lemma get_assign_paths pathspecs options parse p :
  NoDup pathspecs ->
  PyDict.get (assign_paths pathspecs options parse) p =
  if Str.mem p pathspecs
  then Some (_merge_options
               (match PyDict.get parse p with Some o => o | None => PyDict.empty end)
               options)
  else PyDict.get parse p.
Proof.
  unfold assign_paths. intros H. revert parse.
  induction H as [|a S Ha _ IH]; intros parse; cbn [fold_left].
  - reflexivity.
  - rewrite IH. unfold Str.mem. cbn [existsb]. fold (Str.mem p S).
    rewrite PyDictFacts.get_set.
    destruct (String.eqb_spec p a) as [->|N]; cbn [orb].
    + destruct (Str.mem a S) eqn:E; [|reflexivity].
      apply mem_In in E. contradiction.
    + reflexivity.
Qed.

(** Python leaves the order in which a set is iterated open: the options
    that a path ends up with do not depend on it. *)
Lemma assign_paths_order pathspecs pathspecs' options parse p :
  NoDup pathspecs -> NoDup pathspecs' ->
  (forall x, In x pathspecs <-> In x pathspecs') ->
  PyDict.get (assign_paths pathspecs options parse) p
  = PyDict.get (assign_paths pathspecs' options parse) p.
Proof.
  intros H H' E. rewrite !get_assign_paths by assumption.
  destruct (Str.mem p pathspecs) eqn:M, (Str.mem p pathspecs') eqn:M';
    try reflexivity.
  - apply mem_In, E, mem_In in M. congruence.
  - apply mem_In, E, mem_In in M'. congruence.
Qed.

End Grouping.

Section BarePath.
Import OptsSpec.

Variable scanString : string -> list (list spec_group * nat * nat).
Variable parseString : string -> exn + list spec_group.
Variable namespace : Type.
Variable py_eval : namespace -> string -> evaluation.
Variable abort_on_eval_failure : bool.
Variable options_error : PyDict.t pyval -> option exn.

Lemma group_options_none ns :
  group_options namespace py_eval abort_on_eval_failure ns None = ret PyDict.empty.
Proof. reflexivity. Qed.

Lemma parse_step_assigns ns parse pathspecs group w options :
  group_options namespace py_eval abort_on_eval_failure ns group = (w, inr options) ->
  parse_step namespace py_eval abort_on_eval_failure ns parse (pathspecs, group)
  = (w, inr (assign_paths pathspecs options parse)).
Proof.
  intros H. unfold parse_step. rewrite H. cbn [bind ret]. rewrite app_nil_r. reflexivity.
Qed.

Lemma parse_bare_path line ns path toks start e :
  scanString line = [(toks, start, e)] ->
  Str.strip (Str.take e line) = Str.strip line ->
  parseString line = inr [Sample.bare path] ->
  exists wd key,
    apply_deprecations path = (wd, inr key) /\
    parse scanString parseString namespace py_eval abort_on_eval_failure options_error line ns
    = (wd, inr [(key, [])]).
Proof.
  intros Hscan Hstrip Hparse.
  destruct (apply_deprecations_total path) as (wd & key & Hd).
  exists wd, key. split; [assumption|].
  unfold parse. rewrite Hscan. cbn [snd].
  rewrite Hstrip, String.eqb_refl. cbn [negb]. rewrite bind_ret_l.
  rewrite Hparse. change (@nil warning, @inr exn _ ?x) with (ret x).
  rewrite bind_ret_l.
  change (_group_paths_without_options [Sample.bare path]) with [([path], @None spec_group)].
  cbn [for_each]. rewrite (parse_step_assigns _ _ _ _ [] PyDict.empty (group_options_none ns)).
  cbn -[deprecated_paths]. unfold deprecated_paths. cbn [for_each fst snd].
  rewrite Hd. cbn. now rewrite !app_nil_r.
Qed.

End BarePath.

Lemma not_deprecated path :
  hd "" (Str.split "." path) <> "GridImage" ->
  OptsSpec.apply_deprecations path = ret path.
Proof.
  intros N. unfold OptsSpec.apply_deprecations, OptsSpec.deprecations.
  cbn [OptsSpec.deprecate].
  destruct (String.eqb_spec (hd "" (Str.split "." path)) "GridImage");
    [contradiction | reflexivity].
Qed.

(** ** Grouping the tokens of a keyword list *)

Section Grouping.
Import Parser GroupSpec.

Lemma append_to_last_snoc l k s : append_to_last (l ++ [k]) s = ret (l ++ [k +++ s]).
Proof.
  unfold append_to_last. destruct (l ++ [k]) eqn:E.
  - now apply app_eq_nil in E.
  - rewrite <- E, removelast_last, last_last. reflexivity.
Qed.

Lemma groupby_head {A} (key : A -> bool) x l :
  exists g r, groupby key (x :: l) = (key x, x :: g) :: r.
Proof.
  cbn [groupby]. destruct (groupby key l) as [|[b g] r].
  - now exists [], [].
  - destruct (Bool.eqb (key x) b) eqn:E.
    + apply Bool.eqb_prop in E. subst b. now exists g, r.
    + now exists [], ((b, g) :: r).
Qed.

(** A keyword token in front of any tokens joins the list of keywords. *)
Lemma loop_keyword k l grouped :
  has_eq k = true ->
  for_each group_step (groupby has_eq (k :: l)) grouped
  = for_each group_step (groupby has_eq l) (grouped ++ [k]).
Proof.
  intros H. cbn [groupby]. rewrite H.
  destruct (groupby has_eq l) as [|[b g] r]; cbn [for_each group_step].
  - now rewrite bind_ret_l.
  - destruct b; cbn [Bool.eqb for_each group_step]; rewrite !bind_ret_l.
    + now rewrite <- app_assoc.
    + reflexivity.
Qed.

Lemma groupby_run run rest :
  run <> [] ->
  Forall (fun t => has_eq t = false) run ->
  starts_with_keyword rest ->
  groupby has_eq (run ++ rest) = (false, run) :: groupby has_eq rest.
Proof.
  intros N F S. induction F as [|x run Hx F IH]; [congruence|].
  destruct run as [|x' run].
  - cbn [app groupby]. rewrite Hx. destruct rest as [|y rest].
    + reflexivity.
    + destruct (groupby_head has_eq y rest) as (g & r & E). rewrite E.
      cbn in S. rewrite S. reflexivity.
  - change ((x :: x' :: run) ++ rest) with (x :: ((x' :: run) ++ rest)).
    cbn [groupby]. rewrite IH by discriminate. now rewrite Hx.
Qed.

Lemma flatten_starts segs : well_formed segs -> starts_with_keyword (flatten segs).
Proof. intros H. destruct H as [|[k run] segs [Hk _] _]; [exact I | exact Hk]. Qed.

Lemma group_loop_segments segs grouped :
  well_formed segs ->
  for_each group_step (groupby has_eq (flatten segs)) grouped
  = ret (grouped ++ map attach segs).
Proof.
  intros H. revert grouped.
  induction H as [|[k run] segs [Hk Hrun] Hsegs IH]; intros grouped.
  - cbn. now rewrite app_nil_r.
  - change (flatten ((k, run) :: segs)) with (k :: run ++ flatten segs).
    rewrite loop_keyword by assumption. cbn [map attach].
    destruct run as [|x run].
    + cbn [app]. rewrite IH, <- app_assoc. reflexivity.
    + rewrite groupby_run; [|discriminate|assumption|now apply flatten_starts].
      cbn [for_each group_step]. rewrite append_to_last_snoc, bind_ret_l, IH.
      rewrite <- app_assoc. cbn [app].
      destruct (existsb has_closer (x :: run)); reflexivity.
Qed.

(** Every token list that starts with a keyword splits into segments. *)
Lemma segments_exist tokens :
  starts_with_keyword tokens ->
  exists segs, well_formed segs /\ tokens = flatten segs.
Proof.
  induction tokens as [|t tokens IH] using rev_ind.
  - exists []. split; [constructor | reflexivity].
  - intros S.
    assert (S' : starts_with_keyword tokens).
    { destruct tokens; [exact I | exact S]. }
    destruct (IH S') as (segs & W & E). clear IH. subst tokens.
    destruct (has_eq t) eqn:Ht.
    + exists (segs ++ [(t, [])]). split.
      * apply Forall_app. split; [assumption|]. repeat constructor. exact Ht.
      * unfold flatten. rewrite flat_map_app. cbn. now rewrite ?app_nil_r.
    + destruct segs as [|seg segs _] using rev_ind.
      * cbn in S. congruence.
      * destruct seg as [k run]. exists (segs ++ [(k, run ++ [t])]).
        apply Forall_app in W. destruct W as [W1 W2].
        inversion W2 as [|? ? [Hk Hr] _]; subst. split.
        -- apply Forall_app. split; [assumption|]. repeat constructor.
           ++ exact Hk.
           ++ cbn [snd]. apply Forall_app. split; [assumption|].
              repeat constructor. exact Ht.
        -- unfold flatten. rewrite !flat_map_app. cbn.
           rewrite ?app_nil_r, <- ?app_assoc. reflexivity.
Qed.

End Grouping.

(** C8, as the code has it: in a token list that starts with a keyword
    token, every maximal run of tokens without '=' is appended to the keyword
    token just before it, behind a comma and joined with commas exactly when
    some token of the run holds the character ')' or '}', matched or not,
    and joined with no separator otherwise. *)
Theorem keyword_runs_are_appended :
  (forall segs,
      GroupSpec.well_formed segs ->
      Parser.group_tokens (GroupSpec.flatten segs)
      = ret (map GroupSpec.attach segs))
  /\ (forall tokens,
        GroupSpec.starts_with_keyword tokens ->
        exists segs,
          GroupSpec.well_formed segs /\ tokens = GroupSpec.flatten segs /\
          Parser.group_tokens tokens = ret (map GroupSpec.attach segs))
  /\ (forall keyword run,
        Parser.has_eq keyword = true ->
        run <> [] ->
        Forall (fun t => Parser.has_eq t = false) run ->
        Parser.group_tokens (keyword :: run)
        = ret [if existsb (fun el => Str.contains_char ")" el
                                     || Str.contains_char "}" el) run
               then keyword +++ "," +++ Str.join "," run
               else keyword +++ Str.join "" run]).
Proof.
  split; [|split].
  - intros segs W. unfold Parser.group_tokens.
    now rewrite group_loop_segments.
  - intros tokens S. destruct (segments_exist tokens S) as (segs & W & E).
    exists segs. split; [assumption|]. split; [assumption|]. subst tokens.
    unfold Parser.group_tokens. now rewrite group_loop_segments.
  - intros keyword run Hk Hn Hr. unfold Parser.group_tokens.
    assert (W : GroupSpec.well_formed [(keyword, run)]) by (repeat constructor; assumption).
    pose proof (group_loop_segments [(keyword, run)] [] W) as G.
    cbn [GroupSpec.flatten flat_map fst snd app] in G. rewrite app_nil_r in G.
    rewrite G. cbn [map GroupSpec.attach app].
    destruct run; [congruence | reflexivity].
Qed.

Lemma keyword_runs_are_appended_witness :
  Parser.group_tokens ["a=1"; "b={1:"; "2}"; "c=f"; "x"; "y"; "d=4"]
  = ret ["a=1"; "b={1:,2}"; "c=fxy"; "d=4"].
Proof.
  destruct keyword_runs_are_appended as (H & _ & _).
  apply (H [("a=1", []); ("b={1:", ["2}"]); ("c=f", ["x"; "y"]); ("d=4", [])]).
  repeat constructor.
Defined.

(** The style options "(a=1 foo(2))" are collected into the tokens a=1 and
    foo(2).  The run foo(2) has no unmatched closing bracket, yet it is
    appended with a comma: the joiner does not depend on the bracket being
    unmatched. *)
Lemma keyword_runs_are_appended_counterexample :
  Parser.collect_tokens (Some [Tok "a=1"; Tok "foo"; Nest [Tok "2"]]) "parens"
  = ret ["a=1"; "foo(2)"]
  /\ GroupSpec.unmatched_closer ["foo(2)"] = false
  /\ Parser.group_tokens ["a=1"; "foo(2)"] = ret ["a=1,foo(2)"]
  /\ ~ (forall keyword run,
          Parser.has_eq keyword = true ->
          run <> [] ->
          Forall (fun t => Parser.has_eq t = false) run ->
          Parser.group_tokens (keyword :: run)
          = ret [if GroupSpec.unmatched_closer run
                 then keyword +++ "," +++ Str.join "," run
                 else keyword +++ Str.join "" run]).
Proof.
  repeat split.
  intros H.
  specialize (H "a=1" ["foo(2)"] eq_refl ltac:(discriminate)
                ltac:(repeat constructor)).
  discriminate.
Qed.

(** ** Evaluating the keywords *)

Section Evaluation.
Import Parser EvalSpec.

Variable namespace : Type.
Variable py_eval : namespace -> string -> evaluation.

Lemma eval_loop_tolerant ns grouped kwargs :
  for_each (eval_step namespace py_eval false ns) grouped kwargs
  = (map IgnoringKeyword (failing namespace py_eval ns grouped),
     inr (update_all kwargs (assigned namespace py_eval ns grouped))).
Proof.
  revert kwargs. induction grouped as [|k grouped IH]; intros kwargs.
  - reflexivity.
  - cbn [for_each]. unfold eval_step at 1, failing, assigned, update_all.
    cbn [flat_map map fold_left]. fold (failing namespace py_eval ns grouped).
    fold (assigned namespace py_eval ns grouped).
    destruct (py_eval ns (repair_keyword k)) as [d|d]; cbn [items_of].
    + rewrite bind_ret_l, IH. reflexivity.
    + cbn [bind warn ret app]. rewrite IH. reflexivity.
Qed.

Lemma eval_loop_strict ns grouped kwargs :
  for_each (eval_step namespace py_eval true ns) grouped kwargs
  = match failing namespace py_eval ns grouped with
    | [] => ret (update_all kwargs (assigned namespace py_eval ns grouped))
    | k :: _ => raise (SyntaxError (CouldNotEvaluate k))
    end.
Proof.
  revert kwargs. induction grouped as [|k grouped IH]; intros kwargs.
  - reflexivity.
  - cbn [for_each]. unfold eval_step at 1, failing, assigned, update_all.
    cbn [flat_map map fold_left]. fold (failing namespace py_eval ns grouped).
    fold (assigned namespace py_eval ns grouped).
    destruct (py_eval ns (repair_keyword k)) as [d|d]; cbn [items_of].
    + rewrite bind_ret_l, IH. reflexivity.
    + reflexivity.
Qed.



Lemma todict_stages abort parseresult mode ns wc tokens wg grouped :
  collect_tokens parseresult mode = (wc, inr tokens) ->
  group_tokens tokens = (wg, inr grouped) ->
  todict namespace py_eval abort parseresult mode ns
  = (wc ++ wg ++ fst (for_each (eval_step namespace py_eval abort ns) grouped PyDict.empty),
     snd (for_each (eval_step namespace py_eval abort ns) grouped PyDict.empty)).
Proof.
  intros Hc Hg. unfold todict. rewrite Hc, bind_value, Hg, bind_value.
  reflexivity.
Qed.

Lemma todict_leading_run abort parseresult mode ns w t rest :
  collect_tokens parseresult mode = (w, inr (t :: rest)) ->
  has_eq t = false ->
  todict namespace py_eval abort parseresult mode ns = (w, inl IndexError).
Proof.
  intros Hc Ht. unfold todict. rewrite Hc, bind_value.
  unfold group_tokens. destruct (groupby_head has_eq t rest) as (g & r & E).
  rewrite E, Ht. cbn. now rewrite app_nil_r.
Qed.

End Evaluation.




(** ** A keyword list that starts with a bare value *)

Section LeadingRun.
Import OptsSpec.

Variable scanString : string -> list (list spec_group * nat * nat).
Variable parseString : string -> exn + list spec_group.
Variable namespace : Type.
Variable py_eval : namespace -> string -> evaluation.
Variable abort_on_eval_failure : bool.
Variable options_error : PyDict.t pyval -> option exn.

Lemma group_options_styled_error ns path s w e :
  Parser.todict namespace py_eval abort_on_eval_failure (Some s) "parens" ns
  = (w, inl e) ->
  group_options namespace py_eval abort_on_eval_failure ns
    (Some (Sample.styled path s)) = (w, inl e).
Proof.
  intros H. unfold group_options, Sample.styled, process_normalization.
  cbn [named norm_options plot_options style_options].
  rewrite !bind_ret_l, H. reflexivity.
Qed.

Lemma parse_styled_error line ns path s toks start e w err :
  scanString line = [(toks, start, e)] ->
  Str.strip (Str.take e line) = Str.strip line ->
  parseString line = inr [Sample.styled path s] ->
  Parser.todict namespace py_eval abort_on_eval_failure (Some s) "parens" ns
  = (w, inl err) ->
  parse scanString parseString namespace py_eval abort_on_eval_failure options_error line ns
  = (w, inl err).
Proof.
  intros Hscan Hstrip Hparse H.
  unfold parse. rewrite Hscan. cbn [snd].
  rewrite Hstrip, String.eqb_refl. cbn [negb]. rewrite bind_ret_l.
  rewrite Hparse. change (@nil warning, @inr exn _ ?x) with (ret x).
  rewrite bind_ret_l.
  change (_group_paths_without_options [Sample.styled path s])
    with [([path], Some (Sample.styled path s))].
  cbn [for_each]. unfold parse_step.
  rewrite (group_options_styled_error _ _ _ _ _ H). reflexivity.
Qed.

End LeadingRun.

(** C10: when the first collected token holds no '=', [todict] raises
    IndexError, whatever the evaluation and the abort flag are, and so does
    [OptsSpec.parse] on a line whose style options start with a bare value;
    when the collected tokens are empty or start with a keyword token,
    [todict] returns a dictionary or, with the abort flag set, raises the
    syntax error of a keyword that fails to evaluate. *)
Theorem todict_needs_leading_keyword :
  (forall namespace py_eval abort_on_eval_failure parseresult mode
          (ns : namespace) w t rest,
      Parser.collect_tokens parseresult mode = (w, inr (t :: rest)) ->
      Parser.has_eq t = false ->
      Parser.todict namespace py_eval abort_on_eval_failure parseresult mode ns
      = (w, inl IndexError))
  /\ (forall scanString parseString namespace py_eval abort_on_eval_failure
             options_error line (ns : namespace) path s toks start e w t rest,
        scanString line = [(toks, start, e)] ->
        Str.strip (Str.take e line) = Str.strip line ->
        parseString line = inr [Sample.styled path s] ->
        Parser.collect_tokens (Some s) "parens" = (w, inr (t :: rest)) ->
        Parser.has_eq t = false ->
        OptsSpec.parse scanString parseString namespace py_eval
          abort_on_eval_failure options_error line ns = (w, inl IndexError))
  /\ (forall namespace py_eval abort_on_eval_failure parseresult mode
             (ns : namespace) w tokens,
        Parser.collect_tokens parseresult mode = (w, inr tokens) ->
        GroupSpec.starts_with_keyword tokens ->
        (exists w' d,
            Parser.todict namespace py_eval abort_on_eval_failure parseresult mode ns
            = (w', inr d))
        \/ (abort_on_eval_failure = true /\
            exists k,
              Parser.todict namespace py_eval abort_on_eval_failure parseresult mode ns
              = (w, inl (SyntaxError (CouldNotEvaluate k))))).
Proof.
  split; [|split].
  - intros. now apply todict_leading_run with (t := t) (rest := rest).
  - intros scanString parseString namespace py_eval abort options_error line ns
      path s toks start e w t rest Hscan Hstrip Hparse Hc Ht.
    apply parse_styled_error with (path := path) (s := s) (toks := toks)
                                  (start := start) (e := e); try assumption.
    now apply todict_leading_run with (t := t) (rest := rest).
  - intros namespace py_eval abort parseresult mode ns w tokens Hc S.
    destruct (segments_exist tokens S) as (segs & W & E).
    assert (Hg : Parser.group_tokens tokens = ([], inr (map GroupSpec.attach segs))).
    { subst tokens. unfold Parser.group_tokens. now rewrite group_loop_segments. }
    rewrite (todict_stages _ _ _ _ _ _ _ _ _ _ Hc Hg).
    destruct abort.
    + rewrite eval_loop_strict.
      destruct (EvalSpec.failing namespace py_eval ns
                  (map GroupSpec.attach segs)) as [|k rest].
      * left. cbn. eauto.
      * right. split; [reflexivity|]. exists k. cbn. now rewrite app_nil_r.
    + left. rewrite eval_loop_tolerant. cbn [fst snd]. eauto.
Qed.

Lemma todict_needs_leading_keyword_witness :
  Parser.todict unit Sample.eval_literal false (Some [Tok "foo"]) "parens" tt
  = raise IndexError
  /\ OptsSpec.parse (Sample.scan_one [Sample.styled "Curve" [Tok "foo"]] 11)
       (Sample.parse_to [Sample.styled "Curve" [Tok "foo"]]) unit
       Sample.eval_literal false Sample.accept_options "Curve (foo)" tt
     = raise IndexError.
Proof.
  destruct todict_needs_leading_keyword as (H1 & H2 & _). split.
  - apply (H1 unit Sample.eval_literal false (Some [Tok "foo"]) "parens" tt
              [] "foo" [] eq_refl eq_refl).
  - apply (H2 (Sample.scan_one [Sample.styled "Curve" [Tok "foo"]] 11)
              (Sample.parse_to [Sample.styled "Curve" [Tok "foo"]]) unit
              Sample.eval_literal false Sample.accept_options "Curve (foo)" tt "Curve" [Tok "foo"]
              [Sample.styled "Curve" [Tok "foo"]] 0 11 [] "foo" []
              eq_refl eq_refl eq_refl eq_refl eq_refl).
Defined.

(** ** Collecting tokens twice *)

(** C9 at the token ",,a=1", as the style options "(,,a=1)" give it:
    [_strip_commas] takes one comma off each end, so that the collected
    token still starts with a comma, and collecting the collected tokens
    again gives another list. *)
Theorem collect_tokens_strips_one_comma :
  Parser._strip_commas ",,a=1" = ret ",a=1"
  /\ Parser.collect_tokens (Some [Tok ",,a=1"]) "parens" = ret [",a=1"]
  /\ Parser.collect_tokens (Some (map Tok [",a=1"])) "parens" = ret ["a=1"]
  /\ (tokens <- Parser.collect_tokens (Some [Tok ",,a=1"]) "parens" ;;
      Parser.collect_tokens (Some (map Tok tokens)) "parens")
     <> Parser.collect_tokens (Some [Tok ",,a=1"]) "parens".
Proof. repeat split. discriminate. Qed.

(** ** Compositor definitions *)

(** C6 at the line "data nosuch(A * B) C" with the operations max and min
    registered: the look-up of the operation comes before the test that
    would raise the syntax error, and raises KeyError. *)
Theorem compositor_unregistered_operation :
  CompositorSpec.parse
    (Sample.scan_one
       [CompositorSpec.mkGroup (Some "data") "nosuch"
          [Tok "A"; Tok "*"; Tok "B"] "C" None] 20)
    (Sample.parse_to
       [CompositorSpec.mkGroup (Some "data") "nosuch"
          [Tok "A"; Tok "*"; Tok "B"] "C" None])
    string ["max"; "min"] (fun o => o) unit Sample.eval_literal false
    Sample.accept_compositor "data nosuch(A * B) C" tt
  = raise (KeyError "nosuch")
  /\ CompositorSpec.parse
       (Sample.scan_one
          [CompositorSpec.mkGroup (Some "data") "max"
             [Tok "A"; Tok "*"; Tok "B"] "C" None] 17)
       (Sample.parse_to
          [CompositorSpec.mkGroup (Some "data") "max"
             [Tok "A"; Tok "*"; Tok "B"] "C" None])
       string ["max"; "min"] (fun o => o) unit Sample.eval_literal false
       Sample.accept_compositor "data max(A * B) C" tt
     = ret [mkCompositor "A * B" "max" "C" "data" []].
Proof. split; reflexivity. Qed.

(** * Further properties *)

(** ** Python strings *)

Module StrFacts.
Import Str.

Lemma append_nil_r (s : string) : s +++ "" = s.
Proof. induction s as [|a s IH]; simpl; [reflexivity | now rewrite IH]. Qed.

Lemma append_assoc (a b c : string) : (a +++ b) +++ c = a +++ b +++ c.
Proof. induction a as [|x a IH]; simpl; [reflexivity | now rewrite IH]. Qed.

Lemma length_append (a b : string) :
  String.length (a +++ b) = String.length a + String.length b.
Proof. induction a as [|x a IH]; simpl; [reflexivity | now rewrite IH]. Qed.

Lemma contains_char_append c (a b : string) :
  contains_char c (a +++ b) = contains_char c a || contains_char c b.
Proof.
  induction a as [|x a IH]; simpl; [reflexivity|].
  now rewrite IH, orb_assoc.
Qed.

Lemma last_char_none s : last_char s = None <-> s = "".
Proof.
  split; [|now intros ->].
  induction s as [|a s IH]; [reflexivity|]. simpl.
  destruct s; [discriminate | intros H; now specialize (IH H)].
Qed.

Lemma drop_last_empty a s : drop_last (String a s) = "" <-> s = "".
Proof.
  split; [|now intros ->]. simpl. destruct s; [reflexivity | discriminate].
Qed.

(** A non-empty string is its [s[:-1]] followed by its [s[-1]]. *)
Lemma drop_last_last s c :
  last_char s = Some c -> s = drop_last s +++ String c "".
Proof.
  induction s as [|a s IH]; [discriminate|].
  destruct s as [|b s].
  - simpl. now intros [= ->].
  - intros H. change (last_char (String a (String b s))) with (last_char (String b s)) in H.
    change (drop_last (String a (String b s))) with (String a (drop_last (String b s))).
    cbn [String.append]. f_equal. exact (IH H).
Qed.

Lemma first_char_drop_last a b s :
  first_char (drop_last (String a (String b s))) = Some a.
Proof. reflexivity. Qed.

End StrFacts.

(** ** Stripping commas *)

Section StripCommas.
Import Str StrFacts Parser.

Lemma strip_commas_raises kw :
  _strip_commas kw = raise IndexError <-> kw = "" \/ kw = ",".
Proof.
  unfold _strip_commas. destruct (last_char kw) as [c|] eqn:L.
  - destruct kw as [|a kw]; [discriminate|].
    destruct (Ascii.eqb_spec c ",") as [->|N].
    + destruct kw as [|b kw].
      * simpl in L. injection L as ->. simpl. intuition.
      * rewrite first_char_drop_last. split; [discriminate|].
        intros [H|H]; discriminate.
    + cbn [first_char]. split; [discriminate|].
      intros [H|H]; [discriminate|]. injection H as -> ->. simpl in L. congruence.
  - apply last_char_none in L. subst. intuition.
Qed.

Lemma strip_commas_only_index_error kw e :
  outcome (_strip_commas kw) = inl e -> e = IndexError.
Proof.
  unfold _strip_commas. destruct (last_char kw); [|now intros [= <-]].
  destruct (first_char _); [discriminate | now intros [= <-]].
Qed.

Lemma strip_commas_parts kw r :
  _strip_commas kw = ret r ->
  exists a b,
    kw = a +++ r +++ b
    /\ (a = "" /\ first_char r <> Some ","%char \/ a = ",")
    /\ (b = "" /\ last_char kw <> Some ","%char \/ b = ",").
Proof.
  unfold _strip_commas. destruct (last_char kw) as [c|] eqn:L; [|discriminate].
  set (kw' := if Ascii.eqb c "," then drop_last kw else kw).
  assert (exists b, kw = kw' +++ b /\
                    (b = "" /\ last_char kw <> Some ","%char \/ b = ",")) as (b & Hb & Cb).
  { subst kw'. destruct (Ascii.eqb_spec c ",") as [->|N].
    - exists ",". split; [now apply drop_last_last | now right].
    - exists "". split; [now rewrite append_nil_r|]. left. split; [reflexivity|].
      rewrite L. congruence. }
  rewrite L in Cb.
  clearbody kw'. destruct (first_char kw') as [c0|] eqn:F; [|discriminate].
  intros [= <-]. destruct kw' as [|x kw']; [discriminate|].
  injection F as ->. destruct (Ascii.eqb_spec c0 ",") as [->|N].
  - exists ",", b. split; [exact Hb|]. split; [now right | exact Cb].
  - exists "", b. split; [exact Hb|]. split; [|exact Cb].
    left. split; [reflexivity|]. simpl. congruence.
Qed.

End StripCommas.

(** X1: [_strip_commas] raises IndexError exactly on the empty token and on
    the token ",", and raises nothing else; what it returns is the token
    without at most one comma at each end: a comma is taken off the end
    exactly when the token ends with one, and off the start when what is
    left starts with one. *)
Theorem strip_commas_takes_one_comma :
  (forall kw, Parser._strip_commas kw = raise IndexError <-> kw = "" \/ kw = ",")
  /\ (forall kw e, outcome (Parser._strip_commas kw) = inl e -> e = IndexError)
  /\ (forall kw r,
        Parser._strip_commas kw = ret r ->
        exists a b,
          kw = a +++ r +++ b
          /\ (a = "" /\ Str.first_char r <> Some ","%char \/ a = ",")
          /\ (b = "" /\ Str.last_char kw <> Some ","%char \/ b = ",")).
Proof.
  split; [apply strip_commas_raises|].
  split; [apply strip_commas_only_index_error | apply strip_commas_parts].
Qed.

Lemma strip_commas_takes_one_comma_witness :
  exists a b,
    ",,x=1," = a +++ ",x=1" +++ b
    /\ (a = "" /\ Str.first_char ",x=1" <> Some ","%char \/ a = ",")
    /\ (b = "" /\ Str.last_char ",,x=1," <> Some ","%char \/ b = ",").
Proof.
  destruct strip_commas_takes_one_comma as (_ & _ & H).
  apply (H ",,x=1," ",x=1"). reflexivity.
Defined.

(** ** Rendering nested tokens *)

Section RecurseToken.
Import Parser.

Lemma recurse_token_level mode (t : tok) :
  forall toks, t = Nest toks ->
  recurse_token mode t
  = inner mode (cat (map (fun t => match t with
                                   | Nest _ => recurse_token mode t
                                   | Tok s => s
                                   end) toks)).
Proof.
  induction t as [s|l IH] using tok_nested_ind; intros toks E; [discriminate|].
  injection E as <-. cbn [recurse_token]. f_equal. f_equal.
  apply map_ext_in. intros [s|ts] I; [reflexivity|].
  rewrite Forall_forall in IH. now rewrite (IH (Nest ts) I ts eq_refl).
Qed.

End RecurseToken.

(** X2: [recurse_token] treats every level of nesting alike: a list is
    rendered as its elements concatenated between the delimiters of the
    mode, every nested list among them rendered in the same way. *)
Theorem recurse_token_is_uniform :
  forall mode toks,
    Parser.recurse_token mode (Nest toks)
    = Parser.inner mode
        (Parser.cat (map (fun t => match t with
                                   | Nest _ => Parser.recurse_token mode t
                                   | Tok s => s
                                   end) toks)).
Proof. intros mode toks. now apply recurse_token_level. Qed.

(** ** Loops *)

Lemma for_each_error_kind {A S} (body : S -> A -> M S) (P : exn -> Prop) :
  (forall s x w e, body s x = (w, inl e) -> P e) ->
  forall l s w e, for_each body l s = (w, inl e) -> P e.
Proof.
  intros H l. induction l as [|x l IH]; intros s w e; cbn [for_each].
  - discriminate.
  - destruct (body s x) as [w1 [e1|s1]] eqn:B; cbn [bind].
    + intros [= <- <-]. exact (H _ _ _ _ B).
    + destruct (for_each body l s1) as [w2 [e2|s2]] eqn:F; [|discriminate].
      intros [= <- <-]. exact (IH _ _ _ F).
Qed.

Lemma for_each_invariant {A S} (body : S -> A -> M S) (I : S -> Prop) :
  (forall s x w s', I s -> body s x = (w, inr s') -> I s') ->
  forall l s w s', I s -> for_each body l s = (w, inr s') -> I s'.
Proof.
  intros H l. induction l as [|x l IH]; intros s w s' Hs; cbn [for_each].
  - now intros [= <- <-].
  - destruct (body s x) as [w1 [e1|s1]] eqn:B; cbn [bind]; [discriminate|].
    destruct (for_each body l s1) as [w2 [e2|s2]] eqn:F; [discriminate|].
    intros [= <- <-]. exact (IH _ _ _ (H _ _ _ _ Hs B) F).
Qed.

Lemma for_each_silent {A S} (body : S -> A -> M S) :
  (forall s x, fst (body s x) = []) ->
  forall l s, fst (for_each body l s) = [].
Proof.
  intros H l. induction l as [|x l IH]; intros s; cbn [for_each].
  - reflexivity.
  - pose proof (H s x) as B. destruct (body s x) as [w1 [e1|s1]]; cbn [bind].
    + exact B.
    + pose proof (IH s1) as F. destruct (for_each body l s1) as [w2 r2].
      cbn [fst] in *. now subst.
Qed.

(** ** Collecting tokens *)

Section Collecting.
Import Str StrFacts Parser TokenSpec.

Lemma append_to_last_length l s l' w :
  append_to_last l s = (w, inr l') -> length l' = length l.
Proof.
  unfold append_to_last. destruct l as [|x l]; [discriminate|].
  intros [= <- <-].
  assert (E : x :: l = removelast (x :: l) ++ [last (x :: l) ""])
    by (apply app_removelast_last; discriminate).
  apply (f_equal (@List.length string)) in E.
  rewrite !length_app in *. cbn [List.length removelast] in *. lia.
Qed.

Lemma collect_step_silent mode tokens token :
  fst (collect_step mode tokens token) = [].
Proof.
  destruct token as [s|n]; cbn [collect_step].
  - destruct (String.eqb _ _); [reflexivity|].
    unfold _strip_commas. destruct (last_char s); [|reflexivity].
    destruct (first_char _); reflexivity.
  - unfold append_to_last. destruct tokens; reflexivity.
Qed.

Lemma collect_step_error mode tokens token w e :
  collect_step mode tokens token = (w, inl e) -> e = IndexError.
Proof.
  destruct token as [s|n]; cbn [collect_step].
  - destruct (String.eqb _ _); [discriminate|].
    destruct (_strip_commas s) as [w1 [e1|r]] eqn:E; cbn [bind ret].
    + intros [= <- <-].
      apply (strip_commas_only_index_error s). now rewrite E.
    + discriminate.
  - unfold append_to_last. destruct tokens; [now intros [= <- <-] | discriminate].
Qed.

Lemma collect_step_length mode tokens token w tokens' :
  collect_step mode tokens token = (w, inr tokens') ->
  length tokens' = length tokens + (if kept token then 1 else 0).
Proof.
  destruct token as [s|n]; cbn [collect_step kept]; unfold bare_comma.
  - destruct (String.eqb _ _); cbn [negb].
    + intros [= <- <-]. lia.
    + destruct (_strip_commas s) as [w1 [e1|r]]; cbn [bind ret]; [discriminate|].
      intros [= <- <-]. rewrite length_app. reflexivity.
  - intros H. apply append_to_last_length in H. lia.
Qed.

Lemma collect_loop_length mode l tokens w tokens' :
  for_each (collect_step mode) l tokens = (w, inr tokens') ->
  length tokens' = length tokens + length (filter kept l).
Proof.
  revert tokens w. induction l as [|t l IH]; intros tokens w; cbn [for_each].
  - intros [= <- <-]. cbn. lia.
  - destruct (collect_step mode tokens t) as [w1 [e1|s1]] eqn:B; cbn [bind];
      [discriminate|].
    destruct (for_each (collect_step mode) l s1) as [w2 [e2|s2]] eqn:F;
      [discriminate|].
    intros [= <- <-]. rewrite (IH _ _ F), (collect_step_length _ _ _ _ _ B).
    cbn [filter]. destruct (kept t); cbn [length]; lia.
Qed.

Lemma strip_commas_clean s : clean s = true -> _strip_commas s = ret s.
Proof.
  unfold clean, not_comma, _strip_commas. intros H.
  apply andb_true_iff in H. destruct H as [H L].
  apply andb_true_iff in H. destruct H as [_ F].
  destruct (last_char s) as [c|]; [|discriminate].
  apply negb_true_iff in L. rewrite L.
  destruct (first_char s) as [c0|]; [|discriminate].
  apply negb_true_iff in F. now rewrite F.
Qed.

Lemma collect_loop_clean mode l tokens :
  Forall (fun s => clean s = true) l ->
  for_each (collect_step mode) (map Tok l) tokens = ret (tokens ++ l).
Proof.
  intros H. revert tokens. induction H as [|s l Hs _ IH]; intros tokens.
  - cbn. now rewrite app_nil_r.
  - cbn [map for_each collect_step].
    assert (B : String.eqb (strip s) "," = false).
    { unfold clean, bare_comma in Hs. apply andb_true_iff in Hs.
      destruct Hs as [Hs _]. apply andb_true_iff in Hs. destruct Hs as [Hs _].
      now apply negb_true_iff in Hs. }
    rewrite B, (strip_commas_clean s Hs), !bind_ret_l, IH, <- app_assoc.
    reflexivity.
Qed.

Lemma collect_loop_leading_nest mode pre n rest :
  Forall (fun s => bare_comma s = true) pre ->
  for_each (collect_step mode) (map Tok pre ++ Nest n :: rest) [] = raise IndexError.
Proof.
  intros H. induction H as [|s pre Hs _ IH].
  - reflexivity.
  - cbn [map app for_each collect_step]. unfold bare_comma in Hs.
    now rewrite Hs, bind_ret_l.
Qed.

Lemma collect_loop_nest_after mode l n ts t :
  for_each (collect_step mode) l [] = ret (ts ++ [t]) ->
  for_each (collect_step mode) (l ++ [Nest n]) []
  = ret (ts ++ [t +++ recurse_token mode (Nest n)]).
Proof.
  intros H. rewrite for_each_app, H, bind_ret_l.
  cbn [for_each collect_step]. now rewrite append_to_last_snoc, !bind_ret_l.
Qed.

End Collecting.

(** X3: when [collect_tokens] returns, it has emitted no warning and
    returns one token for every scalar token of the parse result that is not
    a bare comma: nested lists add no token; and when it raises, it raises
    IndexError. *)
Theorem collect_tokens_counts_scalars :
  forall parseresult mode,
    warnings (Parser.collect_tokens (Some parseresult) mode) = []
    /\ (forall tokens,
          outcome (Parser.collect_tokens (Some parseresult) mode) = inr tokens ->
          length tokens = length (filter TokenSpec.kept parseresult))
    /\ (forall e,
          outcome (Parser.collect_tokens (Some parseresult) mode) = inl e ->
          e = IndexError).
Proof.
  intros l mode. cbn [Parser.collect_tokens]. split; [|split].
  - apply for_each_silent. intros. apply collect_step_silent.
  - intros tokens H.
    destruct (for_each (Parser.collect_step mode) l []) as [w r] eqn:E.
    cbn in H. subst r. now rewrite (collect_loop_length _ _ _ _ _ E).
  - intros e H.
    destruct (for_each (Parser.collect_step mode) l []) as [w r] eqn:E.
    cbn in H. subst r.
    apply (for_each_error_kind (Parser.collect_step mode) (fun e => e = IndexError))
      with (l := l) (s := []) (w := w); [|exact E].
    intros s x w0 e0. apply collect_step_error.
Qed.

Lemma collect_tokens_counts_scalars_witness :
  length ["a=(1,2)"; "b=3"]
  = length (filter TokenSpec.kept
              [Tok "a="; Nest [Tok "1,"; Tok "2"]; Tok ","; Tok "b=3,"]).
Proof.
  destruct (collect_tokens_counts_scalars
              [Tok "a="; Nest [Tok "1,"; Tok "2"]; Tok ","; Tok "b=3,"] "parens")
    as (_ & H & _).
  apply H. reflexivity.
Defined.

(** X4: on a flat parse result whose tokens are not bare commas and neither
    start nor end with a comma, [collect_tokens] returns the tokens
    unchanged and in order; so collecting such a result again changes
    nothing. *)
Theorem collect_tokens_keeps_clean_tokens :
  forall mode l,
    Forall (fun s => TokenSpec.clean s = true) l ->
    Parser.collect_tokens (Some (map Tok l)) mode = ret l.
Proof.
  intros mode l H. cbn [Parser.collect_tokens].
  now rewrite collect_loop_clean.
Qed.

Lemma collect_tokens_keeps_clean_tokens_witness :
  Parser.collect_tokens (Some (map Tok ["a=1"; "b='x,y'"; "c"])) "brackets"
  = ret ["a=1"; "b='x,y'"; "c"].
Proof.
  apply collect_tokens_keeps_clean_tokens. repeat constructor.
Defined.

(** X5: a nested list has to follow a scalar token: when nothing but bare
    commas comes before the first nested list, [collect_tokens] raises
    IndexError; and a nested list that follows a collected token is rendered
    by [recurse_token] and appended to that token. *)
Theorem collect_tokens_nested_lists :
  (forall mode pre n rest,
      Forall (fun s => TokenSpec.bare_comma s = true) pre ->
      Parser.collect_tokens (Some (map Tok pre ++ Nest n :: rest)) mode
      = raise IndexError)
  /\ (forall mode l n ts t,
        Parser.collect_tokens (Some l) mode = ret (ts ++ [t]) ->
        Parser.collect_tokens (Some (l ++ [Nest n])) mode
        = ret (ts ++ [t +++ Parser.recurse_token mode (Nest n)])).
Proof.
  split.
  - intros. cbn [Parser.collect_tokens]. now apply collect_loop_leading_nest.
  - intros mode l n ts t H. cbn [Parser.collect_tokens] in *.
    now apply collect_loop_nest_after.
Qed.

Lemma collect_tokens_nested_lists_witness :
  Parser.collect_tokens (Some (map Tok [","] ++ Nest [Tok "1"] :: [Tok "a=2"])) "parens"
  = raise IndexError
  /\ Parser.collect_tokens (Some ([Tok "a="] ++ [Nest [Tok "1,"; Tok "2"]])) "parens"
     = ret ([] ++ ["a=" +++ Parser.recurse_token "parens" (Nest [Tok "1,"; Tok "2"])]).
Proof.
  destruct collect_tokens_nested_lists as [H1 H2]. split.
  - apply H1. repeat constructor.
  - apply H2. reflexivity.
Defined.

(** ** Repairing keywords *)

Section Repair.
Import Str StrFacts Parser KeywordSpec.

Lemma prefix_split old s :
  String.prefix old s = true -> s = old +++ drop (String.length old) s.
Proof.
  revert old. induction s as [|b s IH]; intros [|a old]; cbn; try discriminate;
    try reflexivity.
  destruct (ascii_dec a b) as [->|]; [|discriminate].
  intros H. now rewrite <- (IH old H).
Qed.

Lemma prefix_length old s :
  String.prefix old s = true -> String.length old <= String.length s.
Proof.
  intros H. apply prefix_split in H. rewrite H, length_append. lia.
Qed.

Lemma remove_commas_append a b :
  remove_commas (a +++ b) = remove_commas a +++ remove_commas b.
Proof.
  induction a as [|x a IH]; cbn; [reflexivity|].
  destruct (Ascii.eqb x ","); cbn; now rewrite IH.
Qed.

Lemma remove_commas_none s : contains_char "," s = false -> remove_commas s = s.
Proof.
  induction s as [|a s IH]; cbn; [reflexivity|].
  intros H. apply orb_false_iff in H. destruct H as [H1 H2].
  now rewrite H1, IH.
Qed.

Lemma remove_commas_length s : String.length (remove_commas s) <= String.length s.
Proof.
  induction s as [|a s IH]; cbn; [lia|].
  destruct (Ascii.eqb a ","); cbn; lia.
Qed.

Lemma drop_length n s : String.length (drop n s) = String.length s - n.
Proof.
  revert n. induction s as [|a s IH]; intros [|n]; cbn; try reflexivity.
  apply IH.
Qed.

Lemma replace_from_length old new :
  String.length new <= String.length old -> old <> "" ->
  forall s skip,
    skip <= String.length s ->
    String.length (replace_from skip old new s) + skip <= String.length s.
Proof.
  intros Hn Ho s. induction s as [|a s IH]; intros skip Hs.
  - cbn in *. lia.
  - destruct skip as [|k]; cbn [replace_from].
    + destruct (String.prefix old (String a s)) eqn:P.
      * apply prefix_length in P. cbn [String.length] in P |- *.
        assert (Lo : 0 < String.length old) by (destruct old; [congruence | cbn; lia]).
        rewrite length_append.
        specialize (IH (String.length old - 1) ltac:(lia)). lia.
      * cbn [String.length]. specialize (IH 0 ltac:(lia)). lia.
    + cbn [String.length] in *. specialize (IH k ltac:(lia)). lia.
Qed.

Lemma replace_from_commas old new :
  remove_commas old = remove_commas new -> old <> "" ->
  forall s skip,
    skip <= String.length s ->
    remove_commas (replace_from skip old new s) = remove_commas (drop skip s).
Proof.
  intros Hc Ho s. induction s as [|a s IH]; intros skip Hs.
  - now destruct skip.
  - destruct skip as [|k]; cbn [replace_from drop].
    + destruct (String.prefix old (String a s)) eqn:P.
      * pose proof (prefix_length _ _ P) as L. cbn [String.length] in L.
        assert (Lo : 0 < String.length old) by (destruct old; [congruence | cbn; lia]).
        rewrite remove_commas_append, (IH (String.length old - 1)) by lia.
        rewrite (prefix_split _ _ P).
        rewrite remove_commas_append, Hc. f_equal. f_equal.
        destruct (String.length old) as [|n]; [lia|].
        cbn [drop]. f_equal. lia.
      * cbn [remove_commas]. now rewrite (IH 0) by lia.
    + cbn [String.length] in Hs. apply IH. lia.
Qed.

Lemma prefix_contains old s c :
  String.prefix old s = true ->
  contains_char c old = true -> contains_char c s = true.
Proof.
  intros P H. rewrite (prefix_split _ _ P), contains_char_append, H. reflexivity.
Qed.

Lemma replace_absent old new c s :
  contains_char c old = true -> contains_char c s = false ->
  replace old new s = s.
Proof.
  intros Ho. unfold replace. induction s as [|a s IH]; cbn [replace_from];
    [reflexivity|].
  intros H. destruct (String.prefix old (String a s)) eqn:P.
  - rewrite (prefix_contains _ _ c P Ho) in H. discriminate.
  - cbn in H. apply orb_false_iff in H. destruct H as [_ H]. now rewrite IH.
Qed.

Lemma repair_steps (P : string -> string -> Prop) :
  (forall k, P k k) ->
  (forall a b c, P a b -> P b c -> P a c) ->
  (forall old new k, In (old, new) substitutions -> P k (replace old new k)) ->
  forall k, P k (repair_keyword k).
Proof.
  intros Hrefl Htrans Hstep k. unfold repair_keyword.
  assert (G : forall subs k0,
             (forall p, In p subs -> In p substitutions) ->
             P k0 (fold_left (fun kw p => replace (fst p) (snd p) kw) subs k0)).
  { induction subs as [|[old new] subs IH]; intros k0 Hs; cbn [fold_left].
    - apply Hrefl.
    - apply Htrans with (replace old new k0).
      + apply Hstep, Hs. now left.
      + apply IH. intros p I. apply Hs. now right. }
  apply G. auto.
Qed.

Lemma substitution_shape old new :
  In (old, new) substitutions ->
  String.length new <= String.length old /\ old <> ""
  /\ remove_commas old = remove_commas new /\ contains_char "," old = true.
Proof.
  unfold substitutions. cbn [In].
  intros H. repeat destruct H as [H|H]; try contradiction;
    injection H as <- <-; cbn; repeat split; try lia; discriminate.
Qed.

End Repair.

Lemma repair_keyword_commas keyword :
  KeywordSpec.remove_commas (Parser.repair_keyword keyword)
  = KeywordSpec.remove_commas keyword.
Proof.
  apply (repair_steps (fun a b => KeywordSpec.remove_commas b
                                  = KeywordSpec.remove_commas a)).
  - reflexivity.
  - intros a b c H1 H2. now rewrite H2.
  - intros old new k I. destruct (substitution_shape _ _ I) as (_ & Ho & Hc & _).
    unfold Str.replace. now rewrite replace_from_commas by (auto; lia).
Qed.

(** X6: the substitutions that [todict] applies to a keyword only delete
    commas: the keyword without its commas is unchanged, the keyword never
    gets longer, and a keyword without a comma is left as it is. *)
Theorem repair_keyword_deletes_commas :
  forall keyword,
    KeywordSpec.remove_commas (Parser.repair_keyword keyword)
    = KeywordSpec.remove_commas keyword
    /\ String.length (Parser.repair_keyword keyword) <= String.length keyword
    /\ (Str.contains_char "," keyword = false ->
        Parser.repair_keyword keyword = keyword).
Proof.
  intros keyword. split; [|split].
  - apply repair_keyword_commas.
  - apply (repair_steps (fun a b => String.length b <= String.length a)).
    + reflexivity.
    + intros a b c H1 H2. lia.
    + intros old new k I. destruct (substitution_shape _ _ I) as (Hn & Ho & _ & _).
      pose proof (replace_from_length old new Hn Ho k 0 ltac:(lia)) as L.
      unfold Str.replace. lia.
  - intros H.
    apply (repair_steps (fun a b => Str.contains_char "," a = false -> b = a));
      [reflexivity | | | exact H].
    + intros a b c H1 H2 Ha. specialize (H1 Ha). subst b. auto.
    + intros old new k I Hk. destruct (substitution_shape _ _ I) as (_ & _ & _ & Hc).
      now apply replace_absent with (c := ","%char).
Qed.

Lemma repair_keyword_deletes_commas_witness :
  Parser.repair_keyword "color='r'" = "color='r'".
Proof.
  destruct (repair_keyword_deletes_commas "color='r'") as (_ & _ & H).
  apply H. reflexivity.
Defined.

(** ** The keywords of a token list *)

Section Keywords.
Import Str StrFacts Parser GroupSpec KeywordSpec.

Lemma filter_none {A} (f : A -> bool) l :
  Forall (fun x => f x = false) l -> filter f l = [].
Proof.
  induction 1 as [|x l Hx _ IH]; cbn; [reflexivity | now rewrite Hx].
Qed.

Lemma count_flatten segs :
  well_formed segs -> length (filter has_eq (flatten segs)) = length segs.
Proof.
  induction 1 as [|[k run] segs [Hk Hr] _ IH]; [reflexivity|].
  change (flatten ((k, run) :: segs)) with (k :: run ++ flatten segs).
  cbn [filter fst snd] in *. rewrite Hk, filter_app, (filter_none _ _ Hr).
  cbn [app length]. now rewrite IH.
Qed.

Lemma has_eq_attach seg : has_eq (fst seg) = true -> has_eq (attach seg) = true.
Proof.
  destruct seg as [k run]. cbn [fst attach]. intros H.
  destruct run as [|x run]; [exact H|].
  destruct (existsb has_closer (x :: run)); unfold has_eq in *;
    rewrite contains_char_append, H; reflexivity.
Qed.

Lemma remove_commas_join_comma l :
  remove_commas (join "," l) = remove_commas (join "" l).
Proof.
  unfold join. induction l as [|x [|y l] IH]; try reflexivity.
  change (String.concat "," (x :: y :: l))
    with (x +++ "," +++ String.concat "," (y :: l)).
  change (String.concat "" (x :: y :: l))
    with (x +++ "" +++ String.concat "" (y :: l)).
  rewrite !remove_commas_append, IH. reflexivity.
Qed.

Lemma cat_cons x l : cat (x :: l) = x +++ cat l.
Proof.
  unfold cat, join. destruct l as [|y l]; cbn [String.concat].
  - now rewrite append_nil_r.
  - reflexivity.
Qed.

Lemma cat_app l1 l2 : cat (l1 ++ l2) = cat l1 +++ cat l2.
Proof.
  induction l1 as [|x l1 IH]; [reflexivity|].
  cbn [app]. now rewrite !cat_cons, IH, append_assoc.
Qed.

Lemma remove_commas_attach seg :
  remove_commas (attach seg) = remove_commas (cat (fst seg :: snd seg)).
Proof.
  destruct seg as [k run]. cbn [fst snd attach]. rewrite cat_cons.
  destruct run as [|x run]; [now rewrite append_nil_r|].
  destruct (existsb has_closer (x :: run)).
  - rewrite !remove_commas_append, remove_commas_join_comma. reflexivity.
  - reflexivity.
Qed.

Lemma remove_commas_attached segs :
  remove_commas (cat (map attach segs)) = remove_commas (cat (flatten segs)).
Proof.
  induction segs as [|seg segs IH]; [reflexivity|].
  change (flatten (seg :: segs)) with ((fst seg :: snd seg) ++ flatten segs).
  cbn [map]. rewrite cat_cons, cat_app, !remove_commas_append, IH,
    remove_commas_attach. reflexivity.
Qed.

Lemma remove_commas_repaired l :
  remove_commas (cat (map repair_keyword l)) = remove_commas (cat l).
Proof.
  induction l as [|x l IH]; [reflexivity|].
  cbn [map]. now rewrite !cat_cons, !remove_commas_append, IH, repair_keyword_commas.
Qed.

Lemma group_tokens_leading t rest :
  has_eq t = false -> group_tokens (t :: rest) = raise IndexError.
Proof.
  intros Ht. unfold group_tokens.
  destruct (groupby_head has_eq t rest) as (g & r & E). now rewrite E, Ht.
Qed.

Lemma group_tokens_segments tokens :
  starts_with_keyword tokens ->
  exists segs, well_formed segs /\ tokens = flatten segs /\
               group_tokens tokens = ret (map attach segs).
Proof.
  intros S. destruct (segments_exist tokens S) as (segs & W & E).
  exists segs. split; [assumption|]. split; [assumption|]. subst tokens.
  unfold group_tokens. now rewrite group_loop_segments.
Qed.

Lemma group_tokens_result tokens grouped :
  group_tokens tokens = ret grouped ->
  exists segs, well_formed segs /\ tokens = flatten segs /\ grouped = map attach segs.
Proof.
  intros H.
  assert (S : starts_with_keyword tokens).
  { destruct tokens as [|t rest]; [exact I|]. cbn.
    destruct (has_eq t) eqn:Ht; [reflexivity|].
    rewrite (group_tokens_leading t rest Ht) in H. discriminate. }
  destruct (group_tokens_segments tokens S) as (segs & W & E & G).
  exists segs. rewrite G in H. injection H as <-. auto.
Qed.

End Keywords.

(** X7: the first loop of [todict] fails, with IndexError, exactly when the
    first token holds no '='; when it succeeds it gives one keyword for
    every token that holds '=', and every keyword holds '='. *)
Theorem group_tokens_one_keyword_per_assignment :
  forall tokens,
    (GroupSpec.starts_with_keyword tokens ->
     exists grouped,
       Parser.group_tokens tokens = ret grouped /\
       length grouped = length (filter Parser.has_eq tokens) /\
       Forall (fun k => Parser.has_eq k = true) grouped)
    /\ (~ GroupSpec.starts_with_keyword tokens ->
        Parser.group_tokens tokens = raise IndexError).
Proof.
  intros tokens. split.
  - intros S. destruct (group_tokens_segments tokens S) as (segs & W & E & G).
    exists (map GroupSpec.attach segs). split; [exact G|]. split.
    + subst tokens. now rewrite length_map, count_flatten.
    + apply Forall_map. unfold GroupSpec.well_formed in W.
      eapply Forall_impl; [|exact W]. intros seg [Hk _]. now apply has_eq_attach.
  - intros N. destruct tokens as [|t rest]; [now elim N|].
    cbn in N. apply group_tokens_leading. now destruct (Parser.has_eq t).
Qed.

Lemma group_tokens_one_keyword_per_assignment_witness :
  exists grouped,
    Parser.group_tokens ["a=(1"; "2)"; "b=3"] = ret grouped /\
    length grouped = length (filter Parser.has_eq ["a=(1"; "2)"; "b=3"]) /\
    Forall (fun k => Parser.has_eq k = true) grouped.
Proof.
  destruct (group_tokens_one_keyword_per_assignment ["a=(1"; "2)"; "b=3"]) as [H _].
  apply H. reflexivity.
Defined.

(** X8: grouping and repairing change nothing but commas: the keywords that
    [todict] evaluates hold, in order, the characters of the collected
    tokens, commas aside. *)
Theorem keywords_keep_the_characters :
  forall tokens grouped,
    Parser.group_tokens tokens = ret grouped ->
    KeywordSpec.remove_commas (Parser.cat (map Parser.repair_keyword grouped))
    = KeywordSpec.remove_commas (Parser.cat tokens).
Proof.
  intros tokens grouped H.
  destruct (group_tokens_result tokens grouped H) as (segs & _ & -> & ->).
  now rewrite remove_commas_repaired, remove_commas_attached.
Qed.

Lemma keywords_keep_the_characters_witness :
  KeywordSpec.remove_commas
    (Parser.cat (map Parser.repair_keyword ["a=(,1,2)"; "b={1:,2}"]))
  = KeywordSpec.remove_commas (Parser.cat ["a=(,1"; "2)"; "b={1:"; "2}"]).
Proof.
  apply (keywords_keep_the_characters ["a=(,1"; "2)"; "b={1:"; "2}"]).
  reflexivity.
Defined.

(** ** What [todict] raises and returns *)

Lemma for_each_invariant_in {A S} (body : S -> A -> M S) (I : S -> Prop) l :
  (forall s x w s', In x l -> I s -> body s x = (w, inr s') -> I s') ->
  forall s w s', I s -> for_each body l s = (w, inr s') -> I s'.
Proof.
  induction l as [|x l IH]; intros H s w s' Hs; cbn [for_each].
  - now intros [= <- <-].
  - destruct (body s x) as [w1 [e1|s1]] eqn:B; cbn [bind]; [discriminate|].
    destruct (for_each body l s1) as [w2 [e2|s2]] eqn:F; [discriminate|].
    intros [= <- <-].
    apply (IH (fun s x w s' Hx => H s x w s' (or_intror Hx)) s1 w2 s2);
      [|exact F].
    apply (H s x w1 s1); [now left | exact Hs | exact B].
Qed.

Lemma for_each_snoc {A S} (body : S -> A -> M S) l x s w s' :
  for_each body (l ++ [x]) s = (w, inr s') ->
  exists w1 s1 w2,
    for_each body l s = (w1, inr s1) /\ body s1 x = (w2, inr s') /\ w = w1 ++ w2.
Proof.
  rewrite for_each_app. destruct (for_each body l s) as [w1 [e1|s1]]; cbn [bind];
    [discriminate|].
  cbn [for_each]. destruct (body s1 x) as [w2 [e2|s2]] eqn:B; cbn [bind ret];
    [discriminate|].
  intros [= <- <-]. exists w1, s1, w2. rewrite app_nil_r. auto.
Qed.

Section TodictResult.
Import Parser.

Variable namespace : Type.
Variable py_eval : namespace -> string -> evaluation.
Variable abort_on_eval_failure : bool.

Lemma group_step_error grouped group w e :
  group_step grouped group = (w, inl e) -> e = IndexError.
Proof.
  destruct group as [[|] items]; cbn [group_step]; [discriminate|].
  unfold append_to_last. destruct grouped; [now intros [= <- <-] | discriminate].
Qed.

Lemma eval_step_error ns kwargs keyword w e :
  eval_step namespace py_eval abort_on_eval_failure ns kwargs keyword = (w, inl e) ->
  abort_on_eval_failure = true
  /\ e = SyntaxError (CouldNotEvaluate (repair_keyword keyword)).
Proof.
  unfold eval_step. destruct (py_eval ns (repair_keyword keyword)); [discriminate|].
  destruct abort_on_eval_failure; [now intros [= <- <-] | discriminate].
Qed.

Lemma todict_error_kind parseresult mode ns e :
  outcome (todict namespace py_eval abort_on_eval_failure parseresult mode ns) = inl e ->
  e = IndexError
  \/ (abort_on_eval_failure = true /\ exists k, e = SyntaxError (CouldNotEvaluate k)).
Proof.
  unfold todict.
  destruct (collect_tokens parseresult mode) as [wc [ec|tokens]] eqn:C; cbn [bind outcome snd].
  - intros [= <-]. left. destruct parseresult as [l|]; [|discriminate].
    cbn [collect_tokens] in C.
    apply (for_each_error_kind (collect_step mode) (fun e => e = IndexError))
      with (l := l) (s := []) (w := wc); [|exact C].
    intros s x w0 e0. apply collect_step_error.
  - destruct (group_tokens tokens) as [wg [eg|grouped]] eqn:G; cbn [bind].
    + cbn. intros [= <-]. left. unfold group_tokens in G.
      apply (for_each_error_kind group_step (fun e => e = IndexError))
        with (l := groupby has_eq tokens) (s := []) (w := wg); [|exact G].
      intros s x w0 e0. apply group_step_error.
    + destruct (for_each (eval_step namespace py_eval abort_on_eval_failure ns)
                  grouped PyDict.empty) as [we [ee|d]] eqn:E; cbn; [|discriminate].
      intros [= <-]. right.
      apply (for_each_error_kind
               (eval_step namespace py_eval abort_on_eval_failure ns)
               (fun e => abort_on_eval_failure = true /\
                         exists k, e = SyntaxError (CouldNotEvaluate k)))
        with (l := grouped) (s := PyDict.empty) (w := we); [|exact E].
      intros s x w0 e0 H. apply eval_step_error in H. destruct H as [H ->]. eauto.
Qed.

Lemma todict_returns parseresult mode ns w d :
  todict namespace py_eval abort_on_eval_failure parseresult mode ns = (w, inr d) ->
  exists wc tokens wg grouped we,
    collect_tokens parseresult mode = (wc, inr tokens)
    /\ group_tokens tokens = (wg, inr grouped)
    /\ for_each (eval_step namespace py_eval abort_on_eval_failure ns)
         grouped PyDict.empty = (we, inr d).
Proof.
  unfold todict.
  destruct (collect_tokens parseresult mode) as [wc [ec|tokens]] eqn:C; cbn [bind];
    [discriminate|].
  destruct (group_tokens tokens) as [wg [eg|grouped]] eqn:G; cbn [bind];
    [discriminate|].
  destruct (for_each _ grouped PyDict.empty) as [we [ee|d']] eqn:E; [discriminate|].
  intros [= _ <-]. now exists wc, tokens, wg, grouped, we.
Qed.

Lemma in_set {V} (d : PyDict.t V) k v x y :
  In (x, y) (PyDict.set d k v) -> In (x, y) d \/ (x = k /\ y = v).
Proof.
  induction d as [|[k' v'] d IH]; cbn [PyDict.set].
  - intros [[= <- <-]|[]]. now right.
  - destruct (String.eqb_spec k k') as [->|N].
    + intros [[= <- <-]|H]; [now right | left; now right].
    + intros [H|H]; [left; now left|].
      destruct (IH H) as [H'|H']; [left; now right | now right].
Qed.

Lemma in_update {V} (d e : PyDict.t V) x y :
  In (x, y) (PyDict.update d e) -> In (x, y) d \/ In (x, y) e.
Proof.
  unfold PyDict.update. revert d. induction e as [|[k v] e IH]; intros d; cbn [fold_left].
  - now left.
  - intros H. destruct (IH _ H) as [H'|H']; [|right; now right].
    cbn [fst snd] in H'. destruct (in_set _ _ _ _ _ H') as [H''|[-> ->]];
      [now left | right; now left].
Qed.

Lemma eval_loop_origin ns grouped w d :
  for_each (eval_step namespace py_eval abort_on_eval_failure ns)
    grouped PyDict.empty = (w, inr d) ->
  PyDict.wf d
  /\ forall x v, In (x, v) d ->
       exists keyword,
         In keyword grouped
         /\ In (x, v) (items_of (py_eval ns (repair_keyword keyword))).
Proof.
  apply (for_each_invariant_in
           (eval_step namespace py_eval abort_on_eval_failure ns)
           (fun d => PyDict.wf d /\
                     forall x v, In (x, v) d ->
                       exists keyword,
                         In keyword grouped
                         /\ In (x, v) (items_of (py_eval ns (repair_keyword keyword))))).
  - intros s k w0 s' Hk [Hwf Ho]. unfold eval_step.
    destruct (py_eval ns (repair_keyword k)) as [dk|dk] eqn:E.
    + intros [= _ <-]. split; [now apply PyDictFacts.wf_update|].
      intros x v H. destruct (in_update _ _ _ _ H) as [H'|H']; [auto|].
      exists k. now rewrite E.
    + destruct abort_on_eval_failure; [discriminate|]. cbn [bind warn ret].
      intros [= _ <-]. split; [now apply PyDictFacts.wf_update|].
      intros x v H. destruct (in_update _ _ _ _ H) as [H'|H']; [auto|].
      exists k. now rewrite E.
  - split; [apply PyDictFacts.wf_empty | intros x v []].
Qed.

End TodictResult.

(** X9: [todict] raises nothing but IndexError and, when
    [abort_on_eval_failure] is set, the syntax error of a keyword that fails
    to evaluate; with the flag unset it raises nothing but IndexError. *)
Theorem todict_raises_only :
  forall namespace py_eval abort_on_eval_failure parseresult mode (ns : namespace) e,
    outcome (Parser.todict namespace py_eval abort_on_eval_failure
               parseresult mode ns) = inl e ->
    e = IndexError
    \/ (abort_on_eval_failure = true /\ exists k, e = SyntaxError (CouldNotEvaluate k)).
Proof. intros. now apply todict_error_kind with (1 := H). Qed.

Lemma todict_raises_only_witness :
  IndexError = IndexError
  \/ (false = true /\ exists k, IndexError = SyntaxError (CouldNotEvaluate k)).
Proof.
  apply (todict_raises_only unit Sample.eval_literal false
           (Some [Nest [Tok "1"]]) "parens" tt IndexError).
  reflexivity.
Defined.

(** X10: the dictionary that [todict] returns has no key twice, and each of
    its entries is an item that the update with one of the grouped keywords,
    repaired, has set, whether the statement completed or raised after it:
    nothing else is added. *)
Theorem todict_entries_come_from_keywords :
  forall namespace py_eval abort_on_eval_failure parseresult mode (ns : namespace) w d,
    Parser.todict namespace py_eval abort_on_eval_failure parseresult mode ns
    = (w, inr d) ->
    PyDict.wf d
    /\ exists wc tokens wg grouped,
         Parser.collect_tokens parseresult mode = (wc, inr tokens)
         /\ Parser.group_tokens tokens = (wg, inr grouped)
         /\ forall x v, In (x, v) d ->
              exists keyword,
                In keyword grouped
                /\ In (x, v) (items_of (py_eval ns (Parser.repair_keyword keyword))).
Proof.
  intros namespace py_eval abort parseresult mode ns w d H.
  destruct (todict_returns _ _ _ _ _ _ _ _ H) as (wc & tokens & wg & grouped & we & C & G & E).
  destruct (eval_loop_origin _ _ _ _ _ _ _ E) as [Hwf Ho].
  split; [exact Hwf|]. now exists wc, tokens, wg, grouped.
Qed.

Lemma todict_entries_come_from_keywords_witness :
  PyDict.wf [("a", PyInt 2); ("b", PyNone)].
Proof.
  apply (todict_entries_come_from_keywords unit Sample.eval_literal false
           (Some [Tok "a=1"; Tok ","; Tok "a=2"; Tok "b=None"]) "parens" tt
           [] [("a", PyInt 2); ("b", PyNone)]).
  reflexivity.
Defined.

Section LastKeyword.
Import Parser GroupSpec.

Lemma last_segment segs tokens k :
  well_formed segs -> flatten segs = tokens ++ [k] -> has_eq k = true ->
  exists segs', segs = segs' ++ [(k, [])].
Proof.
  intros W E Hk. destruct segs as [|seg segs _] using rev_ind.
  - destruct tokens; discriminate.
  - destruct seg as [k' run]. unfold flatten in E. rewrite flat_map_app in E.
    cbn [flat_map fst snd] in E. rewrite app_nil_r in E.
    apply Forall_app in W. destruct W as [_ W].
    inversion W as [|? ? [_ Hr] _]; subst. cbn [snd] in Hr.
    destruct run as [|r run _] using rev_ind.
    + apply app_inj_tail in E. destruct E as [_ ->]. now exists segs.
    + change (k' :: run ++ [r]) with ((k' :: run) ++ [r]) in E.
      rewrite app_assoc in E. apply app_inj_tail in E. destruct E as [_ ->].
      apply Forall_app in Hr. destruct Hr as [_ Hr].
      inversion Hr; subst. congruence.
Qed.

Variable namespace : Type.
Variable py_eval : namespace -> string -> evaluation.
Variable abort_on_eval_failure : bool.

Lemma group_tokens_silent tokens : fst (group_tokens tokens) = [].
Proof.
  apply for_each_silent. intros s [[|] items]; cbn [group_step]; [reflexivity|].
  unfold append_to_last. now destruct s.
Qed.

Lemma group_tokens_returns tokens w grouped :
  group_tokens tokens = (w, inr grouped) ->
  exists segs, well_formed segs /\ tokens = flatten segs /\ grouped = map attach segs.
Proof.
  intros H. apply group_tokens_result.
  pose proof (group_tokens_silent tokens) as S. rewrite H in S. cbn in S.
  now subst w.
Qed.

Lemma todict_last_keyword parseresult mode ns tokens k dk w d :
  collect_tokens parseresult mode = ret (tokens ++ [k]) ->
  has_eq k = true ->
  py_eval ns (repair_keyword k) = Updated dk ->
  PyDict.wf dk ->
  todict namespace py_eval abort_on_eval_failure parseresult mode ns = (w, inr d) ->
  forall x v, PyDict.get dk x = Some v -> PyDict.get d x = Some v.
Proof.
  intros C Hk E Hwf H x v Hv.
  destruct (todict_returns _ _ _ _ _ _ _ _ H)
    as (wc & tokens' & wg & grouped & we & C' & G & L).
  rewrite C in C'. injection C' as <- <-.
  destruct (group_tokens_returns _ _ _ G) as (segs & W & F & ->).
  destruct (last_segment segs tokens k W (eq_sym F) Hk) as (segs' & ->).
  rewrite map_app in L. cbn [map attach] in L.
  apply for_each_snoc in L. destruct L as (w1 & s1 & w2 & _ & B & _).
  unfold eval_step in B. rewrite E in B. injection B as _ <-.
  now rewrite PyDictFacts.get_update, Hv.
Qed.

End LastKeyword.

(** X11: when the last collected token is a keyword token that evaluates,
    the dictionary that [todict] returns has every key of that keyword with
    the value of that keyword, whatever the keywords before it gave. *)
Theorem todict_last_keyword_wins :
  forall namespace py_eval abort_on_eval_failure parseresult mode (ns : namespace)
         tokens k dk w d,
    Parser.collect_tokens parseresult mode = ret (tokens ++ [k]) ->
    Parser.has_eq k = true ->
    py_eval ns (Parser.repair_keyword k) = Updated dk ->
    PyDict.wf dk ->
    Parser.todict namespace py_eval abort_on_eval_failure parseresult mode ns
    = (w, inr d) ->
    forall x v, PyDict.get dk x = Some v -> PyDict.get d x = Some v.
Proof. intros. eapply todict_last_keyword; eassumption. Qed.

Lemma todict_last_keyword_wins_witness :
  PyDict.get [("x", PyInt 2)] "x" = Some (PyInt 2).
Proof.
  apply (todict_last_keyword_wins unit Sample.eval_literal false
           (Some [Tok "x=1"; Tok "x=2"]) "parens" tt ["x=1"] "x=2"
           [("x", PyInt 2)] [] [("x", PyInt 2)]
           eq_refl eq_refl eq_refl
           ltac:(repeat constructor; simpl; intuition discriminate)
           eq_refl "x" (PyInt 2) eq_refl).
Defined.

(** ** More on normalization *)

Section NormalizationMore.
Import OptsSpec.

Lemma normalization_by_membership parse_group opts d :
  named norm_options parse_group = Some opts ->
  process_normalization parse_group = ret (Some d) ->
  d = norm_dict (tok_in "+axiswise" opts) (tok_in "+framewise" opts).
Proof.
  intros N H. destruct opts as [|t l].
  - rewrite (process_normalization_empty _ N) in H. discriminate.
  - pose proof (process_normalization_checked parse_group (t :: l) N
                  ltac:(discriminate)) as C.
    destruct (NormSpec.rejected (t :: l)) eqn:R.
    + destruct C as (se & C). rewrite C in H. discriminate.
    + rewrite C in H. injection H as <-.
      destruct t as [o|n]; [|reflexivity]. destruct l as [|t' l]; [|reflexivity].
      destruct (single_flag o R) as [-> | [-> | [-> | ->]]]; reflexivity.
Qed.

Lemma filter_length_perm {A} (f : A -> bool) l l' :
  Permutation l l' -> length (filter f l) = length (filter f l').
Proof.
  induction 1 as [|x l l' _ IH|x y l|l l' l'' _ IH1 _ IH2]; cbn [filter].
  - reflexivity.
  - destruct (f x); cbn [length]; now rewrite IH.
  - destruct (f x), (f y); reflexivity.
  - now rewrite IH1.
Qed.

Lemma forallb_perm {A} (f : A -> bool) l l' :
  Permutation l l' -> forallb f l = forallb f l'.
Proof.
  induction 1 as [|x l l' _ IH|x y l|l l' l'' _ IH1 _ IH2]; cbn [forallb].
  - reflexivity.
  - now rewrite IH.
  - now rewrite !andb_assoc, (andb_comm (f y)).
  - now rewrite IH1.
Qed.

Lemma existsb_perm {A} (f : A -> bool) l l' :
  Permutation l l' -> existsb f l = existsb f l'.
Proof.
  induction 1 as [|x l l' _ IH|x y l|l l' l'' _ IH1 _ IH2]; cbn [existsb].
  - reflexivity.
  - now rewrite IH.
  - now rewrite !orb_assoc, (orb_comm (f y)).
  - now rewrite IH1.
Qed.

Lemma process_normalization_perm parse_group parse_group' opts opts' :
  named norm_options parse_group = Some opts ->
  named norm_options parse_group' = Some opts' ->
  Permutation opts opts' ->
  process_normalization parse_group = process_normalization parse_group'.
Proof.
  intros N N' P. unfold process_normalization. rewrite N, N'.
  destruct opts as [|t [|t' l]].
  - apply Permutation_nil in P. now subst.
  - apply Permutation_length_1_inv in P. now subst.
  - destruct opts' as [|u [|u' l']];
      try (apply Permutation_length in P; discriminate).
    set (opts := t :: t' :: l) in *. set (opts' := u :: u' :: l') in *.
    cbn [for_each norm_flags excluded fst snd].
    unfold count, tok_in.
    rewrite !(filter_length_perm _ _ _ P), (forallb_perm _ _ _ P),
      !(existsb_perm _ _ _ P).
    clear N N' P. clearbody opts opts'. destruct t, u; reflexivity.
Qed.

End NormalizationMore.

(** X12: whenever [process_normalization] returns a dictionary, axiswise is
    true exactly when +axiswise is among the tokens and framewise exactly
    when +framewise is: the two branches for a single token give what the
    general branch gives. *)
Theorem normalization_flags_by_membership :
  forall parse_group opts d,
    OptsSpec.named OptsSpec.norm_options parse_group = Some opts ->
    OptsSpec.process_normalization parse_group = ret (Some d) ->
    d = [("axiswise", PyBool (OptsSpec.tok_in "+axiswise" opts));
         ("framewise", PyBool (OptsSpec.tok_in "+framewise" opts))].
Proof. intros. now apply normalization_by_membership with (parse_group := parse_group). Qed.

Lemma normalization_flags_by_membership_witness :
  [("axiswise", PyBool true); ("framewise", PyBool false)]
  = [("axiswise", PyBool (OptsSpec.tok_in "+axiswise" [Tok "+axiswise"]));
     ("framewise", PyBool (OptsSpec.tok_in "+framewise" [Tok "+axiswise"]))].
Proof.
  apply (normalization_flags_by_membership
           (NormSpec.block "Curve" [Tok "+axiswise"]) [Tok "+axiswise"]);
    reflexivity.
Defined.

(** X13: the order of the tokens of a normalization block does not matter:
    on two token lists that are permutations of each other
    [process_normalization] returns the same options or raises the same
    error. *)
Theorem normalization_ignores_order :
  forall parse_group parse_group' opts opts',
    OptsSpec.named OptsSpec.norm_options parse_group = Some opts ->
    OptsSpec.named OptsSpec.norm_options parse_group' = Some opts' ->
    Permutation opts opts' ->
    OptsSpec.process_normalization parse_group
    = OptsSpec.process_normalization parse_group'.
Proof. intros. eapply process_normalization_perm; eassumption. Qed.

Lemma normalization_ignores_order_witness :
  OptsSpec.process_normalization
    (NormSpec.block "Curve" [Tok "+framewise"; Tok "-axiswise"])
  = OptsSpec.process_normalization
      (NormSpec.block "Curve" [Tok "-axiswise"; Tok "+framewise"]).
Proof.
  apply (normalization_ignores_order
           (NormSpec.block "Curve" [Tok "+framewise"; Tok "-axiswise"])
           (NormSpec.block "Curve" [Tok "-axiswise"; Tok "+framewise"])
           [Tok "+framewise"; Tok "-axiswise"] [Tok "-axiswise"; Tok "+framewise"]
           eq_refl eq_refl).
  apply perm_swap.
Defined.

(** ** More on grouping paths *)

Section GroupingMore.
Import OptsSpec MergeSpec.

Lemma set_add_In x y s : In x (set_add y s) <-> x = y \/ In x s.
Proof.
  unfold set_add. destruct (Str.mem y s) eqn:E.
  - apply mem_In in E. split; [auto | intros [->|H]; assumption].
  - rewrite in_app_iff. cbn. intuition.
Qed.

Lemma group_paths_cover groups active x :
  In x active \/ (exists g, In g groups /\ pathspec g = x) ->
  exists S grp, In (S, grp) (group_paths active groups) /\ In x S.
Proof.
  revert active. induction groups as [|g rest IH]; intros active H.
  - destruct H as [H|(g & [] & _)]. cbn [group_paths].
    destruct active as [|a active]; [contradiction|].
    exists (a :: active), None. split; [now left | exact H].
  - cbn [group_paths]. destruct (has_options g).
    + destruct H as [H|(g' & [<-|I] & E)].
      * exists (set_add (pathspec g) active), (Some g).
        split; [now left | apply set_add_In; now right].
      * exists (set_add (pathspec g) active), (Some g).
        split; [now left | apply set_add_In; now left].
      * destruct (IH [] (or_intror (ex_intro _ g' (conj I E)))) as (S & grp & I' & Hx).
        exists S, grp. split; [now right | exact Hx].
    + apply IH. destruct H as [H|(g' & [<-|I] & E)].
      * left. apply set_add_In. now right.
      * left. apply set_add_In. now left.
      * right. now exists g'.
Qed.

Lemma group_paths_groups groups active :
  yielded_groups (group_paths active groups) = filter has_options groups.
Proof.
  revert active. induction groups as [|g rest IH]; intros active.
  - cbn. now destruct active.
  - cbn [group_paths filter]. destruct (has_options g).
    + cbn. now rewrite IH.
    + apply IH.
Qed.

Lemma group_paths_sets groups active :
  NoDup active ->
  Forall (fun y => fst y <> [] /\ NoDup (fst y) /\
                   match snd y with
                   | Some g => In (pathspec g) (fst y)
                   | None => True
                   end) (group_paths active groups).
Proof.
  revert active. induction groups as [|g rest IH]; intros active H.
  - cbn. destruct active as [|a active]; constructor; [|constructor].
    cbn. repeat split; [discriminate | assumption].
  - cbn [group_paths]. destruct (has_options g).
    + constructor; [|apply IH; constructor]. cbn [fst snd].
      split; [apply set_add_nonempty|]. split; [now apply set_add_NoDup|].
      apply set_add_In. now left.
    + apply IH. now apply set_add_NoDup.
Qed.

End GroupingMore.

(** X14: [_group_paths_without_options] loses no path and invents no group:
    the path of every group of the line is in one of the yielded sets, the
    groups yielded are the groups with options, in order, and every yielded
    set is non-empty, without duplicates, and holds the path of the group it
    is yielded with. *)
Theorem grouping_loses_no_path :
  forall line_parse_result,
    (forall g, In g line_parse_result ->
       exists S grp,
         In (S, grp) (OptsSpec._group_paths_without_options line_parse_result)
         /\ In (OptsSpec.pathspec g) S)
    /\ MergeSpec.yielded_groups
         (OptsSpec._group_paths_without_options line_parse_result)
       = filter OptsSpec.has_options line_parse_result
    /\ Forall (fun y => fst y <> [] /\ NoDup (fst y) /\
                        match snd y with
                        | Some g => In (OptsSpec.pathspec g) (fst y)
                        | None => True
                        end)
         (OptsSpec._group_paths_without_options line_parse_result).
Proof.
  intros groups. unfold OptsSpec._group_paths_without_options. split; [|split].
  - intros g I. apply group_paths_cover. right. now exists g.
  - apply group_paths_groups.
  - apply group_paths_sets. constructor.
Qed.

Lemma grouping_loses_no_path_witness :
  exists S grp,
    In (S, grp) (OptsSpec._group_paths_without_options
                   [Sample.bare "Image"; Sample.styled "Curve" [Tok "c=1"];
                    Sample.bare "Points"])
    /\ In "Points" S.
Proof.
  destruct (grouping_loses_no_path
              [Sample.bare "Image"; Sample.styled "Curve" [Tok "c=1"];
               Sample.bare "Points"]) as (H & _ & _).
  apply (H (Sample.bare "Points")). simpl. auto.
Defined.

(** ** More on merging *)

Module PyDictMore.
Import PyDict PyDictFacts.

Lemma set_same {V} (d : PyDict.t V) k v : get d k = Some v -> set d k v = d.
Proof.
  induction d as [|[k' v'] d IH]; cbn; [discriminate|].
  destruct (String.eqb_spec k k') as [->|N].
  - now intros [= ->].
  - intros H. now rewrite IH.
Qed.

Lemma update_same {V} (d e : PyDict.t V) :
  (forall k v, In (k, v) e -> get d k = Some v) -> update d e = d.
Proof.
  unfold update. induction e as [|[k v] e IH]; intros H; cbn [fold_left].
  - reflexivity.
  - cbn [fst snd]. rewrite set_same by (apply H; now left).
    apply IH. intros k' v' I. apply H. now right.
Qed.

Lemma in_get {V} (e : PyDict.t V) k v : wf e -> In (k, v) e -> get e k = Some v.
Proof.
  unfold wf. induction e as [|[k' v'] e IH]; cbn; [contradiction|].
  intros H [[= -> ->]|I].
  - now rewrite String.eqb_refl.
  - inversion H as [|? ? Hn Hd]; subst. destruct (String.eqb_spec k k') as [->|N].
    + elim Hn. change k' with (fst (k', v)). now apply in_map.
    + now apply IH.
Qed.

Lemma update_twice {V} (d e : PyDict.t V) : wf e -> update (update d e) e = update d e.
Proof.
  intros H. apply update_same. intros k v I.
  now rewrite get_update, (in_get _ _ _ H I).
Qed.

End PyDictMore.

Section MergeMore.
Import PyDict PyDictFacts PyDictMore OptsSpec MergeSpec.

Context {V : Type}.

Lemma contains_merge_step (merged : t (t V)) c0 (o : t V) c :
  contains (merge_step merged (c0, o)) c = String.eqb c c0 || contains merged c.
Proof.
  unfold contains at 1. rewrite get_merge_step.
  destruct (String.eqb c c0); reflexivity.
Qed.

Lemma contains_merge (old_opts new_opts : t (t V)) c :
  contains (_merge_options old_opts new_opts) c
  = contains old_opts c || contains new_opts c.
Proof.
  unfold _merge_options. revert old_opts.
  induction new_opts as [|[c0 o] new IH]; intros old; cbn [fold_left].
  - now rewrite orb_false_r.
  - rewrite IH, contains_merge_step. unfold contains. cbn [get].
    destruct (String.eqb c c0), (get old c), (get new c); reflexivity.
Qed.

Lemma wf_merge_step (merged : t (t V)) item : wf merged -> wf (merge_step merged item).
Proof.
  intros H. destruct item as [c0 o]. unfold merge_step.
  set (m := if negb (contains merged c0) then set merged c0 empty else merged).
  assert (Hm : wf m) by (subst m; destruct (negb _); [now apply wf_set | assumption]).
  destruct (get m c0); [now apply wf_set | assumption].
Qed.

Lemma wf_merge (old_opts new_opts : t (t V)) :
  wf old_opts -> wf (_merge_options old_opts new_opts).
Proof.
  unfold _merge_options. revert old_opts.
  induction new_opts as [|item new IH]; intros old H; cbn [fold_left].
  - assumption.
  - apply IH. now apply wf_merge_step.
Qed.

Lemma categories_wf_get (d : t (t V)) c x :
  categories_wf d -> get d c = Some x -> wf x.
Proof.
  intros H E. apply get_in in E. unfold categories_wf in H.
  rewrite Forall_forall in H. apply (H _ E).
Qed.

Lemma merge_step_twice (merged : t (t V)) c0 (o : t V) :
  wf o ->
  merge_step (merge_step merged (c0, o)) (c0, o) = merge_step merged (c0, o).
Proof.
  intros H. set (m := merge_step merged (c0, o)).
  assert (G : get m c0
              = Some (update (match get merged c0 with Some d => d | None => empty end) o)).
  { subst m. now rewrite get_merge_step, String.eqb_refl. }
  unfold merge_step at 1. unfold contains. rewrite G. cbn [negb].
  rewrite G, update_twice by assumption. now apply set_same.
Qed.

End MergeMore.

Section MergeLaws.
Import PyDict PyDictFacts PyDictMore OptsSpec MergeSpec.

Context {V : Type}.

Lemma merge_step_absorb (m : t (t V)) c (o d : t V) :
  get m c = Some d -> update d o = d -> merge_step m (c, o) = m.
Proof.
  intros G U. unfold merge_step, contains. rewrite G. cbn [negb].
  rewrite G, U. now apply set_same.
Qed.

Lemma merge_absorb (m new_opts : t (t V)) :
  (forall c o, In (c, o) new_opts -> merge_step m (c, o) = m) ->
  _merge_options m new_opts = m.
Proof.
  unfold _merge_options. induction new_opts as [|[c o] new IH]; intros H;
    cbn [fold_left].
  - reflexivity.
  - rewrite H by now left. apply IH. intros c' o' I. apply H. now right.
Qed.

Lemma merge_twice (old_opts new_opts : t (t V)) :
  wf new_opts -> categories_wf new_opts ->
  _merge_options (_merge_options old_opts new_opts) new_opts
  = _merge_options old_opts new_opts.
Proof.
  intros Hwf Hin. apply merge_absorb. intros c o I.
  assert (Ho : wf o).
  { unfold categories_wf in Hin. rewrite Forall_forall in Hin. apply (Hin _ I). }
  apply merge_step_absorb
    with (d := update (match get old_opts c with Some x => x | None => empty end) o).
  - now rewrite get_merge_options, (in_get _ _ _ Hwf I).
  - now apply update_twice.
Qed.

Lemma merge_assoc (a b c : t (t V)) :
  wf b -> categories_wf b -> wf c -> categories_wf c ->
  same_options (_merge_options (_merge_options a b) c)
               (_merge_options a (_merge_options b c)).
Proof.
  intros Hb Hbi Hc Hci cat.
  rewrite (get_merge_options (_merge_options a b) c cat Hc).
  rewrite (get_merge_options a (_merge_options b c) cat (wf_merge b c Hb)).
  rewrite (get_merge_options a b cat Hb), (get_merge_options b c cat Hc).
  destruct (get c cat) as [n|] eqn:Ec, (get b cat) as [m|] eqn:Eb.
  - pose proof (categories_wf_get _ _ _ Hci Ec) as Wn.
    pose proof (categories_wf_get _ _ _ Hbi Eb) as Wm.
    intros k. rewrite !get_update by (try assumption; now apply wf_update).
    now destruct (get n k), (get m k).
  - pose proof (categories_wf_get _ _ _ Hci Ec) as Wn.
    intros k. rewrite !get_update by (try assumption; now apply wf_update, wf_empty).
    now destruct (get n k).
  - intros k. reflexivity.
  - destruct (get a cat); [intros k; reflexivity | exact I].
Qed.

End MergeLaws.

(** X15: [_merge_options] keeps and adds categories only: the result has a
    category exactly when one of the two dictionaries has it, and it has no
    category twice when [old_opts] has none twice. *)
Theorem merge_options_categories :
  forall (V : Type) (old_opts new_opts : PyDict.t (PyDict.t V)),
    (forall c,
        PyDict.contains (OptsSpec._merge_options old_opts new_opts) c
        = PyDict.contains old_opts c || PyDict.contains new_opts c)
    /\ (PyDict.wf old_opts -> PyDict.wf (OptsSpec._merge_options old_opts new_opts)).
Proof.
  intros V old_opts new_opts. split.
  - intros c. apply contains_merge.
  - apply wf_merge.
Qed.

Lemma merge_options_categories_witness :
  PyDict.wf (OptsSpec._merge_options
               [("style", [("x", PyInt 1)])]
               [("plot", [("w", PyInt 2)]); ("style", [("y", PyInt 3)])]).
Proof.
  destruct (merge_options_categories pyval
              [("style", [("x", PyInt 1)])]
              [("plot", [("w", PyInt 2)]); ("style", [("y", PyInt 3)])]) as [_ H].
  apply H. repeat constructor; simpl; intuition discriminate.
Defined.

(** X16: merging the same options a second time changes nothing: for
    dictionaries without duplicate keys, [_merge_options] applied to its own
    result and the same [new_opts] returns that result. *)
Theorem merge_options_twice :
  forall (V : Type) (old_opts new_opts : PyDict.t (PyDict.t V)),
    PyDict.wf new_opts -> MergeSpec.categories_wf new_opts ->
    OptsSpec._merge_options (OptsSpec._merge_options old_opts new_opts) new_opts
    = OptsSpec._merge_options old_opts new_opts.
Proof. intros. now apply merge_twice. Qed.

Lemma merge_options_twice_witness :
  OptsSpec._merge_options
    (OptsSpec._merge_options [("norm", [("framewise", PyBool false)])]
       [("norm", [("axiswise", PyBool false); ("framewise", PyBool true)])])
    [("norm", [("axiswise", PyBool false); ("framewise", PyBool true)])]
  = OptsSpec._merge_options [("norm", [("framewise", PyBool false)])]
      [("norm", [("axiswise", PyBool false); ("framewise", PyBool true)])].
Proof.
  apply merge_options_twice; repeat constructor; simpl; intuition discriminate.
Defined.

(** X17: merging is associative key by key: merging [c] into the merge of
    [a] and [b] gives the same categories, and the same value for every key,
    as merging into [a] the merge of [b] and [c]. *)
Theorem merge_options_associative :
  forall (V : Type) (a b c : PyDict.t (PyDict.t V)),
    PyDict.wf b -> MergeSpec.categories_wf b ->
    PyDict.wf c -> MergeSpec.categories_wf c ->
    MergeSpec.same_options
      (OptsSpec._merge_options (OptsSpec._merge_options a b) c)
      (OptsSpec._merge_options a (OptsSpec._merge_options b c)).
Proof. intros. now apply merge_assoc. Qed.

Lemma merge_options_associative_witness :
  MergeSpec.same_options
    (OptsSpec._merge_options
       (OptsSpec._merge_options [("style", [("x", PyInt 1)])]
                                [("style", [("y", PyInt 2)])])
       [("style", [("x", PyInt 3)]); ("plot", [("w", PyInt 4)])])
    (OptsSpec._merge_options [("style", [("x", PyInt 1)])]
       (OptsSpec._merge_options [("style", [("y", PyInt 2)])]
          [("style", [("x", PyInt 3)]); ("plot", [("w", PyInt 4)])])).
Proof.
  apply merge_options_associative; repeat constructor; simpl; intuition discriminate.
Defined.

(** ** Splitting and joining paths *)

Module SplitFacts.
Import Str StrFacts.

Lemma split_nonempty sep s : split sep s <> [].
Proof.
  destruct s as [|a s]; cbn [split]; [discriminate|].
  destruct (Ascii.eqb a sep); [discriminate|].
  destruct (split sep s); discriminate.
Qed.

Lemma join_cons sep x l :
  join sep (x :: l) = x +++ match l with [] => "" | _ => sep +++ join sep l end.
Proof.
  unfold join. destruct l; cbn [String.concat]; [now rewrite append_nil_r|].
  reflexivity.
Qed.

(** Joining what [split] gives returns the string. *)
Lemma join_split sep s : join (String sep "") (split sep s) = s.
Proof.
  induction s as [|a s IH]; [reflexivity|]. cbn [split].
  pose proof (split_nonempty sep s) as N.
  destruct (Ascii.eqb_spec a sep) as [->|Ne].
  - rewrite join_cons. destruct (split sep s) as [|w ws]; [congruence|].
    cbn [String.append]. now rewrite IH.
  - destruct (split sep s) as [|w ws]; [congruence|].
    rewrite join_cons. cbn [String.append]. f_equal.
    rewrite <- IH. symmetry. apply join_cons.
Qed.

Lemma split_no_sep sep p : contains_char sep p = false -> split sep p = [p].
Proof.
  induction p as [|a p IH]; [reflexivity|]. cbn.
  intros H. apply orb_false_iff in H. destruct H as [H1 H2].
  now rewrite H1, IH.
Qed.

Lemma split_app_sep sep p x :
  contains_char sep p = false ->
  split sep (p +++ String sep x) = p :: split sep x.
Proof.
  induction p as [|a p IH]; cbn.
  - intros _. now rewrite Ascii.eqb_refl.
  - intros H. apply orb_false_iff in H. destruct H as [H1 H2].
    now rewrite H1, IH.
Qed.

End SplitFacts.

(** ** Deprecated paths *)

Section Deprecations.
Import Str StrFacts SplitFacts OptsSpec.

Lemma deprecated_path path :
  hd "" (split "." path) = "GridImage" ->
  exists rest,
    (rest = "" \/ exists x, rest = String "." x)
    /\ path = "GridImage" +++ rest
    /\ apply_deprecations path
       = ([ElementDeprecated "GridImage" "Image"], inr ("Image" +++ rest)).
Proof.
  intros H. unfold apply_deprecations, deprecations. cbn [deprecate].
  rewrite H. cbn [String.eqb Ascii.eqb Bool.eqb].
  pose proof (join_split "." path) as J.
  destruct (split "." path) as [|h parts]; [discriminate|]. cbn in H. subst h.
  rewrite join_cons in J.
  exists (match parts with [] => "" | _ :: _ => "." +++ join "." parts end).
  split; [|split].
  - destruct parts; [now left | right; eexists; reflexivity].
  - now rewrite J.
  - cbn [List.tl bind warn ret app]. now rewrite join_cons.
Qed.

Lemma deprecation_result path w r :
  apply_deprecations path = (w, inr r) ->
  hd "" (split "." r) <> "GridImage".
Proof.
  destruct (String.eqb_spec (hd "" (split "." path)) "GridImage") as [E|N].
  - destruct (deprecated_path path E) as (rest & R & _ & A).
    rewrite A. intros [= _ <-]. destruct R as [->|(x & ->)].
    + cbn. discriminate.
    + cbn. discriminate.
  - rewrite (not_deprecated path N). now intros [= _ <-].
Qed.

End Deprecations.

(** X18: [apply_deprecations] never raises; a path whose first dotted
    component is not GridImage is returned as it is, without a warning; a
    path whose first component is GridImage is returned with that component
    replaced by Image and the rest of the path untouched, with one warning;
    and what it returns is no longer deprecated, so that applying it again
    changes nothing and warns of nothing. *)
Theorem deprecation_keeps_the_rest :
  forall path,
    (hd "" (Str.split "." path) <> "GridImage" ->
     OptsSpec.apply_deprecations path = ret path)
    /\ (hd "" (Str.split "." path) = "GridImage" ->
        exists rest,
          (rest = "" \/ exists x, rest = String "." x)
          /\ path = "GridImage" +++ rest
          /\ OptsSpec.apply_deprecations path
             = ([ElementDeprecated "GridImage" "Image"], inr ("Image" +++ rest)))
    /\ (forall w r,
          OptsSpec.apply_deprecations path = (w, inr r) ->
          hd "" (Str.split "." r) <> "GridImage"
          /\ OptsSpec.apply_deprecations r = ret r).
Proof.
  intros path. split; [apply not_deprecated|]. split; [apply deprecated_path|].
  intros w r H. pose proof (deprecation_result path w r H) as N.
  split; [exact N | now apply not_deprecated].
Qed.

Lemma deprecation_keeps_the_rest_witness :
  (exists rest,
      (rest = "" \/ exists x, rest = String "." x)
      /\ "GridImage.Foo.Bar" = "GridImage" +++ rest
      /\ OptsSpec.apply_deprecations "GridImage.Foo.Bar"
         = ([ElementDeprecated "GridImage" "Image"], inr ("Image" +++ rest)))
  /\ OptsSpec.apply_deprecations "Image.Foo.Bar" = ret "Image.Foo.Bar".
Proof.
  destruct (deprecation_keeps_the_rest "GridImage.Foo.Bar") as (_ & H & I).
  split.
  - apply H. reflexivity.
  - apply (I [ElementDeprecated "GridImage" "Image"] "Image.Foo.Bar"). reflexivity.
Defined.

(** ** Option aliases *)

Section Aliases.
Import PyDict PyDictFacts PyDictMore OptsSpec AliasSpec.

Lemma canonical_is_current k : contains aliases (canonical k) = false.
Proof.
  unfold canonical. destruct (get aliases k) as [a|] eqn:E.
  - apply get_in in E. unfold aliases in E. cbn [In] in E.
    repeat destruct E as [E|E]; try contradiction; injection E as _ <-; reflexivity.
  - unfold contains. now rewrite E.
Qed.

Lemma rename_loop_current (opts acc : t pyval) x :
  contains aliases x = true ->
  get acc x = None ->
  get (fold_left (fun acc kv => set acc (canonical (fst kv)) (snd kv)) opts acc) x = None.
Proof.
  intros Hx. revert acc. induction opts as [|[k v] opts IH]; intros acc H;
    cbn [fold_left].
  - exact H.
  - apply IH. rewrite get_set. cbn [fst snd].
    destruct (String.eqb_spec x (canonical k)) as [->|N].
    + rewrite canonical_is_current in Hx. discriminate.
    + exact H.
Qed.

Lemma rename_aliases_current opts x :
  contains aliases x = true -> get (rename_aliases opts) x = None.
Proof. intros H. now apply rename_loop_current. Qed.

Lemma rename_loop_identity (d acc : t pyval) :
  (forall k v, In (k, v) d -> get aliases k = None) ->
  fold_left (fun acc kv => set acc (canonical (fst kv)) (snd kv)) d acc = update acc d.
Proof.
  unfold update. revert acc. induction d as [|[k v] d IH]; intros acc H;
    cbn [fold_left].
  - reflexivity.
  - unfold canonical at 2. cbn [fst snd]. rewrite (H k v) by now left.
    apply IH. intros k' v' I. apply (H k' v'). now right.
Qed.

Lemma rename_aliases_twice opts :
  rename_aliases (rename_aliases opts) = rename_aliases opts.
Proof.
  set (d := rename_aliases opts).
  assert (W : wf d) by apply wf_rename_aliases.
  change (rename_aliases d)
    with (fold_left (fun acc kv => set acc (canonical (fst kv)) (snd kv)) d empty).
  rewrite rename_loop_identity; [now apply update_empty|].
  intros k v I. destruct (get aliases k) as [a|] eqn:E; [|reflexivity].
  assert (C : contains aliases k = true) by (unfold contains; now rewrite E).
  pose proof (rename_aliases_current opts k C) as N. fold d in N.
  rewrite (in_get _ _ _ W I) in N. discriminate.
Qed.

Lemma canonical_twice k : canonical (canonical k) = canonical k.
Proof.
  pose proof (canonical_is_current k) as C. unfold contains in C.
  unfold canonical at 1. now destruct (get aliases (canonical k)).
Qed.

Lemma rename_loop_spelling (opts acc : t pyval) :
  fold_left (fun acc kv => set acc (canonical (fst kv)) (snd kv))
    (map (fun kv => (canonical (fst kv), snd kv)) opts) acc
  = fold_left (fun acc kv => set acc (canonical (fst kv)) (snd kv)) opts acc.
Proof.
  revert acc. induction opts as [|[k v] opts IH]; intros acc; cbn [map fold_left].
  - reflexivity.
  - cbn [fst snd]. now rewrite canonical_twice, IH.
Qed.

Lemma rename_aliases_last opts k v :
  get (rename_aliases (opts ++ [(k, v)])) (canonical k) = Some v.
Proof.
  unfold rename_aliases. rewrite fold_left_app. cbn [fold_left fst snd].
  apply get_set_eq.
Qed.

End Aliases.

(** X19: after the aliases are applied no option is left under a legacy
    name, and applying the aliases again changes nothing; the spelling of an
    option does not matter: replacing every option name by its current name
    before the aliases are applied gives the same dictionary, and the option
    that comes last is stored under its current name with its value. *)
Theorem aliases_leave_current_names :
  forall opts,
    (forall x, PyDict.contains OptsSpec.aliases x = true ->
               PyDict.get (OptsSpec.rename_aliases opts) x = None)
    /\ OptsSpec.rename_aliases (OptsSpec.rename_aliases opts)
       = OptsSpec.rename_aliases opts
    /\ OptsSpec.rename_aliases
         (map (fun kv => (AliasSpec.canonical (fst kv), snd kv)) opts)
       = OptsSpec.rename_aliases opts
    /\ (forall k v,
          PyDict.get (OptsSpec.rename_aliases (opts ++ [(k, v)]))
                     (AliasSpec.canonical k) = Some v).
Proof.
  intros opts. split; [|split; [|split]].
  - intros x. apply rename_aliases_current.
  - apply rename_aliases_twice.
  - apply rename_loop_spelling.
  - intros k v. apply rename_aliases_last.
Qed.

Lemma aliases_leave_current_names_witness :
  PyDict.get (OptsSpec.rename_aliases
                [("horizontal_spacing", PyInt 2); ("show_xaxis", PyNone)])
             "horizontal_spacing" = None.
Proof.
  destruct (aliases_leave_current_names
              [("horizontal_spacing", PyInt 2); ("show_xaxis", PyNone)]) as [H _].
  apply H. reflexivity.
Defined.

(** ** What [OptsSpec.parse] raises and returns *)

Section ParseResult.
Import PyDict PyDictFacts PyDictMore OptsSpec ParseSpec.

Variable scanString : string -> list (list spec_group * nat * nat).
Variable parseString : string -> exn + list spec_group.
Variable namespace : Type.
Variable py_eval : namespace -> string -> evaluation.
Variable abort_on_eval_failure : bool.

Lemma process_normalization_error parse_group w e :
  process_normalization parse_group = (w, inl e) -> exists se, e = SyntaxError se.
Proof.
  intros H.
  destruct (named norm_options parse_group) as [[|t l]|] eqn:N.
  - rewrite (process_normalization_empty _ N) in H. discriminate.
  - pose proof (process_normalization_checked parse_group (t :: l) N
                  ltac:(discriminate)) as C.
    destruct (NormSpec.rejected (t :: l)).
    + destruct C as (se & C). rewrite C in H. injection H as _ <-. now exists se.
    + rewrite C in H. discriminate.
  - rewrite (process_normalization_absent _ N) in H. discriminate.
Qed.

Lemma todict_benign parseresult mode ns w e :
  Parser.todict namespace py_eval abort_on_eval_failure parseresult mode ns
  = (w, inl e) -> benign e.
Proof.
  intros H.
  destruct (todict_error_kind namespace py_eval abort_on_eval_failure
              parseresult mode ns e) as [->|(_ & k & ->)].
  - now rewrite H.
  - now right.
  - left. eauto.
Qed.

Lemma group_options_cases ns group :
  (exists w e, group_options namespace py_eval abort_on_eval_failure ns group
               = (w, inl e) /\ benign e)
  \/ (exists w options,
        group_options namespace py_eval abort_on_eval_failure ns group
        = (w, inr options)
        /\ wf options /\ only_categories options).
Proof.
  unfold group_options.
  destruct (process_normalization group) as [wn [en|normalization]] eqn:Pn.
  { left. exists wn, en. split; [reflexivity|]. left.
    exact (process_normalization_error _ _ _ Pn). }
  cbn [bind].
  set (o1 := match normalization with
             | Some n => set empty "norm" n
             | None => empty
             end).
  assert (H1 : wf o1 /\ only_categories o1).
  { subst o1. destruct normalization; split; try (repeat constructor; cbn; tauto).
    - intros c. unfold contains. cbn. destruct (String.eqb_spec c "norm");
        [left; assumption | discriminate].
    - intros c. discriminate. }
  clearbody o1. destruct H1 as [W1 C1].
  assert (Hset : forall (o : t (t pyval)) name d,
             category name -> wf o -> only_categories o ->
             wf (set o name d) /\ only_categories (set o name d)).
  { intros o name d Hn Wo Co. split; [now apply wf_set|].
    intros c. unfold contains. rewrite get_set.
    destruct (String.eqb_spec c name) as [->|_]; [auto|]. apply Co. }
  destruct (named plot_options group) as [plotopts|].
  - destruct (Parser.todict _ _ _ (Some plotopts) _ ns) as [wp [ep|dp]] eqn:Tp.
    + left. cbn [bind]. do 2 eexists. split; [reflexivity|].
      exact (todict_benign _ _ _ _ _ Tp).
    + cbn [bind ret].
      destruct (Hset o1 "plot" (rename_aliases dp)) as [W2 C2];
        [right; now left | assumption | assumption |].
      destruct (named style_options group) as [styleopts|].
      * destruct (Parser.todict _ _ _ (Some styleopts) _ ns) as [ws [es|ds]] eqn:Ts.
        -- left. cbn. do 2 eexists. split; [reflexivity|].
           exact (todict_benign _ _ _ _ _ Ts).
        -- right. cbn. do 2 eexists. split; [reflexivity|].
           apply Hset; [right; now right | assumption | assumption].
      * right. cbn. do 2 eexists. split; [reflexivity|]. auto.
  - rewrite bind_ret_l.
    destruct (named style_options group) as [styleopts|].
    + destruct (Parser.todict _ _ _ (Some styleopts) _ ns) as [ws [es|ds]] eqn:Ts.
      * left. cbn. do 2 eexists. split; [reflexivity|].
        exact (todict_benign _ _ _ _ _ Ts).
      * right. cbn. do 2 eexists. split; [reflexivity|].
        apply Hset; [right; now right | assumption | assumption].
    + right. cbn. do 2 eexists. split; [reflexivity|]. auto.
Qed.

(** What the loop of [parse] keeps true of the dictionary it builds. *)
Lemma assign_paths_keeps pathspecs options (parse : t (t (t pyval))) :
  wf options -> only_categories options ->
  (wf parse /\ forall p o, get parse p = Some o -> wf o /\ only_categories o) ->
  (wf (assign_paths pathspecs options parse)
   /\ forall p o, get (assign_paths pathspecs options parse) p = Some o ->
                  wf o /\ only_categories o).
Proof.
  intros Wo Co. unfold assign_paths. revert parse.
  induction pathspecs as [|a S IH]; intros parse [W H]; cbn [fold_left].
  - auto.
  - apply IH. split; [now apply wf_set|].
    intros p o. rewrite get_set. destruct (String.eqb_spec p a) as [->|_]; [|apply H].
    intros [= <-].
    assert (Hold : wf (match get parse a with Some o => o | None => empty end)
                   /\ only_categories
                        (match get parse a with Some o => o | None => empty end)).
    { destruct (get parse a) as [o|] eqn:E; [exact (H a o E)|].
      split; [apply wf_empty | intros c; discriminate]. }
    destruct Hold as [Wold Cold]. split; [now apply wf_merge|].
    intros c. rewrite contains_merge. intros X. apply orb_true_iff in X.
    destruct X; auto.
Qed.

Lemma contains_assign_paths pathspecs options (parse : t (t (t pyval))) p :
  contains (assign_paths pathspecs options parse) p
  = contains parse p || Str.mem p pathspecs.
Proof.
  unfold assign_paths. revert parse.
  induction pathspecs as [|a S IH]; intros parse; cbn [fold_left].
  - now rewrite orb_false_r.
  - rewrite IH. unfold contains at 1. rewrite get_set.
    unfold Str.mem. cbn [existsb]. unfold contains.
    destruct (String.eqb p a), (get parse p); reflexivity.
Qed.

Lemma parse_step_cases ns parse item :
  (exists w e,
      parse_step namespace py_eval abort_on_eval_failure ns parse item = (w, inl e)
      /\ benign e)
  \/ (exists w options,
        wf options /\ only_categories options
        /\ parse_step namespace py_eval abort_on_eval_failure ns parse item
           = (w, inr (assign_paths (fst item) options parse))).
Proof.
  destruct item as [pathspecs group]. unfold parse_step.
  destruct (group_options_cases ns group)
    as [(w & e & -> & B) | (w & options & -> & W & C)].
  - left. now exists w, e.
  - right. exists w, options. cbn [bind ret fst]. now rewrite app_nil_r.
Qed.

Lemma parse_loop_cover ns yields :
  forall parse0 w parse,
    for_each (parse_step namespace py_eval abort_on_eval_failure ns) yields parse0
    = (w, inr parse) ->
    (forall p, contains parse0 p = true -> contains parse p = true)
    /\ (forall S grp p, In (S, grp) yields -> In p S -> contains parse p = true).
Proof.
  induction yields as [|y yields IH]; intros parse0 w parse; cbn [for_each].
  - intros [= <- <-]. split; [auto | intros S grp p []].
  - destruct (parse_step_cases ns parse0 y)
      as [(w1 & e & -> & _) | (w1 & options & _ & _ & ->)]; [discriminate|].
    cbn [bind].
    destruct (for_each _ yields (assign_paths (fst y) options parse0))
      as [w2 [e2|parse2]] eqn:F; [discriminate|].
    intros [= <- <-]. destruct (IH _ _ _ F) as [Hmono Hcov]. split.
    + intros p Hp. apply Hmono. now rewrite contains_assign_paths, Hp.
    + intros S grp p [->|I] Hp.
      * apply Hmono. rewrite contains_assign_paths. cbn [fst].
        apply orb_true_iff. right. now apply mem_In.
      * now apply (Hcov S grp).
Qed.

Variable options_error : PyDict.t pyval -> option exn.

Lemma new_options_cases (kw : t pyval) :
  (exists e, options_error kw = Some e /\ new_options options_error kw = raise e)
  \/ (options_error kw = None /\ new_options options_error kw = ret (mkOptions kw)).
Proof.
  unfold new_options. destruct (options_error kw) as [e|]; [left | right]; eauto.
Qed.

Lemma to_options_loop (options : t (t pyval)) :
  forall acc : t Options,
    (exists kw e,
        options_error kw = Some e
        /\ for_each (fun acc kv =>
                       o <- new_options options_error (snd kv) ;;
                       ret (set acc (fst kv) o)) options acc = raise e)
    \/ (exists r,
          for_each (fun acc kv =>
                      o <- new_options options_error (snd kv) ;;
                      ret (set acc (fst kv) o)) options acc = ret r
          /\ (forall c, contains r c = contains acc c || contains options c)
          /\ (wf options ->
              forall c, get r c = match get options c with
                                  | Some kw => Some (mkOptions kw)
                                  | None => get acc c
                                  end)).
Proof.
  induction options as [|[c0 kw] options IH]; intros acc; cbn [for_each].
  - right. exists acc. split; [reflexivity|]. split.
    + intros c. now rewrite orb_false_r.
    + reflexivity.
  - cbn [fst snd].
    destruct (new_options_cases kw) as [(e & E & ->)|(E & ->)].
    + left. exists kw, e. split; [exact E | reflexivity].
    + rewrite !bind_ret_l.
      destruct (IH (set acc c0 (mkOptions kw)))
        as [(kw' & e & E' & ->)|(r & -> & Hc & Hg)].
      * left. exists kw', e. split; [exact E' | reflexivity].
      * right. exists r. split; [reflexivity|]. split.
        -- intros c. rewrite Hc. unfold contains. rewrite get_set. cbn [get].
           destruct (String.eqb c c0), (get acc c), (get options c); reflexivity.
        -- intros W c. inversion W as [|? ? Hn Hd]; subst.
           rewrite (Hg Hd). cbn [get]. rewrite get_set.
           destruct (String.eqb_spec c c0) as [->|N]; [|reflexivity].
           apply get_none_keys in Hn. now rewrite Hn.
Qed.

Lemma to_options_returns (options : t (t pyval)) w r :
  to_options options_error options = (w, inr r) ->
  to_options options_error options = ret r
  /\ (forall c, contains r c = contains options c)
  /\ (wf options -> forall c, get r c = option_map mkOptions (get options c)).
Proof.
  unfold to_options. intros H.
  destruct (to_options_loop options empty)
    as [(kw & e & _ & E)|(r' & E & Hc & Hg)]; rewrite E in H; [discriminate|].
  injection H as _ <-. rewrite E. split; [reflexivity|]. split.
  - intros c. now rewrite Hc.
  - intros W c. rewrite (Hg W). now destruct (get options c).
Qed.

Lemma to_options_error (options : t (t pyval)) w e :
  to_options options_error options = (w, inl e) ->
  exists kw, options_error kw = Some e.
Proof.
  unfold to_options. intros H.
  destruct (to_options_loop options empty)
    as [(kw & e' & Ek & E)|(r' & E & _)]; rewrite E in H; [|discriminate].
  injection H as _ <-. now exists kw.
Qed.

Lemma returned_name_spec path :
  exists w, apply_deprecations path = (w, inr (LineSpec.returned_name path)).
Proof.
  unfold LineSpec.returned_name.
  destruct (apply_deprecations_total path) as (w & key & E).
  rewrite E. now exists w.
Qed.

(** One item of the dictionary comprehension that [parse] returns. *)
Lemma deprecated_step (acc : t (t Options)) (kv : string * t (t pyval)) :
  (exists w e kw,
      options_error kw = Some e
      /\ (path <- apply_deprecations (fst kv) ;;
          value <- to_options options_error (snd kv) ;;
          ret (set acc path value)) = (w, inl e))
  \/ (exists w value,
        to_options options_error (snd kv) = ret value
        /\ (path <- apply_deprecations (fst kv) ;;
            value <- to_options options_error (snd kv) ;;
            ret (set acc path value))
           = (w, inr (set acc (LineSpec.returned_name (fst kv)) value))).
Proof.
  destruct (returned_name_spec (fst kv)) as (w & ->). cbn [bind].
  destruct (to_options options_error (snd kv)) as [wo [e|value]] eqn:T.
  - left. destruct (to_options_error _ _ _ T) as (kw & E).
    exists (w ++ wo), e, kw. split; [exact E | reflexivity].
  - right. destruct (to_options_returns _ _ _ T) as (E & _).
    rewrite E in T. injection T as <-.
    exists (w ++ []), value. split; reflexivity.
Qed.

Lemma deprecated_loop (parse : t (t (t pyval))) :
  forall acc w r,
    for_each (fun acc kv =>
                path <- apply_deprecations (fst kv) ;;
                value <- to_options options_error (snd kv) ;;
                ret (set acc path value)) parse acc = (w, inr r) ->
    (forall key, contains acc key = true -> contains r key = true)
    /\ (forall kv, In kv parse ->
          exists w' key, apply_deprecations (fst kv) = (w', inr key)
                         /\ contains r key = true)
    /\ (wf acc -> wf r)
    /\ (forall key opts, get r key = Some opts ->
          get acc key = Some opts
          \/ (hd "" (Str.split "." key) <> "GridImage"
              /\ exists kv, In kv parse
                            /\ to_options options_error (snd kv) = ret opts)).
Proof.
  induction parse as [|[p o] parse IH]; intros acc w r; cbn [for_each].
  - intros [= <- <-]. repeat split; auto. intros kv [].
  - destruct (deprecated_step acc (p, o))
      as [(w1 & e & kw & _ & ->)|(w1 & value & T & ->)]; [discriminate|].
    cbn [bind fst snd] in *.
    destruct (for_each _ parse (set acc (LineSpec.returned_name p) value))
      as [w2 [e2|r2]] eqn:F; [discriminate|].
    intros [= <- <-].
    destruct (IH _ _ _ F) as (Hmono & Hcov & Hwf & Horig).
    split; [|split; [|split]].
    + intros k Hk. apply Hmono. unfold contains in *. rewrite get_set.
      now destruct (String.eqb k (LineSpec.returned_name p)).
    + intros kv [<-|I].
      * destruct (returned_name_spec p) as (w' & E).
        exists w', (LineSpec.returned_name p). split; [exact E|]. apply Hmono.
        unfold contains. now rewrite get_set_eq.
      * now apply Hcov.
    + intros W. now apply Hwf, wf_set.
    + intros k opts G. destruct (Horig k opts G) as [G'|(N & kv & I & E)].
      * rewrite get_set in G'.
        destruct (String.eqb_spec k (LineSpec.returned_name p)) as [->|_];
          [|now left].
        injection G' as <-. right. split.
        -- destruct (returned_name_spec p) as (w' & E).
           exact (deprecation_result p w' _ E).
        -- exists (p, o). split; [now left | exact T].
      * right. split; [exact N|]. exists kv. split; [now right | exact E].
Qed.

Lemma deprecated_loop_error (parse : t (t (t pyval))) :
  forall acc w e,
    for_each (fun acc kv =>
                path <- apply_deprecations (fst kv) ;;
                value <- to_options options_error (snd kv) ;;
                ret (set acc path value)) parse acc = (w, inl e) ->
    exists kw, options_error kw = Some e.
Proof.
  induction parse as [|[p o] parse IH]; intros acc w e; cbn [for_each].
  - discriminate.
  - destruct (deprecated_step acc (p, o))
      as [(w1 & e1 & kw & E & ->)|(w1 & value & T & ->)].
    + intros [= _ <-]. now exists kw.
    + cbn [bind fst snd] in *.
      destruct (for_each _ parse (set acc (LineSpec.returned_name p) value))
        as [w2 [e2|r2]] eqn:F; [|discriminate].
      intros [= _ <-]. exact (IH _ _ _ F).
Qed.

(** A key that none of the paths is returned under is left as it is. *)
Lemma deprecated_loop_other (parse : t (t (t pyval))) key :
  (forall q, In q (keys parse) -> LineSpec.returned_name q <> key) ->
  forall acc w r,
    for_each (fun acc kv =>
                path <- apply_deprecations (fst kv) ;;
                value <- to_options options_error (snd kv) ;;
                ret (set acc path value)) parse acc = (w, inr r) ->
    get r key = get acc key.
Proof.
  induction parse as [|[p o] parse IH]; intros Hk acc w r; cbn [for_each].
  - now intros [= <- <-].
  - destruct (deprecated_step acc (p, o))
      as [(w1 & e & kw & _ & ->)|(w1 & value & T & ->)]; [discriminate|].
    cbn [bind fst snd] in *.
    destruct (for_each _ parse (set acc (LineSpec.returned_name p) value))
      as [w2 [e2|r2]] eqn:F; [discriminate|].
    intros [= <- <-].
    rewrite (IH (fun q I => Hk q (or_intror I)) _ _ _ F).
    apply get_set_neq. intros E. apply (Hk p); [now left | now symmetry].
Qed.

(** The entry of a path that no other path shares its returned name
    with. *)
Lemma deprecated_loop_entry (parse : t (t (t pyval))) :
  wf parse ->
  forall acc w r p o,
    for_each (fun acc kv =>
                path <- apply_deprecations (fst kv) ;;
                value <- to_options options_error (snd kv) ;;
                ret (set acc path value)) parse acc = (w, inr r) ->
    In (p, o) parse ->
    LineSpec.unambiguous (keys parse) p ->
    exists entry,
      to_options options_error o = ret entry
      /\ get r (LineSpec.returned_name p) = Some entry.
Proof.
  induction parse as [|[q oq] parse IH]; intros W acc w r p o; cbn [for_each].
  - intros _ [].
  - inversion W as [|? ? Hn Hd]; subst.
    destruct (deprecated_step acc (q, oq))
      as [(w1 & e & kw & _ & ->)|(w1 & value & T & ->)]; [discriminate|].
    cbn [bind fst snd] in *.
    destruct (for_each _ parse (set acc (LineSpec.returned_name q) value))
      as [w2 [e2|r2]] eqn:F; [discriminate|].
    intros [= <- <-] I U. destruct I as [[= <- <-]|I].
    + exists value. split; [exact T|].
      assert (O : forall q', In q' (keys parse) ->
                    LineSpec.returned_name q' <> LineSpec.returned_name q).
      { intros q' I' E. assert (q' = q) by (apply U; [now right | exact E]).
        subst q'. contradiction. }
      rewrite (deprecated_loop_other parse (LineSpec.returned_name q) O _ _ _ F).
      apply get_set_eq.
    + apply (IH Hd _ _ _ p o F I).
      intros q' I' E. apply U; [now right | exact E].
Qed.

Lemma parse_returns line ns w result :
  parse scanString parseString namespace py_eval abort_on_eval_failure options_error
    line ns = (w, inr result) ->
  exists groups w1 parse0 w2,
    parseString line = inr groups
    /\ for_each (parse_step namespace py_eval abort_on_eval_failure ns)
         (_group_paths_without_options groups) empty = (w1, inr parse0)
    /\ deprecated_paths options_error parse0 = (w2, inr result).
Proof.
  unfold parse.
  destruct (whole_line_check (scanString line) line)
    as [[_ Hc] | [(toks & start & e & _ & _ & Hc) | (toks & start & e & _ & _ & Hc)]];
    cbn zeta in Hc; rewrite Hc; [discriminate | discriminate |].
  rewrite bind_ret_l.
  destruct (parseString line) as [ep|groups]; [discriminate|].
  change (@nil warning, @inr exn _ groups) with (ret groups). rewrite bind_ret_l.
  destruct (for_each _ (_group_paths_without_options groups) empty)
    as [w1 [e1|parse0]] eqn:F; [discriminate|].
  cbn [bind].
  destruct (deprecated_paths options_error parse0) as [w2 [e2|r]] eqn:D; [discriminate|].
  intros [= _ <-]. now exists groups, w1, parse0, w2.
Qed.

Lemma parse_error_kind line ns e :
  outcome (parse scanString parseString namespace py_eval abort_on_eval_failure
             options_error line ns) = inl e ->
  benign e \/ parseString line = inl e \/ exists kw, options_error kw = Some e.
Proof.
  unfold parse.
  destruct (whole_line_check (scanString line) line)
    as [[_ Hc] | [(toks & start & e0 & _ & _ & Hc) | (toks & start & e0 & _ & _ & Hc)]];
    cbn zeta in Hc; rewrite Hc.
  - intros [= <-]. left. left. eauto.
  - intros [= <-]. left. left. eauto.
  - rewrite bind_ret_l.
    destruct (parseString line) as [ep|groups].
    + intros [= <-]. right. now left.
    + change (@nil warning, @inr exn _ groups) with (ret groups). rewrite bind_ret_l.
      destruct (for_each _ (_group_paths_without_options groups) empty)
        as [w1 [e1|parse0]] eqn:F; cbn [bind outcome snd].
      * intros [= <-]. left.
        apply (for_each_error_kind
                 (parse_step namespace py_eval abort_on_eval_failure ns) benign)
          with (l := _group_paths_without_options groups) (s := empty) (w := w1);
          [|exact F].
        intros s x w0 err H.
        destruct (parse_step_cases ns s x)
          as [(w' & e' & E & B) | (w' & options & _ & _ & E)];
          rewrite E in H; [now injection H as _ <- | discriminate].
      * destruct (deprecated_paths options_error parse0) as [w2 [e2|r]] eqn:D;
          cbn; [|discriminate].
        intros [= <-]. right. right.
        exact (deprecated_loop_error _ _ _ _ D).
Qed.

Lemma parse_loop_keeps ns yields w parse :
  for_each (parse_step namespace py_eval abort_on_eval_failure ns) yields empty
  = (w, inr parse) ->
  wf parse /\ forall p o, get parse p = Some o -> wf o /\ only_categories o.
Proof.
  apply (for_each_invariant
           (parse_step namespace py_eval abort_on_eval_failure ns)
           (fun parse => wf parse /\
                         forall p o, get parse p = Some o ->
                                     wf o /\ only_categories o)).
  - intros s x w0 s' Hs H.
    destruct (parse_step_cases ns s x)
      as [(w' & e' & E & B) | (w' & options & Wo & Co & E)];
      rewrite E in H; [discriminate|].
    injection H as _ <-. now apply assign_paths_keeps.
  - split; [apply wf_empty | discriminate].
Qed.

End ParseResult.

(** X20: [OptsSpec.parse] raises nothing but SyntaxError, IndexError, what
    pyparsing's [parseString] raises on the line and what the constructor of
    [Options] raises on the keywords of a category: no look-up in it can
    fail with KeyError, TypeError or AttributeError. *)
Theorem opts_parse_raises_only :
  forall scanString parseString namespace py_eval abort_on_eval_failure
         options_error line (ns : namespace) e,
    outcome (OptsSpec.parse scanString parseString namespace py_eval
               abort_on_eval_failure options_error line ns) = inl e ->
    (exists se, e = SyntaxError se) \/ e = IndexError \/ parseString line = inl e
    \/ exists keywords, options_error keywords = Some e.
Proof.
  intros scanString parseString namespace py_eval abort options_error line ns e H.
  destruct (parse_error_kind _ _ _ _ _ _ _ _ _ H) as [[B|B]|[B|B]]; auto.
Qed.

Lemma opts_parse_raises_only_witness :
  (exists se, ValueError = SyntaxError se) \/ ValueError = IndexError
  \/ Sample.parse_to [Sample.styled "Curve" [Tok "key=1"]] "Curve (key=1)"
     = inl ValueError
  \/ exists keywords, Sample.reject_key keywords = Some ValueError.
Proof.
  apply (opts_parse_raises_only
           (Sample.scan_one [Sample.styled "Curve" [Tok "key=1"]] 13)
           (Sample.parse_to [Sample.styled "Curve" [Tok "key=1"]])
           unit Sample.eval_literal false Sample.reject_key "Curve (key=1)" tt).
  reflexivity.
Defined.

(** X21: in the dictionary that [OptsSpec.parse] returns no path occurs
    twice, no path starts with the deprecated component GridImage, and the
    options of every path have no other categories than norm, plot and
    style. *)
Theorem opts_parse_result_shape :
  forall scanString parseString namespace py_eval abort_on_eval_failure options_error
         line (ns : namespace) w result,
    OptsSpec.parse scanString parseString namespace py_eval
      abort_on_eval_failure options_error line ns = (w, inr result) ->
    PyDict.wf result
    /\ forall key opts,
         PyDict.get result key = Some opts ->
         hd "" (Str.split "." key) <> "GridImage"
         /\ ParseSpec.only_categories opts.
Proof.
  intros scanString parseString namespace py_eval abort options_error line ns w result H.
  destruct (parse_returns _ _ _ _ _ _ _ _ _ _ H)
    as (groups & w1 & parse0 & w2 & _ & F & D).
  destruct (parse_loop_keeps _ _ _ _ _ _ _ F) as [W0 C0].
  unfold OptsSpec.deprecated_paths in D.
  destruct (deprecated_loop options_error parse0 _ _ _ D)
    as (_ & _ & Hwf & Horig).
  split; [apply Hwf, PyDictFacts.wf_empty|].
  intros key opts G. destruct (Horig key opts G) as [G'|(N & [p o] & I & T)];
    [discriminate|].
  split; [exact N|]. intros c.
  destruct (to_options_returns options_error _ _ _ T) as (_ & Hc & _).
  rewrite Hc. cbn [snd]. apply (C0 p o). now apply PyDictMore.in_get.
Qed.

Lemma opts_parse_result_shape_witness :
  PyDict.wf [("Image", @nil (string * Options))].
Proof.
  apply (opts_parse_result_shape
           (Sample.scan_one [Sample.bare "GridImage"] 9)
           (Sample.parse_to [Sample.bare "GridImage"]) unit Sample.eval_literal
           false Sample.accept_options "GridImage" tt [ElementDeprecated "GridImage" "Image"]
           [("Image", [])]).
  reflexivity.
Defined.

(** X22: when [OptsSpec.parse] returns, every path specification of the
    line has an entry in the result, under the name that
    [apply_deprecations] gives it. *)
Theorem opts_parse_covers_every_path :
  forall scanString parseString namespace py_eval abort_on_eval_failure options_error
         line (ns : namespace) w result groups,
    OptsSpec.parse scanString parseString namespace py_eval
      abort_on_eval_failure options_error line ns = (w, inr result) ->
    parseString line = inr groups ->
    forall g, In g groups ->
      exists w' key,
        OptsSpec.apply_deprecations (OptsSpec.pathspec g) = (w', inr key)
        /\ PyDict.contains result key = true.
Proof.
  intros scanString parseString namespace py_eval abort options_error line ns w result groups
    H P g I.
  destruct (parse_returns _ _ _ _ _ _ _ _ _ _ H)
    as (groups' & w1 & parse0 & w2 & P' & F & D).
  rewrite P in P'. injection P' as <-.
  destruct (parse_loop_cover _ _ _ _ _ _ _ _ F) as [_ Hcov].
  destruct (group_paths_cover groups [] (OptsSpec.pathspec g)
              (or_intror (ex_intro _ g (conj I eq_refl)))) as (S & grp & IS & Hp).
  pose proof (Hcov S grp _ IS Hp) as C.
  unfold PyDict.contains in C.
  destruct (PyDict.get parse0 (OptsSpec.pathspec g)) as [o|] eqn:G; [|discriminate].
  apply get_in in G.
  unfold OptsSpec.deprecated_paths in D.
  destruct (deprecated_loop options_error parse0 _ _ _ D) as (_ & Hc & _).
  apply (Hc _ G).
Qed.

Lemma opts_parse_covers_every_path_witness :
  exists w' key,
    OptsSpec.apply_deprecations "Points" = (w', inr key)
    /\ PyDict.contains [("Image", [("style", mkOptions [("c", PyInt 1)])]);
                        ("Curve", [("style", mkOptions [("c", PyInt 1)])]);
                        ("Points", [])] key = true.
Proof.
  apply (opts_parse_covers_every_path
           (Sample.scan_one [Sample.bare "Image"; Sample.styled "Curve" [Tok "c=1"];
                             Sample.bare "Points"] 24)
           (Sample.parse_to [Sample.bare "Image"; Sample.styled "Curve" [Tok "c=1"];
                             Sample.bare "Points"])
           unit Sample.eval_literal false Sample.accept_options "Image Curve (c=1) Points" tt []
           _ [Sample.bare "Image"; Sample.styled "Curve" [Tok "c=1"];
              Sample.bare "Points"] eq_refl eq_refl (Sample.bare "Points")).
  simpl. auto.
Defined.

(** ** The options that a line gives its paths *)

Section LineResult.
Import PyDict PyDictFacts PyDictMore OptsSpec ParseSpec MergeSpec LineSpec.

Lemma norm_dict_wf a f : wf (norm_dict a f).
Proof. repeat constructor; cbn; intuition discriminate. Qed.

Lemma process_normalization_wf group w n :
  process_normalization group = (w, inr (Some n)) -> wf n.
Proof.
  intros H. destruct (named norm_options group) as [[|t l]|] eqn:N.
  - rewrite (process_normalization_empty _ N) in H. discriminate.
  - pose proof (process_normalization_checked group (t :: l) N
                  ltac:(discriminate)) as C.
    destruct (NormSpec.rejected (t :: l)).
    + destruct C as (se & C). rewrite C in H. discriminate.
    + rewrite C in H. injection H as _ <-.
      destruct t as [o|]; [|apply norm_dict_wf]. destruct l; [|apply norm_dict_wf].
      destruct (Str.endswith "framewise" o); [apply norm_dict_wf|].
      destruct (Str.endswith "axiswise" o); apply norm_dict_wf.
  - rewrite (process_normalization_absent _ N) in H. discriminate.
Qed.

Lemma categories_wf_set {V} (o : t (t V)) name d :
  wf d -> categories_wf o -> categories_wf (set o name d).
Proof.
  intros Wd. unfold categories_wf.
  induction o as [|[k v] o IH]; cbn [set]; intros Co.
  - repeat constructor. exact Wd.
  - inversion Co; subst. destruct (String.eqb name k); constructor; auto.
Qed.

Variable namespace : Type.
Variable py_eval : namespace -> string -> evaluation.
Variable abort_on_eval_failure : bool.

Lemma group_options_inner ns group w options :
  group_options namespace py_eval abort_on_eval_failure ns group = (w, inr options) ->
  categories_wf options.
Proof.
  unfold group_options.
  destruct (process_normalization group) as [wn [en|normalization]] eqn:Pn;
    [discriminate|].
  cbn [bind].
  set (o1 := match normalization with
             | Some n => set empty "norm" n
             | None => empty
             end).
  assert (H1 : categories_wf o1).
  { subst o1. destruct normalization as [n|]; [|constructor].
    repeat constructor. cbn [snd]. exact (process_normalization_wf _ _ _ Pn). }
  clearbody o1.
  destruct (named plot_options group) as [plotopts|].
  - destruct (Parser.todict _ _ _ (Some plotopts) _ ns) as [wp [ep|dp]].
    + cbn. discriminate.
    + cbn [bind ret]. destruct (named style_options group) as [styleopts|].
      * destruct (Parser.todict _ _ _ (Some styleopts) _ ns) as [ws [es|ds]];
          cbn; [discriminate|].
        intros E. injection E as _ <-.
        repeat apply categories_wf_set; auto using wf_rename_aliases.
      * cbn. intros E. injection E as _ <-.
        apply categories_wf_set; auto using wf_rename_aliases.
  - rewrite bind_ret_l. destruct (named style_options group) as [styleopts|].
    + destruct (Parser.todict _ _ _ (Some styleopts) _ ns) as [ws [es|ds]];
        cbn; [discriminate|].
      intros E. injection E as _ <-.
      apply categories_wf_set; auto using wf_rename_aliases.
    + cbn. intros E. now injection E as _ <-.
Qed.

Lemma group_options_outer ns group w options :
  group_options namespace py_eval abort_on_eval_failure ns group = (w, inr options) ->
  wf options.
Proof.
  intros H.
  destruct (group_options_cases namespace py_eval abort_on_eval_failure ns group)
    as [(w' & e & E & _)|(w' & o & E & W & _)]; rewrite E in H; [discriminate|].
  now injection H as _ <-.
Qed.

(** The dictionary that the loop of [parse] builds. *)
Lemma parse_loop_steps ns yields :
  forall parse0 w parse,
    for_each (parse_step namespace py_eval abort_on_eval_failure ns) yields parse0
    = (w, inr parse) ->
    exists steps,
      resolved namespace py_eval abort_on_eval_failure ns yields steps
      /\ parse = fold_left (fun parse st => assign_paths (fst st) (snd st) parse)
                           steps parse0.
Proof.
  induction yields as [|[S grp] yields IH]; intros parse0 w parse; cbn [for_each].
  - intros [= <- <-]. exists []. split; [constructor | reflexivity].
  - unfold parse_step at 1.
    destruct (group_options namespace py_eval abort_on_eval_failure ns grp)
      as [wo [eo|options]] eqn:G; [discriminate|].
    cbn [bind ret].
    destruct (for_each _ yields (assign_paths S options parse0))
      as [w2 [e2|parse2]] eqn:F; [discriminate|].
    intros [= <- <-]. destruct (IH _ _ _ F) as (steps & R & ->).
    exists ((S, options) :: steps). split; [|reflexivity].
    constructor; [|exact R]. split; [reflexivity|]. now exists wo.
Qed.

Lemma options_from_unmentioned acc p steps :
  mentioned p steps = false -> options_from acc p steps = acc.
Proof.
  unfold options_from, mentioned. revert acc.
  induction steps as [|st steps IH]; intros acc; cbn [fold_left existsb].
  - reflexivity.
  - intros H. apply orb_false_iff in H. destruct H as [H1 H2].
    rewrite H1. now apply IH.
Qed.

Lemma get_assign_steps steps p :
  Forall (fun st => NoDup (fst st)) steps ->
  forall parse0 : t (t (t pyval)),
    get (fold_left (fun parse st => assign_paths (fst st) (snd st) parse)
                   steps parse0) p
    = if mentioned p steps
      then Some (options_from
                   (match get parse0 p with Some o => o | None => empty end)
                   p steps)
      else get parse0 p.
Proof.
  induction 1 as [|[S o] steps HS _ IH]; intros parse0; cbn [fold_left].
  - reflexivity.
  - rewrite IH. cbn [fst snd] in *. rewrite (get_assign_paths S o parse0 p HS).
    unfold mentioned, options_from. cbn [existsb fold_left fst snd].
    fold (mentioned p steps).
    destruct (Str.mem p S); cbn [orb].
    + fold (options_from
              (_merge_options match get parse0 p with
                              | Some o0 => o0
                              | None => empty
                              end o) p steps).
      destruct (mentioned p steps) eqn:M; [reflexivity|].
      now rewrite options_from_unmentioned.
    + reflexivity.
Qed.

Lemma group_paths_sound groups :
  forall active S grp x,
    In (S, grp) (group_paths active groups) -> In x S ->
    In x active \/ exists g, In g groups /\ pathspec g = x.
Proof.
  induction groups as [|g groups IH]; intros active S grp x; cbn [group_paths].
  - destruct active as [|a active]; [intros []|].
    intros [[= <- <-]|[]] I. now left.
  - destruct (has_options g).
    + intros [[= <- <-]|I] Hx.
      * apply set_add_In in Hx. destruct Hx as [->|Hx]; [|now left].
        right. exists g. split; [now left | reflexivity].
      * destruct (IH _ _ _ _ I Hx) as [[]|(g' & I' & E)].
        right. exists g'. split; [now right | exact E].
    + intros I Hx. destruct (IH _ _ _ _ I Hx) as [Ha|(g' & I' & E)].
      * apply set_add_In in Ha. destruct Ha as [->|Ha]; [|now left].
        right. exists g. split; [now left | reflexivity].
      * right. exists g'. split; [now right | exact E].
Qed.

Lemma resolved_sets ns yields steps :
  resolved namespace py_eval abort_on_eval_failure ns yields steps ->
  map fst steps = map fst yields.
Proof.
  induction 1 as [|y st yields steps [E _] _ IH]; cbn [map]; [reflexivity|].
  now rewrite E, IH.
Qed.

Lemma mentioned_iff p (steps : list step) :
  mentioned p steps = true <-> exists S, In S (map fst steps) /\ In p S.
Proof.
  unfold mentioned. rewrite existsb_exists. split.
  - intros (st & I & M). exists (fst st). split; [now apply in_map|].
    now apply mem_In.
  - intros (S & I & Hp). apply in_map_iff in I. destruct I as (st & <- & I).
    exists st. split; [exact I | now apply mem_In].
Qed.

Lemma resolved_wf ns yields steps :
  resolved namespace py_eval abort_on_eval_failure ns yields steps ->
  Forall (fun st => wf (snd st) /\ categories_wf (snd st)) steps.
Proof.
  induction 1 as [|y st yields steps [_ (w & G)] _ IH]; constructor; [|exact IH].
  split; [exact (group_options_outer _ _ _ _ G) | exact (group_options_inner _ _ _ _ G)].
Qed.

(** The options of a path, category by category and key by key. *)
Lemma options_from_keywise p c (steps : list step) :
  Forall (fun st => wf (snd st) /\ categories_wf (snd st)) steps ->
  forall acc,
    contains (options_from acc p steps) c
    = contains acc c || has_category p c steps
    /\ forall m,
         get (options_from acc p steps) c = Some m ->
         forall k,
           get m k = match last_value p c k steps with
                     | Some v => Some v
                     | None => match get acc c with
                               | Some a => get a k
                               | None => None
                               end
                     end.
Proof.
  induction 1 as [|[S o] steps [Wo Co] _ IH]; intros acc.
  - cbn. split; [now rewrite orb_false_r|]. intros m -> k. reflexivity.
  - unfold options_from, has_category. cbn [fold_left existsb last_value fst snd].
    fold (has_category p c steps).
    destruct (Str.mem p S); cbn [andb orb].
    + fold (options_from (_merge_options acc o) p steps).
      destruct (IH (_merge_options acc o)) as [Hc Hk]. split.
      * rewrite Hc, contains_merge. now rewrite orb_assoc.
      * intros m G k. rewrite (Hk m G k).
        destruct (last_value p c k steps); [reflexivity|].
        rewrite (get_merge_options acc o c Wo).
        destruct (get o c) as [n|] eqn:On; [|reflexivity].
        rewrite get_update by exact (categories_wf_get o c n Co On).
        destruct (get n k); [reflexivity|]. now destruct (get acc c).
    + fold (options_from acc p steps).
      destruct (IH acc) as [Hc Hk]. split; [exact Hc|].
      intros m G k. rewrite (Hk m G k). now destruct (last_value p c k steps).
Qed.

Lemma resolved_functional ns yields steps steps' :
  resolved namespace py_eval abort_on_eval_failure ns yields steps ->
  resolved namespace py_eval abort_on_eval_failure ns yields steps' ->
  steps = steps'.
Proof.
  intros R. revert steps'.
  induction R as [|y [S o] yields steps [E (w & G)] _ IH]; intros steps' R'.
  - now inversion R'.
  - inversion R' as [|? [S' o'] ? steps2 [E' (w' & G')] R2]; subst.
    cbn [fst snd] in *. rewrite G in G'. injection G' as _ <-.
    f_equal; [congruence | now apply IH].
Qed.

Lemma options_for_app p before S options after :
  Str.mem p S = true ->
  options_for p (before ++ (S, options) :: after)
  = options_from (_merge_options (options_for p before) options) p after.
Proof.
  intros M. unfold options_for, options_from.
  rewrite fold_left_app. cbn [fold_left fst snd]. now rewrite M.
Qed.

Lemma get_merge_empty (options : t (t pyval)) c :
  wf options -> categories_wf options ->
  get (_merge_options empty options) c = get options c.
Proof.
  intros W C. rewrite (get_merge_options empty options c W).
  destruct (get options c) as [n|] eqn:G; [|reflexivity].
  change (get empty c) with (@None (t pyval)). cbn iota.
  now rewrite (update_empty n (categories_wf_get options c n C G)).
Qed.

Variable scanString : string -> list (list spec_group * nat * nat).
Variable parseString : string -> exn + list spec_group.
Variable options_error : PyDict.t pyval -> option exn.

(** What a line that parses gives each of its paths. *)
Lemma parse_entries line ns w result :
  parse scanString parseString namespace py_eval abort_on_eval_failure options_error
    line ns = (w, inr result) ->
  exists groups steps,
    parseString line = inr groups
    /\ resolved namespace py_eval abort_on_eval_failure ns
         (_group_paths_without_options groups) steps
    /\ (forall g, In g groups -> mentioned (pathspec g) steps = true)
    /\ forall p,
         mentioned p steps = true ->
         unambiguous (map pathspec groups) p ->
         exists entry,
           get result (returned_name p) = Some entry
           /\ forall c,
                get entry c = option_map mkOptions (get (options_for p steps) c).
Proof.
  intros H.
  destruct (parse_returns _ _ _ _ _ _ _ _ _ _ H)
    as (groups & w1 & parse0 & w2 & P & F & D).
  destruct (parse_loop_steps _ _ _ _ _ F) as (steps & R & E).
  pose proof (resolved_sets _ _ _ R) as Sets.
  assert (Hsets : Forall (fun st => NoDup (fst st)) steps).
  { apply Forall_forall. intros st I.
    assert (I' : In (fst st) (map fst (_group_paths_without_options groups))).
    { rewrite <- Sets. now apply in_map. }
    apply in_map_iff in I'. destruct I' as (y & Ey & Iy).
    pose proof (group_paths_sets groups [] (NoDup_nil _)) as G.
    rewrite Forall_forall in G. destruct (G y Iy) as (_ & N & _).
    now rewrite <- Ey. }
  assert (Hget : forall p, get parse0 p
                           = if mentioned p steps
                             then Some (options_for p steps) else None).
  { intros p. rewrite E, (get_assign_steps steps p Hsets). reflexivity. }
  exists groups, steps. split; [exact P|]. split; [exact R|]. split.
  - intros g I.
    destruct (group_paths_cover groups [] (pathspec g)
                (or_intror (ex_intro _ g (conj I eq_refl)))) as (S & grp & IS & Hp).
    apply mentioned_iff. exists S. split; [|exact Hp].
    rewrite Sets. change S with (fst (S, grp)). now apply in_map.
  - intros p M U.
    assert (G : get parse0 p = Some (options_for p steps)) by now rewrite Hget, M.
    destruct (parse_loop_keeps _ _ _ _ _ _ _ F) as [W0 C0].
    destruct (C0 p _ G) as [Wp _].
    unfold deprecated_paths in D.
    destruct (deprecated_loop_entry options_error parse0 W0 _ _ _ p _ D
                (get_in _ _ _ G)) as (entry & T & Ge).
    + intros q Iq Eq. apply U; [|exact Eq].
      assert (Mq : mentioned q steps = true).
      { destruct (mentioned q steps) eqn:Mq; [reflexivity|].
        apply get_none_keys in Iq; [contradiction|]. now rewrite Hget, Mq. }
      apply mentioned_iff in Mq. destruct Mq as (S & IS & Hq).
      rewrite Sets in IS. apply in_map_iff in IS. destruct IS as ([S' grp] & <- & IS).
      destruct (group_paths_sound groups [] S' grp q IS Hq) as [[]|(g & Ig & <-)].
      now apply in_map.
    + exists entry. split; [exact Ge|].
      destruct (to_options_returns options_error _ _ _ T) as (_ & _ & Hc).
      exact (Hc Wp).
Qed.

(** What the steps give a path that no other path shares its name with:
    key by key, and as the merge of the options of the steps. *)
Lemma parse_entry_of line ns w result groups steps p :
  parse scanString parseString namespace py_eval abort_on_eval_failure options_error
    line ns = (w, inr result) ->
  parseString line = inr groups ->
  resolved namespace py_eval abort_on_eval_failure ns
    (_group_paths_without_options groups) steps ->
  mentioned p steps = true ->
  unambiguous (map pathspec groups) p ->
  exists entry,
    get result (returned_name p) = Some entry
    /\ forall c, get entry c = option_map mkOptions (get (options_for p steps) c).
Proof.
  intros H P R M U.
  destruct (parse_entries line ns w result H) as (groups' & steps' & P' & R' & _ & He).
  rewrite P in P'. injection P' as <-.
  rewrite <- (resolved_functional _ _ _ _ R R') in He. now apply He.
Qed.

Lemma parse_mentions line ns w result groups steps g :
  parse scanString parseString namespace py_eval abort_on_eval_failure options_error
    line ns = (w, inr result) ->
  parseString line = inr groups ->
  resolved namespace py_eval abort_on_eval_failure ns
    (_group_paths_without_options groups) steps ->
  In g groups -> mentioned (pathspec g) steps = true.
Proof.
  intros H P R I.
  destruct (parse_entries line ns w result H) as (groups' & steps' & P' & R' & Hm & _).
  rewrite P in P'. injection P' as <-.
  rewrite (resolved_functional _ _ _ _ R R'). now apply Hm.
Qed.

(** When the scan covers the line, the groups resolve and the constructor
    of [Options] accepts the keywords of every path, [parse] returns. *)
Lemma parse_loop_total ns yields steps :
  resolved namespace py_eval abort_on_eval_failure ns yields steps ->
  forall parse0, exists w,
    for_each (parse_step namespace py_eval abort_on_eval_failure ns) yields parse0
    = (w, inr (fold_left (fun parse st => assign_paths (fst st) (snd st) parse)
                         steps parse0)).
Proof.
  induction 1 as [|[S grp] [S' options] yields steps (ES & wo & G) R IH];
    intros parse0.
  - exists []. reflexivity.
  - cbn [fst snd] in ES, G. subst S'. cbn [for_each]. unfold parse_step at 1.
    rewrite G. cbn [bind ret fold_left fst snd].
    destruct (IH (assign_paths S options parse0)) as (w & ->).
    eexists. reflexivity.
Qed.

Lemma to_options_total (options : t (t pyval)) :
  (forall c kw, In (c, kw) options -> options_error kw = None) ->
  exists r, to_options options_error options = ret r.
Proof.
  unfold to_options. generalize (@empty Options).
  induction options as [|[c kw] options IH]; intros acc H; cbn [for_each].
  - now exists acc.
  - cbn [fst snd]. unfold new_options at 1. rewrite (H c kw (or_introl eq_refl)).
    rewrite !bind_ret_l. apply IH. intros c' kw' I. apply (H c' kw'). now right.
Qed.

Lemma deprecated_total (parse0 : t (t (t pyval))) :
  (forall p o c kw, In (p, o) parse0 -> In (c, kw) o -> options_error kw = None) ->
  exists w r, deprecated_paths options_error parse0 = (w, inr r).
Proof.
  unfold deprecated_paths. generalize (@empty (t Options)).
  induction parse0 as [|[p o] parse0 IH]; intros acc H; cbn [for_each].
  - now exists [], acc.
  - cbn [fst snd]. destruct (returned_name_spec p) as (wp & ->).
    destruct (to_options_total o) as (r & ->).
    { intros c kw. apply (H p o). now left. }
    cbn [bind ret].
    destruct (IH (set acc (returned_name p) r)) as (w & r' & ->).
    { intros p' o' c kw I. apply (H p' o'). now right. }
    eexists _, _. reflexivity.
Qed.

Lemma parse_total line ns toks start e groups steps :
  scanString line = [(toks, start, e)] ->
  Str.strip (Str.take e line) = Str.strip line ->
  parseString line = inr groups ->
  resolved namespace py_eval abort_on_eval_failure ns
    (_group_paths_without_options groups) steps ->
  (forall p c kw,
      mentioned p steps = true ->
      get (options_for p steps) c = Some kw ->
      options_error kw = None) ->
  exists w result,
    parse scanString parseString namespace py_eval abort_on_eval_failure
      options_error line ns = (w, inr result).
Proof.
  intros Hscan Hstrip Hparse R Hok.
  destruct (parse_loop_total ns _ _ R empty) as (w1 & F).
  destruct (parse_loop_keeps _ _ _ _ _ _ _ F) as [W0 C0].
  pose proof (resolved_sets _ _ _ R) as Sets.
  assert (Hsets : Forall (fun st => NoDup (fst st)) steps).
  { apply Forall_forall. intros st I.
    assert (I' : In (fst st) (map fst (_group_paths_without_options groups))).
    { rewrite <- Sets. now apply in_map. }
    apply in_map_iff in I'. destruct I' as (y & Ey & Iy).
    pose proof (group_paths_sets groups [] (NoDup_nil _)) as G.
    rewrite Forall_forall in G. destruct (G y Iy) as (_ & N & _).
    now rewrite <- Ey. }
  destruct (deprecated_total
              (fold_left (fun parse st => assign_paths (fst st) (snd st) parse)
                         steps empty)) as (w2 & result & D).
  { intros p o c kw Ip Ic.
    apply (in_get _ _ _ W0) in Ip.
    destruct (C0 p o Ip) as [Wo _].
    apply (in_get _ _ _ Wo) in Ic.
    rewrite (get_assign_steps steps p Hsets) in Ip.
    destruct (mentioned p steps) eqn:M; [|discriminate].
    injection Ip as <-. now apply (Hok p c kw). }
  exists (w1 ++ w2), result.
  unfold parse. rewrite Hscan. cbn [snd].
  rewrite Hstrip, String.eqb_refl. cbn [negb]. rewrite bind_ret_l.
  rewrite Hparse. change (@nil warning, @inr exn _ ?x) with (ret x).
  rewrite bind_ret_l. rewrite F. cbn [bind]. rewrite D. reflexivity.
Qed.

End LineResult.

(** C2, as the code has it: [_merge_options] merges every category
    key-wise: a category of [new_opts] only is copied, a category of
    [old_opts] only is kept, and in a category of both every key takes its
    new value when it has one and keeps its old value otherwise.
    [OptsSpec.parse] returns when the scan covers the line, the options of
    the groups resolve and the constructor of [Options] accepts the
    keywords of every path.  Consequently, when it returns, a path of the
    line that no other path of the line is returned under the same name
    with has, in every category, the key-wise union of the options of the
    groups it stands before or with: the entry has a category exactly when
    one of these groups has it, and every key has the value of the last of
    these groups that sets it. *)
Theorem merge_options_keywise :
  (forall (V : Type) (old_opts new_opts : PyDict.t (PyDict.t V)),
      PyDict.wf new_opts ->
      Forall (fun kv => PyDict.wf (snd kv)) new_opts ->
      forall c,
        match PyDict.get new_opts c with
        | None =>
            PyDict.get (OptsSpec._merge_options old_opts new_opts) c
            = PyDict.get old_opts c
        | Some n =>
            exists m,
              PyDict.get (OptsSpec._merge_options old_opts new_opts) c = Some m /\
              forall k,
                PyDict.get m k =
                match PyDict.get n k, PyDict.get old_opts c with
                | Some v, _ => Some v
                | None, Some o => PyDict.get o k
                | None, None => None
                end
        end)
  /\
  (forall scanString parseString namespace py_eval abort_on_eval_failure
          options_error line (ns : namespace) toks start e groups steps,
      scanString line = [(toks, start, e)] ->
      Str.strip (Str.take e line) = Str.strip line ->
      parseString line = inr groups ->
      LineSpec.resolved namespace py_eval abort_on_eval_failure ns
        (OptsSpec._group_paths_without_options groups) steps ->
      (forall p c kw,
          LineSpec.mentioned p steps = true ->
          PyDict.get (LineSpec.options_for p steps) c = Some kw ->
          options_error kw = None) ->
      exists w result,
        OptsSpec.parse scanString parseString namespace py_eval
          abort_on_eval_failure options_error line ns = (w, inr result))
  /\
  (forall scanString parseString namespace py_eval abort_on_eval_failure
          options_error line (ns : namespace) w result,
      OptsSpec.parse scanString parseString namespace py_eval
        abort_on_eval_failure options_error line ns = (w, inr result) ->
      exists groups steps,
        parseString line = inr groups
        /\ LineSpec.resolved namespace py_eval abort_on_eval_failure ns
             (OptsSpec._group_paths_without_options groups) steps)
  /\
  (forall scanString parseString namespace py_eval abort_on_eval_failure
          options_error line (ns : namespace) w result groups steps g,
      OptsSpec.parse scanString parseString namespace py_eval
        abort_on_eval_failure options_error line ns = (w, inr result) ->
      parseString line = inr groups ->
      LineSpec.resolved namespace py_eval abort_on_eval_failure ns
        (OptsSpec._group_paths_without_options groups) steps ->
      In g groups ->
      LineSpec.unambiguous (map OptsSpec.pathspec groups) (OptsSpec.pathspec g) ->
      exists entry,
        PyDict.get result (LineSpec.returned_name (OptsSpec.pathspec g)) = Some entry
        /\ forall c,
             match PyDict.get entry c with
             | Some o =>
                 LineSpec.has_category (OptsSpec.pathspec g) c steps = true
                 /\ forall k,
                      PyDict.get (kwargs o) k
                      = LineSpec.last_value (OptsSpec.pathspec g) c k steps
             | None => LineSpec.has_category (OptsSpec.pathspec g) c steps = false
             end).
Proof.
  split; [|split; [|split]].
  - intros V old_opts new_opts Hwf Hin c.
    rewrite get_merge_options by assumption.
    destruct (PyDict.get new_opts c) as [n|] eqn:E; [|reflexivity].
    eexists. split; [reflexivity|]. intros k.
    assert (Hn : PyDict.wf n).
    { apply get_in in E. rewrite Forall_forall in Hin. apply (Hin _ E). }
    rewrite PyDictFacts.get_update by assumption.
    destruct (PyDict.get n k); [reflexivity|].
    now destruct (PyDict.get old_opts c).
  - intros scanString parseString namespace py_eval abort options_error line ns
      toks start e groups steps Hscan Hstrip Hparse R Hok.
    now apply (parse_total namespace py_eval abort scanString parseString
                 options_error line ns toks start e groups steps).
  - intros scanString parseString namespace py_eval abort options_error line ns
      w result H.
    destruct (parse_entries _ _ _ _ _ _ _ _ _ _ H) as (groups & steps & P & R & _).
    now exists groups, steps.
  - intros scanString parseString namespace py_eval abort options_error line ns
      w result groups steps g H P R I U.
    pose proof (parse_mentions _ _ _ _ _ _ _ _ _ _ _ _ g H P R I) as M.
    destruct (parse_entry_of _ _ _ _ _ _ _ _ _ _ _ _ _ H P R M U) as (entry & Ge & Hc).
    exists entry. split; [exact Ge|]. intros c. rewrite Hc.
    destruct (options_from_keywise (OptsSpec.pathspec g) c steps
                (resolved_wf _ _ _ _ _ _ R) PyDict.empty) as [Hcat Hkey].
    fold (LineSpec.options_for (OptsSpec.pathspec g) steps) in Hcat, Hkey.
    change (PyDict.contains PyDict.empty c) with false in Hcat.
    cbn [orb] in Hcat. unfold PyDict.contains in Hcat.
    destruct (PyDict.get (LineSpec.options_for (OptsSpec.pathspec g) steps) c)
      as [m|] eqn:G; cbn [option_map].
    + split; [now rewrite <- Hcat|]. intros k. cbn [kwargs].
      rewrite (Hkey m eq_refl k).
      now destruct (LineSpec.last_value (OptsSpec.pathspec g) c k steps).
    + now rewrite <- Hcat.
Qed.

Lemma merge_options_keywise_witness :
  (exists m,
      PyDict.get (OptsSpec._merge_options
                    [("a", [("x", "old"); ("y", "old")])]
                    [("a", [("y", "new"); ("z", "new")]); ("b", [("k", "new")])]) "a"
      = Some m /\
      PyDict.get m "x" = Some "old" /\ PyDict.get m "y" = Some "new" /\
      PyDict.get m "z" = Some "new")
  /\
  (exists result entry o,
      OptsSpec.parse
        (Sample.scan_one [Sample.styled "Curve" [Tok "x=1"];
                          Sample.styled "Curve" [Tok "y=2"]] 23)
        (Sample.parse_to [Sample.styled "Curve" [Tok "x=1"];
                          Sample.styled "Curve" [Tok "y=2"]])
        unit Sample.eval_literal false Sample.accept_options
        "Curve (x=1) Curve (y=2)" tt = ret result
      /\ PyDict.get result (LineSpec.returned_name "Curve") = Some entry
      /\ PyDict.get entry "style" = Some o
      /\ PyDict.get (kwargs o) "x" = Some (PyInt 1)
      /\ PyDict.get (kwargs o) "y" = Some (PyInt 2)).
Proof.
  destruct merge_options_keywise as (H1 & _ & _ & H3). split.
  - destruct (H1 string [("a", [("x", "old"); ("y", "old")])]
                [("a", [("y", "new"); ("z", "new")]); ("b", [("k", "new")])])
      with (c := "a") as (m & Hm & Hk).
    + repeat constructor; simpl; intuition discriminate.
    + repeat constructor; simpl; intuition discriminate.
    + exists m. split; [exact Hm|].
      repeat split; [apply (Hk "x") | apply (Hk "y") | apply (Hk "z")].
  - destruct (H3 (Sample.scan_one [Sample.styled "Curve" [Tok "x=1"];
                                   Sample.styled "Curve" [Tok "y=2"]] 23)
                 (Sample.parse_to [Sample.styled "Curve" [Tok "x=1"];
                                   Sample.styled "Curve" [Tok "y=2"]])
                 unit Sample.eval_literal false Sample.accept_options
                 "Curve (x=1) Curve (y=2)" tt []
                 [("Curve", [("style", mkOptions [("x", PyInt 1); ("y", PyInt 2)])])]
                 [Sample.styled "Curve" [Tok "x=1"]; Sample.styled "Curve" [Tok "y=2"]]
                 [(["Curve"], [("style", [("x", PyInt 1)])]);
                  (["Curve"], [("style", [("y", PyInt 2)])])]
                 (Sample.styled "Curve" [Tok "x=1"]))
      as (entry & Ge & Hc).
    + reflexivity.
    + reflexivity.
    + repeat constructor; cbn [fst snd]; exists []; reflexivity.
    + simpl. auto.
    + intros q [<-|[<-|[]]] _; reflexivity.
    + specialize (Hc "style").
      destruct (PyDict.get entry "style") as [o|] eqn:Go; [|discriminate Hc].
      destruct Hc as [_ Hk].
      exists [("Curve", [("style", mkOptions [("x", PyInt 1); ("y", PyInt 2)])])],
             entry, o.
      repeat split; [exact Ge | exact Go | apply (Hk "x") | apply (Hk "y")].
Defined.

(** The line "Image (x=1) Image (y=2) GridImage" names the path Image twice
    with different style keys, and it parses to Image mapped to the empty
    dictionary: the path GridImage, which has no options, is returned as
    Image and takes the place of the entry with the union. *)
Lemma merge_options_keywise_counterexample :
  OptsSpec.parse
    (Sample.scan_one [Sample.styled "Image" [Tok "x=1"];
                      Sample.styled "Image" [Tok "y=2"];
                      Sample.bare "GridImage"] 33)
    (Sample.parse_to [Sample.styled "Image" [Tok "x=1"];
                      Sample.styled "Image" [Tok "y=2"];
                      Sample.bare "GridImage"])
    unit Sample.eval_literal false Sample.accept_options
    "Image (x=1) Image (y=2) GridImage" tt
  = ([ElementDeprecated "GridImage" "Image"], inr [("Image", [])])
  /\ ~ (forall scanString parseString namespace py_eval abort_on_eval_failure
               options_error line (ns : namespace) w result groups steps g,
          OptsSpec.parse scanString parseString namespace py_eval
            abort_on_eval_failure options_error line ns = (w, inr result) ->
          parseString line = inr groups ->
          LineSpec.resolved namespace py_eval abort_on_eval_failure ns
            (OptsSpec._group_paths_without_options groups) steps ->
          In g groups ->
          exists entry,
            PyDict.get result (LineSpec.returned_name (OptsSpec.pathspec g))
            = Some entry
            /\ forall c,
                 match PyDict.get entry c with
                 | Some o =>
                     LineSpec.has_category (OptsSpec.pathspec g) c steps = true
                     /\ forall k,
                          PyDict.get (kwargs o) k
                          = LineSpec.last_value (OptsSpec.pathspec g) c k steps
                 | None =>
                     LineSpec.has_category (OptsSpec.pathspec g) c steps = false
                 end).
Proof.
  split; [reflexivity|]. intros H.
  destruct (H (Sample.scan_one [Sample.styled "Image" [Tok "x=1"];
                                Sample.styled "Image" [Tok "y=2"];
                                Sample.bare "GridImage"] 33)
              (Sample.parse_to [Sample.styled "Image" [Tok "x=1"];
                                Sample.styled "Image" [Tok "y=2"];
                                Sample.bare "GridImage"])
              unit Sample.eval_literal false Sample.accept_options
              "Image (x=1) Image (y=2) GridImage" tt
              [ElementDeprecated "GridImage" "Image"] [("Image", [])]
              [Sample.styled "Image" [Tok "x=1"]; Sample.styled "Image" [Tok "y=2"];
               Sample.bare "GridImage"]
              [(["Image"], [("style", [("x", PyInt 1)])]);
               (["Image"], [("style", [("y", PyInt 2)])]);
               (["GridImage"], [])]
              (Sample.styled "Image" [Tok "x=1"]))
    as (entry & Ge & Hc).
  - reflexivity.
  - reflexivity.
  - repeat constructor; cbn [fst snd]; exists []; reflexivity.
  - simpl. auto.
  - injection Ge as <-. specialize (Hc "style"). discriminate Hc.
Qed.

(** C3, as the code has it: the path specifications of consecutive groups
    without options are accumulated, and the first group with an options
    category is yielded with all of them and its own path; every path of a
    yielded set gets the options of that group merged into what it had, and
    no other path changes; paths left over at the end of the line are
    yielded with no options.  [OptsSpec.parse] returns when the scan covers
    the line, the options of the groups resolve and the constructor of
    [Options] accepts the keywords of every path.  In the dictionary
    returned, a path that no other path of the line is returned under the
    same name with has the options of the groups it was yielded with,
    merged in order, under the name that the deprecation table gives it:
    those of the one group when it was yielded once.  A line that is a
    single bare path parses to the path, with a deprecated first component
    replaced, mapped to the empty dictionary, and to the path itself when
    nothing is deprecated. *)
Theorem paths_share_options :
  (forall bare g rest,
      Forall (fun b => OptsSpec.has_options b = false) bare ->
      OptsSpec.has_options g = true ->
      OptsSpec._group_paths_without_options (bare ++ g :: rest)
      = (paths_of (bare ++ [g]), Some g)
          :: OptsSpec._group_paths_without_options rest)
  /\ (forall bare,
        bare <> [] ->
        Forall (fun b => OptsSpec.has_options b = false) bare ->
        OptsSpec._group_paths_without_options bare = [(paths_of bare, None)])
  /\ (forall namespace py_eval abort_on_eval_failure (ns : namespace)
             parse groups group w options,
        OptsSpec.group_options namespace py_eval abort_on_eval_failure ns group
        = (w, inr options) ->
        exists parse',
          OptsSpec.parse_step namespace py_eval abort_on_eval_failure ns parse
            (paths_of groups, group) = (w, inr parse') /\
          forall p,
            PyDict.get parse' p =
            if Str.mem p (paths_of groups)
            then Some (OptsSpec._merge_options
                         (match PyDict.get parse p with
                          | Some o => o
                          | None => PyDict.empty
                          end) options)
            else PyDict.get parse p)
  /\ (forall namespace py_eval abort_on_eval_failure (ns : namespace),
        OptsSpec.group_options namespace py_eval abort_on_eval_failure ns None
        = ret PyDict.empty)
  /\ (forall scanString parseString namespace py_eval abort_on_eval_failure
             options_error line (ns : namespace) toks start e groups steps,
        scanString line = [(toks, start, e)] ->
        Str.strip (Str.take e line) = Str.strip line ->
        parseString line = inr groups ->
        LineSpec.resolved namespace py_eval abort_on_eval_failure ns
          (OptsSpec._group_paths_without_options groups) steps ->
        (forall p c kw,
            LineSpec.mentioned p steps = true ->
            PyDict.get (LineSpec.options_for p steps) c = Some kw ->
            options_error kw = None) ->
        exists w result,
          OptsSpec.parse scanString parseString namespace py_eval
            abort_on_eval_failure options_error line ns = (w, inr result))
  /\ (forall scanString parseString namespace py_eval abort_on_eval_failure
             options_error line (ns : namespace) w result,
        OptsSpec.parse scanString parseString namespace py_eval
          abort_on_eval_failure options_error line ns = (w, inr result) ->
        exists groups steps,
          parseString line = inr groups
          /\ LineSpec.resolved namespace py_eval abort_on_eval_failure ns
               (OptsSpec._group_paths_without_options groups) steps)
  /\ (forall scanString parseString namespace py_eval abort_on_eval_failure
             options_error line (ns : namespace) w result groups steps
             before S options after p,
        OptsSpec.parse scanString parseString namespace py_eval
          abort_on_eval_failure options_error line ns = (w, inr result) ->
        parseString line = inr groups ->
        LineSpec.resolved namespace py_eval abort_on_eval_failure ns
          (OptsSpec._group_paths_without_options groups) steps ->
        steps = before ++ (S, options) :: after ->
        In p S ->
        LineSpec.unambiguous (map OptsSpec.pathspec groups) p ->
        exists entry,
          PyDict.get result (LineSpec.returned_name p) = Some entry
          /\ (forall c,
                PyDict.get entry c
                = option_map mkOptions
                    (PyDict.get
                       (LineSpec.options_from
                          (OptsSpec._merge_options
                             (LineSpec.options_for p before) options) p after) c))
          /\ (LineSpec.mentioned p before = false ->
              LineSpec.mentioned p after = false ->
              forall c,
                PyDict.get entry c = option_map mkOptions (PyDict.get options c)))
  /\ (forall scanString parseString namespace py_eval abort_on_eval_failure
             options_error line (ns : namespace) path toks start e,
        scanString line = [(toks, start, e)] ->
        Str.strip (Str.take e line) = Str.strip line ->
        parseString line = inr [Sample.bare path] ->
        exists wd key,
          OptsSpec.apply_deprecations path = (wd, inr key) /\
          OptsSpec.parse scanString parseString namespace py_eval
            abort_on_eval_failure options_error line ns = (wd, inr [(key, [])]) /\
          (hd "" (Str.split "." path) <> "GridImage" -> wd = [] /\ key = path)).
Proof.
  split; [|split; [|split; [|split; [|split; [|split; [|split]]]]]].
  - intros bare g rest Hb Hg. apply group_paths_options; assumption.
  - intros bare Hn Hb. unfold OptsSpec._group_paths_without_options.
    rewrite group_paths_trailing by assumption. fold (paths_of bare).
    destruct (paths_of bare) eqn:E; [|reflexivity].
    destruct bare as [|b bare]; [congruence|].
    unfold paths_of in E. cbn [fold_left] in E.
    now apply add_all_nonempty in E; [|apply set_add_nonempty].
  - intros namespace py_eval abort ns parse groups group w options H.
    exists (OptsSpec.assign_paths (paths_of groups) options parse).
    split; [now apply parse_step_assigns|].
    intros p. apply get_assign_paths, paths_of_NoDup.
  - reflexivity.
  - intros scanString parseString namespace py_eval abort options_error line ns
      toks start e groups steps Hscan Hstrip Hparse R Hok.
    now apply (parse_total namespace py_eval abort scanString parseString
                 options_error line ns toks start e groups steps).
  - intros scanString parseString namespace py_eval abort options_error line ns
      w result H.
    destruct (parse_entries _ _ _ _ _ _ _ _ _ _ H) as (groups & steps & P & R & _).
    now exists groups, steps.
  - intros scanString parseString namespace py_eval abort options_error line ns
      w result groups steps before S options after p H P R E Hp U.
    assert (Mp : Str.mem p S = true) by now apply mem_In.
    assert (M : LineSpec.mentioned p steps = true).
    { subst steps. unfold LineSpec.mentioned. rewrite existsb_app.
      cbn [existsb fst]. rewrite Mp. now rewrite orb_true_r. }
    destruct (parse_entry_of _ _ _ _ _ _ _ _ _ _ _ _ _ H P R M U) as (entry & Ge & Hc).
    exists entry. split; [exact Ge|]. subst steps.
    rewrite (options_for_app p before S options after Mp) in Hc.
    split; [exact Hc|].
    intros Mb Ma c. rewrite Hc.
    unfold LineSpec.options_for.
    rewrite (options_from_unmentioned _ p before Mb).
    rewrite (options_from_unmentioned _ p after Ma).
    pose proof (resolved_wf _ _ _ _ _ _ R) as W.
    rewrite Forall_app in W. destruct W as [_ W].
    inversion W as [|? ? [Wo Co] _]; subst. cbn [snd] in *.
    now rewrite (get_merge_empty options c Wo Co).
  - intros scanString parseString namespace py_eval abort options_error line ns
      path toks start e Hscan Hstrip Hparse.
    destruct (parse_bare_path scanString parseString namespace py_eval abort
                options_error line ns path toks start e Hscan Hstrip Hparse)
      as (wd & key & Hd & Hp).
    exists wd, key. split; [assumption|]. split; [assumption|].
    intros N. rewrite (not_deprecated path N) in Hd. now injection Hd.
Qed.

Lemma paths_share_options_witness :
  exists result entry,
    OptsSpec.parse
      (Sample.scan_one [Sample.bare "Image"; Sample.styled "Curve" [Tok "c=1"];
                        Sample.bare "Points"] 24)
      (Sample.parse_to [Sample.bare "Image"; Sample.styled "Curve" [Tok "c=1"];
                        Sample.bare "Points"])
      unit Sample.eval_literal false Sample.accept_options
      "Image Curve (c=1) Points" tt = ret result
    /\ PyDict.get result (LineSpec.returned_name "Image") = Some entry
    /\ forall c,
         PyDict.get entry c
         = option_map mkOptions (PyDict.get [("style", [("c", PyInt 1)])] c).
Proof.
  destruct paths_share_options as (_ & _ & _ & _ & _ & _ & H & _).
  destruct (H (Sample.scan_one [Sample.bare "Image"; Sample.styled "Curve" [Tok "c=1"];
                                Sample.bare "Points"] 24)
              (Sample.parse_to [Sample.bare "Image"; Sample.styled "Curve" [Tok "c=1"];
                                Sample.bare "Points"])
              unit Sample.eval_literal false Sample.accept_options
              "Image Curve (c=1) Points" tt []
              [("Image", [("style", mkOptions [("c", PyInt 1)])]);
               ("Curve", [("style", mkOptions [("c", PyInt 1)])]);
               ("Points", [])]
              [Sample.bare "Image"; Sample.styled "Curve" [Tok "c=1"];
               Sample.bare "Points"]
              [(["Image"; "Curve"], [("style", [("c", PyInt 1)])]); (["Points"], [])]
              [] ["Image"; "Curve"] [("style", [("c", PyInt 1)])] [(["Points"], [])]
              "Image")
    as (entry & Ge & _ & Hc).
  - reflexivity.
  - reflexivity.
  - repeat constructor; cbn [fst snd]; exists []; reflexivity.
  - reflexivity.
  - simpl. auto.
  - intros q [<-|[<-|[<-|[]]]]; reflexivity || discriminate.
  - exists [("Image", [("style", mkOptions [("c", PyInt 1)])]);
            ("Curve", [("style", mkOptions [("c", PyInt 1)])]);
            ("Points", [])], entry.
    split; [reflexivity|]. split; [exact Ge|]. apply Hc; reflexivity.
Defined.

(** The line "GridImage" is a single bare path, and it parses to the path
    "Image" mapped to the empty dictionary, with a deprecation warning: not
    to "GridImage".  On the line "GridImage (x=1) Image (y=2)" the path
    GridImage is yielded with the group that has x=1, and the dictionary
    returned has the one entry Image with y=2: x=1 is in no entry. *)
Lemma paths_share_options_counterexample :
  OptsSpec.parse (Sample.scan_one [Sample.bare "GridImage"] 9)
    (Sample.parse_to [Sample.bare "GridImage"]) unit Sample.eval_literal false
    Sample.accept_options "GridImage" tt
  = ([ElementDeprecated "GridImage" "Image"], inr [("Image", [])])
  /\ outcome (OptsSpec.parse (Sample.scan_one [Sample.bare "GridImage"] 9)
                (Sample.parse_to [Sample.bare "GridImage"]) unit
                Sample.eval_literal false Sample.accept_options "GridImage" tt)
     <> inr [("GridImage", [])]
  /\ OptsSpec._group_paths_without_options
       [Sample.styled "GridImage" [Tok "x=1"]; Sample.styled "Image" [Tok "y=2"]]
     = [(["GridImage"], Some (Sample.styled "GridImage" [Tok "x=1"]));
        (["Image"], Some (Sample.styled "Image" [Tok "y=2"]))]
  /\ OptsSpec.parse
       (Sample.scan_one [Sample.styled "GridImage" [Tok "x=1"];
                         Sample.styled "Image" [Tok "y=2"]] 27)
       (Sample.parse_to [Sample.styled "GridImage" [Tok "x=1"];
                         Sample.styled "Image" [Tok "y=2"]])
       unit Sample.eval_literal false Sample.accept_options
       "GridImage (x=1) Image (y=2)" tt
     = ([ElementDeprecated "GridImage" "Image"],
        inr [("Image", [("style", mkOptions [("y", PyInt 2)])])])
  /\ ~ (forall scanString parseString namespace py_eval abort_on_eval_failure
               options_error line (ns : namespace) w result groups steps
               before S options after p,
          OptsSpec.parse scanString parseString namespace py_eval
            abort_on_eval_failure options_error line ns = (w, inr result) ->
          parseString line = inr groups ->
          LineSpec.resolved namespace py_eval abort_on_eval_failure ns
            (OptsSpec._group_paths_without_options groups) steps ->
          steps = before ++ (S, options) :: after ->
          In p S ->
          exists entry,
            PyDict.get result (LineSpec.returned_name p) = Some entry
            /\ forall c,
                 PyDict.get entry c
                 = option_map mkOptions
                     (PyDict.get
                        (LineSpec.options_from
                           (OptsSpec._merge_options
                              (LineSpec.options_for p before) options) p after)
                        c)).
Proof.
  repeat split; [discriminate|]. intros H.
  destruct (H (Sample.scan_one [Sample.styled "GridImage" [Tok "x=1"];
                                Sample.styled "Image" [Tok "y=2"]] 27)
              (Sample.parse_to [Sample.styled "GridImage" [Tok "x=1"];
                                Sample.styled "Image" [Tok "y=2"]])
              unit Sample.eval_literal false Sample.accept_options
              "GridImage (x=1) Image (y=2)" tt
              [ElementDeprecated "GridImage" "Image"]
              [("Image", [("style", mkOptions [("y", PyInt 2)])])]
              [Sample.styled "GridImage" [Tok "x=1"]; Sample.styled "Image" [Tok "y=2"]]
              [(["GridImage"], [("style", [("x", PyInt 1)])]);
               (["Image"], [("style", [("y", PyInt 2)])])]
              [] ["GridImage"] [("style", [("x", PyInt 1)])]
              [(["Image"], [("style", [("y", PyInt 2)])])] "GridImage")
    as (entry & Ge & Hc).
  - reflexivity.
  - reflexivity.
  - repeat constructor; cbn [fst snd]; exists []; reflexivity.
  - reflexivity.
  - simpl. auto.
  - injection Ge as <-. specialize (Hc "style"). discriminate Hc.
Qed.

(** ** Compositor definitions, group by group *)

Section CompositorParse.
Import CompositorSpec CompositorFacts.

Variable scanString : string -> list (list comp_group * nat * nat).
Variable parseString : string -> exn + list comp_group.
Variable operation : Type.
Variable operations : list operation.
Variable op_name : operation -> string.
Variable namespace : Type.
Variable py_eval : namespace -> string -> evaluation.
Variable abort_on_eval_failure : bool.
Lemma strings_of_cases l :
  strings_of l = raise TypeError \/ exists words, strings_of l = ret words.
Proof.
  induction l as [|[s|n] l IH]; cbn [strings_of].
  - right. now exists [].
  - destruct IH as [->|(words & ->)]; [now left|].
    right. exists (s :: words). reflexivity.
  - now left.
Qed.

Lemma strings_of_flat l : strings_of (map Tok l) = ret l.
Proof.
  induction l as [|s l IH]; cbn [map strings_of]; [reflexivity|].
  now rewrite IH.
Qed.

Lemma opmap_loop_sound (ops : list operation) (acc : PyDict.t operation) :
  (forall n o, PyDict.get acc n = Some o -> op_name o = n /\ In o operations) ->
  (forall o, In o ops -> In o operations) ->
  forall n o,
    PyDict.get (fold_left (fun acc o => PyDict.set acc (op_name o) o) ops acc) n
    = Some o ->
    op_name o = n /\ In o operations.
Proof.
  revert acc. induction ops as [|x ops IH]; intros acc Hacc Hops; cbn [fold_left].
  - exact Hacc.
  - apply IH.
    + intros n o. rewrite PyDictFacts.get_set.
      destruct (String.eqb_spec n (op_name x)) as [->|_]; [|apply Hacc].
      intros [= <-]. split; [reflexivity|]. apply Hops. now left.
    + intros o I. apply Hops. now right.
Qed.

Lemma opmap_loop_complete (ops : list operation) (acc : PyDict.t operation) n :
  PyDict.contains acc n = true \/ (exists o, In o ops /\ op_name o = n) ->
  PyDict.contains
    (fold_left (fun acc o => PyDict.set acc (op_name o) o) ops acc) n = true.
Proof.
  revert acc. induction ops as [|x ops IH]; intros acc H; cbn [fold_left].
  - destruct H as [H|(o & [] & _)]. exact H.
  - apply IH. unfold PyDict.contains. rewrite PyDictFacts.get_set.
    destruct (String.eqb_spec n (op_name x)) as [->|N]; [now left|].
    destruct H as [H|(o & [<-|I] & E)]; [now left | congruence | right; eauto].
Qed.

Variable compositor_error :
  string -> operation -> string -> string -> PyDict.t pyval -> option exn.

Lemma comp_step_cases ns definitions group :
  (exists d,
      built_from operation operations op_name namespace py_eval
        abort_on_eval_failure ns group d
      /\ exists w,
           parse_step operation operations op_name namespace py_eval
             abort_on_eval_failure compositor_error ns definitions group
           = (w, inr (definitions ++ [d])))
  \/ (exists w e,
        parse_step operation operations op_name namespace py_eval
          abort_on_eval_failure compositor_error ns definitions group = (w, inl e)
        /\ (e = SyntaxError ModeRequired
            \/ (e = KeyError (op group)
                /\ PyDict.get (opmap operation operations op_name) (op group) = None)
            \/ e = TypeError
            \/ e = IndexError
            \/ (abort_on_eval_failure = true
                /\ exists k, e = SyntaxError (CouldNotEvaluate k))
            \/ (exists spec o value mode kw,
                  compositor_error spec o value mode kw = Some e))).
Proof.
  unfold parse_step.
  destruct (mode group) as [m|] eqn:Hm;
    [|right; do 2 eexists; split; [reflexivity | now left]].
  destruct (Str.mem m ["data"; "display"]) eqn:Hmem; cbn [negb];
    [|right; do 2 eexists; split; [reflexivity | now left]].
  rewrite bind_ret_l.
  destruct (PyDict.get (opmap operation operations op_name) (op group)) as [o|] eqn:Ho;
    [|right; do 2 eexists; split; [reflexivity | right; left; now split]].
  rewrite bind_ret_l.
  destruct (strings_of_cases (spec group)) as [Hs|(words & Hs)]; rewrite Hs;
    [right; do 2 eexists; split; [reflexivity | right; right; now left]|].
  rewrite bind_ret_l. unfold PyDict.contains. rewrite Ho. cbn [negb].
  rewrite bind_ret_l.
  destruct (op_settings group) as [st|] eqn:Hst.
  - destruct (Parser.todict namespace py_eval abort_on_eval_failure (Some st)
                "brackets" ns) as [wt [et|kw]] eqn:Ht.
    + right. cbn [bind]. do 2 eexists. split; [reflexivity|].
      destruct (todict_error_kind namespace py_eval abort_on_eval_failure
                  (Some st) "brackets" ns et) as [->|B];
        [now rewrite Ht | tauto | tauto].
    + cbn [bind].
      destruct (compositor_error (Str.join " " words) o (value group) m kw)
        as [e|] eqn:Hc.
      * right. cbn [bind]. do 2 eexists. split; [reflexivity|].
        do 5 right. now exists (Str.join " " words), o, (value group), m, kw.
      * left. cbn [bind ret]. eexists. split; [|eexists; reflexivity].
        unfold built_from. cbn. rewrite Hst.
        repeat split; try assumption; [now exists words | now exists wt].
  - rewrite bind_ret_l.
    destruct (compositor_error (Str.join " " words) o (value group) m PyDict.empty)
      as [e|] eqn:Hc.
    + right. cbn [bind]. do 2 eexists. split; [reflexivity|].
      do 5 right. now exists (Str.join " " words), o, (value group), m, PyDict.empty.
    + left. cbn [bind ret]. eexists. split; [|eexists; reflexivity].
      unfold built_from. cbn. rewrite Hst.
      repeat split; try assumption. now exists words.
Qed.

Lemma comp_loop_built ns groups :
  forall definitions w defs,
    for_each (parse_step operation operations op_name namespace py_eval
                abort_on_eval_failure compositor_error ns) groups definitions = (w, inr defs) ->
    exists new,
      defs = definitions ++ new
      /\ Forall2 (built_from operation operations op_name namespace py_eval
                    abort_on_eval_failure ns) groups new.
Proof.
  induction groups as [|g groups IH]; intros definitions w defs; cbn [for_each].
  - intros [= <- <-]. exists []. split; [now rewrite app_nil_r | constructor].
  - destruct (comp_step_cases ns definitions g)
      as [(d & B & w1 & ->) | (w1 & e & -> & _)]; [|discriminate].
    cbn [bind].
    destruct (for_each _ groups (definitions ++ [d])) as [w2 [e2|defs2]] eqn:F;
      [discriminate|].
    intros [= <- <-]. destruct (IH _ _ _ F) as (new & -> & Hn).
    exists (d :: new). split; [now rewrite <- app_assoc | now constructor].
Qed.

Lemma comp_loop_error ns groups definitions w e :
  for_each (parse_step operation operations op_name namespace py_eval
              abort_on_eval_failure compositor_error ns) groups definitions = (w, inl e) ->
  e = SyntaxError ModeRequired
  \/ (exists g, In g groups /\ e = KeyError (op g)
                /\ PyDict.get (opmap operation operations op_name) (op g) = None)
  \/ e = TypeError
  \/ e = IndexError
  \/ (abort_on_eval_failure = true /\ exists k, e = SyntaxError (CouldNotEvaluate k))
  \/ (exists spec o value mode kw, compositor_error spec o value mode kw = Some e).
Proof.
  revert definitions w. induction groups as [|g groups IH]; intros definitions w;
    cbn [for_each]; [discriminate|].
  destruct (parse_step operation operations op_name namespace py_eval
              abort_on_eval_failure compositor_error ns definitions g)
    as [w1 [e1|d1]] eqn:B; cbn [bind].
  - intros [= <- <-].
    destruct (comp_step_cases ns definitions g)
      as [(d & _ & w' & E) | (w' & e' & E & K)]; rewrite E in B; [discriminate|].
    injection B as _ <-.
    destruct K as [K|[[K N]|K]]; [now left | | tauto].
    right. left. exists g. split; [now left | now split].
  - destruct (for_each _ groups d1) as [w2 [e2|defs2]] eqn:F; [|discriminate].
    intros [= <- <-]. destruct (IH _ _ F) as [K|[(g' & I & K)|K]]; [now left | | tauto].
    right. left. exists g'. split; [now right | exact K].
Qed.

Lemma comp_parse_after_check line ns toks start e groups :
  scanString line = [(toks, start, e)] ->
  Str.strip (Str.take e line) = Str.strip line ->
  parseString line = inr groups ->
  parse scanString parseString operation operations op_name namespace py_eval
    abort_on_eval_failure compositor_error line ns
  = for_each (parse_step operation operations op_name namespace py_eval
                abort_on_eval_failure compositor_error ns) groups [].
Proof.
  intros Hscan Hstrip Hparse. unfold parse. rewrite Hscan. cbn [snd].
  rewrite Hstrip, String.eqb_refl. cbn [negb]. rewrite bind_ret_l, Hparse.
  change (@nil warning, @inr exn _ groups) with (ret groups).
  now rewrite bind_ret_l.
Qed.

Lemma comp_parse_cases line ns :
  (exists se,
      (se = InvalidSpecification \/ exists r, se = FailedRemainder r)
      /\ parse scanString parseString operation operations op_name namespace
           py_eval abort_on_eval_failure compositor_error line ns = raise (SyntaxError se))
  \/ (exists e,
        parseString line = inl e
        /\ parse scanString parseString operation operations op_name namespace
             py_eval abort_on_eval_failure compositor_error line ns = raise e)
  \/ (exists groups,
        parseString line = inr groups
        /\ parse scanString parseString operation operations op_name namespace
             py_eval abort_on_eval_failure compositor_error line ns
           = for_each (parse_step operation operations op_name namespace py_eval
                         abort_on_eval_failure compositor_error ns) groups []).
Proof.
  unfold parse.
  destruct (whole_line_check (scanString line) line)
    as [[_ Hc] | [(toks & start & e0 & _ & _ & Hc) | (toks & start & e0 & _ & _ & Hc)]];
    cbn zeta in Hc; rewrite Hc.
  - left. eexists. split; [now left | reflexivity].
  - left. eexists. split; [right; eexists; reflexivity | reflexivity].
  - right. rewrite bind_ret_l. destruct (parseString line) as [ep|groups].
    + left. now exists ep.
    + right. exists groups. split; [reflexivity|].
      change (@nil warning, @inr exn _ groups) with (ret groups).
      now rewrite bind_ret_l.
Qed.

End CompositorParse.

(** X23: when [CompositorSpec.parse] returns, it returns one definition for
    every group of the line, in the order of the groups, and each definition
    has the mode, the registered operation, the overlay words joined by
    single spaces, the value and the evaluated settings of its group. *)
Theorem compositor_definitions_follow_groups :
  forall scanString parseString operation operations op_name
         namespace py_eval abort_on_eval_failure compositor_error line
         (ns : namespace) w defs groups,
    CompositorSpec.parse scanString parseString operation operations op_name
      namespace py_eval abort_on_eval_failure compositor_error line ns
    = (w, inr defs) ->
    parseString line = inr groups ->
    Forall2 (CompositorFacts.built_from operation operations op_name namespace
               py_eval abort_on_eval_failure ns) groups defs.
Proof.
  intros scanString parseString operation operations op_name namespace py_eval
    abort compositor_error line ns w defs groups H P.
  destruct (comp_parse_cases scanString parseString operation operations op_name
              namespace py_eval abort compositor_error line ns)
    as [(se & _ & E) | [(e & _ & E) | (groups' & P' & E)]];
    rewrite E in H; try discriminate.
  rewrite P in P'. injection P' as <-.
  apply (comp_loop_built scanString parseString) in H.
  destruct H as (new & -> & F). exact F.
Qed.

Lemma compositor_definitions_follow_groups_witness :
  Forall2 (CompositorFacts.built_from string ["max"; "min"] (fun o => o) unit
             Sample.eval_literal false tt)
    [CompositorSpec.mkGroup (Some "data") "max" [Tok "A"; Tok "*"; Tok "B"] "C" None;
     CompositorSpec.mkGroup (Some "display") "min" [Tok "D"] "E" (Some [Tok "n=3"])]
    [mkCompositor "A * B" "max" "C" "data" [];
     mkCompositor "D" "min" "E" "display" [("n", PyInt 3)]].
Proof.
  apply (compositor_definitions_follow_groups
           (Sample.scan_one
              [CompositorSpec.mkGroup (Some "data") "max"
                 [Tok "A"; Tok "*"; Tok "B"] "C" None;
               CompositorSpec.mkGroup (Some "display") "min" [Tok "D"] "E"
                 (Some [Tok "n=3"])] 40)
           (Sample.parse_to
              [CompositorSpec.mkGroup (Some "data") "max"
                 [Tok "A"; Tok "*"; Tok "B"] "C" None;
               CompositorSpec.mkGroup (Some "display") "min" [Tok "D"] "E"
                 (Some [Tok "n=3"])])
           string ["max"; "min"] (fun o => o) unit Sample.eval_literal false
           Sample.accept_compositor
           "data max(A * B) C display min(D) E [n=3]" tt []);
    reflexivity.
Defined.

(** X24: what [CompositorSpec.parse] raises is what [parseString] raises,
    one of the syntax errors for the shape of the line, the mode, or a
    keyword that fails to evaluate under the abort flag, KeyError for an
    operation that is not registered, TypeError, IndexError, or what the
    constructor of [Compositor] raises on its arguments; the test that
    would raise the syntax error "Operation ... not available" never
    fails. *)
Theorem compositor_parse_raises_only :
  forall scanString parseString operation operations op_name
         namespace py_eval abort_on_eval_failure compositor_error line
         (ns : namespace) e,
    outcome (CompositorSpec.parse scanString parseString operation operations
               op_name namespace py_eval abort_on_eval_failure
               compositor_error line ns) = inl e ->
    parseString line = inl e
    \/ e = SyntaxError InvalidSpecification
    \/ (exists r, e = SyntaxError (FailedRemainder r))
    \/ e = SyntaxError ModeRequired
    \/ (abort_on_eval_failure = true /\ exists k, e = SyntaxError (CouldNotEvaluate k))
    \/ (exists name,
          e = KeyError name
          /\ PyDict.get (CompositorSpec.opmap operation operations op_name) name = None)
    \/ e = TypeError
    \/ e = IndexError
    \/ (exists spec o value mode settings,
          compositor_error spec o value mode settings = Some e).
Proof.
  intros scanString parseString operation operations op_name namespace py_eval
    abort compositor_error line ns e H.
  destruct (comp_parse_cases scanString parseString operation operations op_name
              namespace py_eval abort compositor_error line ns)
    as [(se & [->|(r & ->)] & E) | [(e' & P & E) | (groups & P & E)]];
    rewrite E in H.
  - injection H as <-. tauto.
  - injection H as <-. right. right. left. eauto.
  - injection H as <-. now left.
  - destruct (for_each _ groups []) as [w [e'|defs]] eqn:F; [|discriminate].
    injection H as <-.
    apply (comp_loop_error scanString parseString) in F.
    destruct F as [K|[(g & _ & K & N)|[K|[K|[K|K]]]]]; try tauto.
    do 5 right. left. now exists (CompositorSpec.op g).
Qed.

Lemma compositor_parse_raises_only_witness :
  Sample.parse_to
    [CompositorSpec.mkGroup (Some "foo") "max" [Tok "A"] "C" None] "foo max(A) C"
  = inl (SyntaxError ModeRequired)
  \/ SyntaxError ModeRequired = SyntaxError InvalidSpecification
  \/ (exists r, SyntaxError ModeRequired = SyntaxError (FailedRemainder r))
  \/ SyntaxError ModeRequired = SyntaxError ModeRequired
  \/ (false = true /\ exists k, SyntaxError ModeRequired = SyntaxError (CouldNotEvaluate k))
  \/ (exists name,
        SyntaxError ModeRequired = KeyError name
        /\ PyDict.get (CompositorSpec.opmap string ["max"] (fun o => o)) name = None)
  \/ SyntaxError ModeRequired = TypeError
  \/ SyntaxError ModeRequired = IndexError
  \/ (exists spec o value mode settings,
        @Sample.accept_compositor string spec o value mode settings
        = Some (SyntaxError ModeRequired)).
Proof.
  apply (compositor_parse_raises_only
           (Sample.scan_one
              [CompositorSpec.mkGroup (Some "foo") "max" [Tok "A"] "C" None] 12)
           (Sample.parse_to
              [CompositorSpec.mkGroup (Some "foo") "max" [Tok "A"] "C" None])
           string ["max"] (fun o => o) unit Sample.eval_literal false
           Sample.accept_compositor "foo max(A) C" tt).
  reflexivity.
Defined.

(** The operation table maps a name to a registered operation of that
    name, and has an entry for the name of every registered operation. *)
Lemma opmap_registered :
  forall (operation : Type) (operations : list operation) op_name,
    (forall n o,
        PyDict.get (CompositorSpec.opmap operation operations op_name) n = Some o ->
        op_name o = n /\ In o operations)
    /\ (forall o,
          In o operations ->
          PyDict.contains (CompositorSpec.opmap operation operations op_name)
                          (op_name o) = true).
Proof.
  intros operation operations op_name. unfold CompositorSpec.opmap. split.
  - apply opmap_loop_sound; [discriminate | auto].
  - intros o I. apply opmap_loop_complete. right. now exists o.
Qed.

(** X25: the tests on a group come in a fixed order: for the first group of
    a line, a mode other than data and display is a syntax error whatever
    the operation is; with a valid mode an operation that is not registered
    is a KeyError whatever the overlay is; with both valid an overlay that
    holds a nested list is a TypeError. *)
Theorem compositor_checks_in_order :
  forall scanString parseString operation operations op_name
         namespace py_eval abort_on_eval_failure compositor_error line
         (ns : namespace) toks start e g rest,
    scanString line = [(toks, start, e)] ->
    Str.strip (Str.take e line) = Str.strip line ->
    parseString line = inr (g :: rest) ->
    let r := CompositorSpec.parse scanString parseString operation operations
               op_name namespace py_eval abort_on_eval_failure
               compositor_error line ns in
    let valid_mode := match CompositorSpec.mode g with
                      | Some m => Str.mem m ["data"; "display"]
                      | None => false
                      end in
    let registered := PyDict.contains
                        (CompositorSpec.opmap operation operations op_name)
                        (CompositorSpec.op g) in
    (valid_mode = false -> r = raise (SyntaxError ModeRequired))
    /\ (valid_mode = true -> registered = false ->
        r = raise (KeyError (CompositorSpec.op g)))
    /\ (valid_mode = true -> registered = true ->
        CompositorSpec.strings_of (CompositorSpec.spec g) = raise TypeError ->
        r = raise TypeError).
Proof.
  intros scanString parseString operation operations op_name namespace py_eval
    abort compositor_error line ns toks start e g rest Hscan Hstrip Hparse
    r valid_mode registered.
  subst r valid_mode registered.
  rewrite (comp_parse_after_check scanString parseString operation operations
             op_name namespace py_eval abort compositor_error line ns toks
             start e (g :: rest) Hscan Hstrip Hparse).
  cbn [for_each]. unfold CompositorSpec.parse_step, PyDict.contains.
  destruct (CompositorSpec.mode g) as [m|];
    [destruct (Str.mem m ["data"; "display"]); cbn [negb];
     [rewrite bind_ret_l; destruct (PyDict.get _ (CompositorSpec.op g)) as [o|]|]|];
    repeat split; intros; try discriminate; try reflexivity.
  rewrite bind_ret_l.
  match goal with H : CompositorSpec.strings_of _ = _ |- _ => now rewrite H end.
Qed.

Lemma compositor_checks_in_order_witness :
  CompositorSpec.parse
    (Sample.scan_one
       [CompositorSpec.mkGroup (Some "data") "max"
          [Tok "A"; Tok "*"; Nest [Tok "B"]] "C" None] 19)
    (Sample.parse_to
       [CompositorSpec.mkGroup (Some "data") "max"
          [Tok "A"; Tok "*"; Nest [Tok "B"]] "C" None])
    string ["max"] (fun o => o) unit Sample.eval_literal false
    Sample.accept_compositor "data max(A * (B)) C" tt
  = raise TypeError.
Proof.
  destruct (compositor_checks_in_order
              (Sample.scan_one
                 [CompositorSpec.mkGroup (Some "data") "max"
                    [Tok "A"; Tok "*"; Nest [Tok "B"]] "C" None] 19)
              (Sample.parse_to
                 [CompositorSpec.mkGroup (Some "data") "max"
                    [Tok "A"; Tok "*"; Nest [Tok "B"]] "C" None])
              string ["max"] (fun o => o) unit Sample.eval_literal false
              Sample.accept_compositor "data max(A * (B)) C" tt
              [CompositorSpec.mkGroup (Some "data") "max"
                 [Tok "A"; Tok "*"; Nest [Tok "B"]] "C" None] 0 19
              (CompositorSpec.mkGroup (Some "data") "max"
                 [Tok "A"; Tok "*"; Nest [Tok "B"]] "C" None) []
              eq_refl eq_refl eq_refl) as (_ & _ & H).
  apply H; reflexivity.
Defined.

(** ** Selections on 2D elements *)

Section SelectionFacts.
Import Geom.

Variable num : Type.
Variable gt : num -> num -> bool.

Lemma selection_box (dims : string * string) (invert_axes : bool)
  (x0 y0 x1 y1 : num) index_cols :
  (index_cols = None \/ index_cols = Some []) ->
  (forall a b, gt a b = true -> gt b a = false) ->
  exists xlo xhi ylo yhi,
    ((xlo, xhi) = (x0, x1) \/ (xlo, xhi) = (x1, x0))
    /\ ((ylo, yhi) = (y0, y1) \/ (ylo, yhi) = (y1, y0))
    /\ gt xlo xhi = false /\ gt ylo yhi = false
    /\ let xdim := if invert_axes then snd dims else fst dims in
       let ydim := if invert_axes then fst dims else snd dims in
       _get_selection_expr_for_stream_value num gt dims invert_axes
         (Some (x0, y0, x1, y1)) index_cols
       = inr (Some (And num (And num (And num (Ge num xdim xlo) (Le num xdim xhi))
                                     (Ge num ydim ylo)) (Le num ydim yhi)),
              Some (PyDict.set (PyDict.set PyDict.empty xdim (xlo, xhi))
                               ydim (ylo, yhi)),
              Some (mkRectangles num [(x0, y0, x1, y1)])).
Proof.
  intros Hi Hgt. destruct dims as [xd yd].
  unfold _get_selection_expr_for_stream_value.
  destruct (gt y0 y1) eqn:Gy, (gt x0 x1) eqn:Gx.
  - exists x1, x0, y1, y0. repeat split; auto.
    destruct invert_axes, Hi as [->| ->]; reflexivity.
  - exists x0, x1, y1, y0. repeat split; auto.
    destruct invert_axes, Hi as [->| ->]; reflexivity.
  - exists x1, x0, y0, y1. repeat split; auto.
    destruct invert_axes, Hi as [->| ->]; reflexivity.
  - exists x0, x1, y0, y1. repeat split; auto.
    destruct invert_axes, Hi as [->| ->]; reflexivity.
Qed.

End SelectionFacts.

(** X27: with bounds and no index columns the bounding box gives the
    x-dimension the two x-values of the bounds and the y-dimension the two
    y-values, each pair with the value that is not greater first (for a
    comparison that never holds in both directions); the two dimensions
    are exchanged when the axes are inverted; the expression asks for each
    dimension to lie between its pair; and the Rectangles element holds the
    bounds as they were given. *)
Theorem selection_box_is_ordered :
  forall (num : Type) (gt : num -> num -> bool) (dims : string * string)
         (invert_axes : bool) (x0 y0 x1 y1 : num) index_cols,
    (index_cols = None \/ index_cols = Some []) ->
    (forall a b, gt a b = true -> gt b a = false) ->
    exists xlo xhi ylo yhi,
      ((xlo, xhi) = (x0, x1) \/ (xlo, xhi) = (x1, x0))
      /\ ((ylo, yhi) = (y0, y1) \/ (ylo, yhi) = (y1, y0))
      /\ gt xlo xhi = false /\ gt ylo yhi = false
      /\ let xdim := if invert_axes then snd dims else fst dims in
         let ydim := if invert_axes then fst dims else snd dims in
         Geom._get_selection_expr_for_stream_value num gt dims invert_axes
           (Some (x0, y0, x1, y1)) index_cols
         = inr (Some (Geom.And num
                        (Geom.And num
                           (Geom.And num (Geom.Ge num xdim xlo) (Geom.Le num xdim xhi))
                           (Geom.Ge num ydim ylo))
                        (Geom.Le num ydim yhi)),
                Some (PyDict.set (PyDict.set PyDict.empty xdim (xlo, xhi))
                                 ydim (ylo, yhi)),
                Some (Geom.mkRectangles num [(x0, y0, x1, y1)])).
Proof. intros. now apply selection_box. Qed.

Lemma selection_box_is_ordered_witness :
  exists xlo xhi ylo yhi,
    ((xlo, xhi) = (5, 2) \/ (xlo, xhi) = (2, 5))
    /\ ((ylo, yhi) = (1, 3) \/ (ylo, yhi) = (3, 1))
    /\ Nat.ltb xhi xlo = false /\ Nat.ltb yhi ylo = false
    /\ Geom._get_selection_expr_for_stream_value nat (fun a b => Nat.ltb b a)
         ("x", "y") true (Some (5, 1, 2, 3)) None
       = inr (Some (Geom.And nat
                      (Geom.And nat
                         (Geom.And nat (Geom.Ge nat "y" xlo) (Geom.Le nat "y" xhi))
                         (Geom.Ge nat "x" ylo))
                      (Geom.Le nat "x" yhi)),
              Some (PyDict.set (PyDict.set PyDict.empty "y" (xlo, xhi)) "x" (ylo, yhi)),
              Some (Geom.mkRectangles nat [(5, 1, 2, 3)])).
Proof.
  apply (selection_box_is_ordered nat (fun a b => Nat.ltb b a) ("x", "y") true
           5 1 2 3 None).
  - now left.
  - intros a b H. apply Nat.ltb_lt in H. apply Nat.ltb_ge. lia.
Defined.

(** ** Layouts of plotly plots *)

Section AdjointFacts.
Import Plotly.

Variable subplot : Type.
Variable figure : Type.
Variable truthy : subplot -> bool.
Variable initialize : subplot -> figure.

(** What one position contributes. *)
Lemma adjoint_unfold (subplots : PyDict.t subplot) :
  let at_pos pos :=
    match PyDict.get subplots pos with
    | Some sub => if truthy sub then [Some (initialize sub)] else []
    | None => []
    end in
  adjoint_initialize_plot subplot figure truthy initialize subplots
  = match at_pos "main" ++ at_pos "right" ++ at_pos "top" with
    | [] => [None]
    | l => l
    end.
Proof.
  unfold adjoint_initialize_plot. cbn [fold_left].
  destruct (PyDict.get subplots "main") as [m|]; [destruct (truthy m)|];
    (destruct (PyDict.get subplots "right") as [r|]; [destruct (truthy r)|]);
    (destruct (PyDict.get subplots "top") as [t|]; [destruct (truthy t)|]);
    reflexivity.
Qed.

Lemma adjoint_length (subplots : PyDict.t subplot) :
  1 <= length (adjoint_initialize_plot subplot figure truthy initialize subplots) <= 3.
Proof.
  rewrite adjoint_unfold.
  destruct (PyDict.get subplots "main") as [m|]; [destruct (truthy m)|];
    (destruct (PyDict.get subplots "right") as [r|]; [destruct (truthy r)|]);
    (destruct (PyDict.get subplots "top") as [t|]; [destruct (truthy t)|]);
    cbn; lia.
Qed.

Lemma adjoint_main_first (subplots : PyDict.t subplot) sub :
  PyDict.get subplots "main" = Some sub -> truthy sub = true ->
  hd None (adjoint_initialize_plot subplot figure truthy initialize subplots)
  = Some (initialize sub).
Proof.
  intros Hm Ht. rewrite adjoint_unfold. cbn zeta. rewrite Hm, Ht. reflexivity.
Qed.

Lemma adjoint_nothing (subplots : PyDict.t subplot) :
  (forall pos sub, In pos ["main"; "right"; "top"] ->
                   PyDict.get subplots pos = Some sub -> truthy sub = false) ->
  adjoint_initialize_plot subplot figure truthy initialize subplots = [None].
Proof.
  intros H. rewrite adjoint_unfold. cbn zeta.
  assert (E : forall pos, In pos ["main"; "right"; "top"] ->
              match PyDict.get subplots pos with
              | Some sub => if truthy sub then [Some (initialize sub)] else []
              | None => []
              end = []).
  { intros pos Hp. destruct (PyDict.get subplots pos) as [sub|] eqn:G; auto.
    now rewrite (H pos sub Hp G). }
  rewrite !E by (cbn; auto). reflexivity.
Qed.

Lemma adjoint_all_figures (subplots : PyDict.t subplot) pos sub :
  In pos ["main"; "right"; "top"] ->
  PyDict.get subplots pos = Some sub -> truthy sub = true ->
  In (Some (initialize sub))
     (adjoint_initialize_plot subplot figure truthy initialize subplots)
  /\ ~ In None (adjoint_initialize_plot subplot figure truthy initialize subplots).
Proof.
  intros Hp G T. rewrite adjoint_unfold. cbn zeta.
  assert (N : forall p,
              ~ In None match PyDict.get subplots p with
                        | Some s => if truthy s then [Some (initialize s)] else []
                        | None => []
                        end).
  { intros p. destruct (PyDict.get subplots p) as [s|]; [destruct (truthy s)|];
      cbn; intuition discriminate. }
  assert (I : In (Some (initialize sub))
                (match PyDict.get subplots "main" with
                 | Some s => if truthy s then [Some (initialize s)] else []
                 | None => []
                 end ++
                 match PyDict.get subplots "right" with
                 | Some s => if truthy s then [Some (initialize s)] else []
                 | None => []
                 end ++
                 match PyDict.get subplots "top" with
                 | Some s => if truthy s then [Some (initialize s)] else []
                 | None => []
                 end)).
  { rewrite !in_app_iff.
    destruct Hp as [<- | [<- | [<- | []]]]; rewrite G, T; cbn; auto. }
  assert (NN : ~ In None
                (match PyDict.get subplots "main" with
                 | Some s => if truthy s then [Some (initialize s)] else []
                 | None => []
                 end ++
                 match PyDict.get subplots "right" with
                 | Some s => if truthy s then [Some (initialize s)] else []
                 | None => []
                 end ++
                 match PyDict.get subplots "top" with
                 | Some s => if truthy s then [Some (initialize s)] else []
                 | None => []
                 end)).
  { rewrite !in_app_iff. intros [X | [X | X]]; eapply N; eassumption. }
  match goal with
  | |- In _ match ?l with [] => _ | _ => _ end /\ _ =>
      destruct l eqn:El; [destruct I | split; assumption]
  end.
Qed.

End AdjointFacts.

Section GridFacts.
Import Plotly.

Variable subplot : Type.
Variable figure : Type.
Variable subplots : nat * nat -> option subplot.
Variable initialize : subplot -> list (option figure).

Lemma update_row_spec (f : row figure -> row figure) :
  forall (rows : list (row figure)) i r,
    nth_error rows i = Some r ->
    exists rows',
      update_row figure i f rows = ret rows'
      /\ length rows' = length rows
      /\ forall j, nth_error rows' j
                   = if (j =? i)%nat then Some (f r) else nth_error rows j.
Proof.
  intros rows i r H. unfold update_row. rewrite H.
  eexists. split; [reflexivity|].
  clear - H. revert i H. induction rows as [|x rows IH]; intros i H.
  - destruct i; discriminate.
  - destruct i as [|i].
    + injection H as ->. cbn. split; [reflexivity|].
      intros [|j]; reflexivity.
    + cbn in H. destruct (IH i H) as [L N].
      cbn [firstn skipn app List.length]. split.
      * cbn [skipn] in L. now rewrite L.
      * intros [|j]; [reflexivity|]. cbn [nth_error Nat.eqb]. apply N.
Qed.

(** One step of the loop on a grid without marginals, for a cell whose plot
    returns at most one figure. *)
Lemma grid_step_plain (rows : list (row figure)) r c :
  r < length rows ->
  (forall sub, subplots (r, c) = Some sub -> length (initialize sub) <= 1) ->
  exists rows',
    grid_step subplot figure subplots initialize
      (mkGrid figure rows [] [] false) (r, c)
    = ret (mkGrid figure rows' [] [] false)
    /\ length rows' = length rows
    /\ forall j, nth_error rows' j
                 = option_map (fun row => row ++ row_plots subplot figure subplots
                                                   initialize j [(r, c)])
                              (nth_error rows j).
Proof.
  intros Hr Hone. unfold grid_step, row_plots. cbn [flat_map fst].
  destruct (subplots (r, c)) as [sub|] eqn:S.
  - specialize (Hone sub eq_refl).
    destruct (nth_error rows r) as [row_r|] eqn:N;
      [|apply nth_error_None in N; lia].
    destruct (update_row_spec (fun row => row ++ initialize sub) rows r row_r N)
      as (rows' & U & L & G).
    exists rows'. split; [|split; [exact L|]].
    + cbn [insert_rows filter List.length].
      replace (2 <? length (initialize sub))%nat with false
        by (symmetry; apply Nat.ltb_ge; lia).
      replace (1 <? length (initialize sub))%nat with false
        by (symmetry; apply Nat.ltb_ge; lia).
      unfold single_branch. cbn [insert_rows insert_cols adjoined plots mem_nat existsb].
      rewrite !bind_ret_l. cbn [insert_rows insert_cols adjoined plots].
      rewrite Nat.add_0_r, U, bind_ret_l.
      cbn [mem_nat existsb]. rewrite andb_false_r, bind_ret_l. reflexivity.
    + intros j. rewrite G. rewrite app_nil_r.
      destruct (Nat.eqb_spec j r) as [->|Hj].
      * rewrite N, Nat.eqb_refl. reflexivity.
      * replace (r =? j)%nat with false by (symmetry; apply Nat.eqb_neq; lia).
        destruct (nth_error rows j); cbn; [now rewrite app_nil_r|reflexivity].
  - exists rows. split; [reflexivity|]. split; [reflexivity|].
    intros j. destruct (r =? j)%nat; cbn;
      (destruct (nth_error rows j); cbn; [now rewrite app_nil_r|reflexivity]).
Qed.

Lemma row_plots_cons r coord coords :
  row_plots subplot figure subplots initialize r (coord :: coords)
  = row_plots subplot figure subplots initialize r [coord]
    ++ row_plots subplot figure subplots initialize r coords.
Proof. unfold row_plots. cbn [flat_map]. now rewrite app_nil_r. Qed.

Lemma grid_loop_plain (coords : list (nat * nat)) :
  forall rows : list (row figure),
    (forall coord, In coord coords -> fst coord < length rows) ->
    (forall coord sub, In coord coords -> subplots coord = Some sub ->
                       length (initialize sub) <= 1) ->
    exists rows',
      for_each (grid_step subplot figure subplots initialize) coords
        (mkGrid figure rows [] [] false)
      = ret (mkGrid figure rows' [] [] false)
      /\ length rows' = length rows
      /\ forall j, nth_error rows' j
                   = option_map (fun row => row ++ row_plots subplot figure subplots
                                                     initialize j coords)
                                (nth_error rows j).
Proof.
  induction coords as [|[r c] coords IH]; intros rows Hin Hone.
  - exists rows. split; [reflexivity|]. split; [reflexivity|].
    intros j. cbn. destruct (nth_error rows j); cbn; [now rewrite app_nil_r|reflexivity].
  - destruct (grid_step_plain rows r c) as (rows1 & S1 & L1 & G1).
    + apply (Hin (r, c)). now left.
    + intros sub. apply Hone. now left.
    + destruct (IH rows1) as (rows' & S2 & L2 & G2).
      * intros coord Hc. rewrite L1. apply Hin. now right.
      * intros coord sub Hc. apply Hone. now right.
      * exists rows'. split; [|split; [congruence|]].
        -- cbn [for_each]. rewrite S1, bind_ret_l. exact S2.
        -- intros j. rewrite (row_plots_cons j (r, c) coords), G2, G1.
           destruct (nth_error rows j); cbn [option_map];
             [now rewrite <- app_assoc|reflexivity].
Qed.

Lemma nth_error_repeat_nil {A} n j :
  j < n -> nth_error (repeat (@nil A) n) j = Some [].
Proof.
  revert j. induction n as [|n IH]; intros j H; [lia|].
  destruct j; cbn; [reflexivity|]. apply IH. lia.
Qed.

Lemma build_grid_plain rows coords :
  (forall coord, In coord coords -> fst coord < rows) ->
  (forall coord sub, In coord coords -> subplots coord = Some sub ->
                     length (initialize sub) <= 1) ->
  exists grid_rows,
    build_grid subplot figure subplots initialize rows coords
    = ret (mkGrid figure grid_rows [] [] false)
    /\ length grid_rows = rows
    /\ forall r, r < rows ->
                 nth_error grid_rows r
                 = Some (row_plots subplot figure subplots initialize r coords).
Proof.
  intros Hin Hone. unfold build_grid.
  destruct (grid_loop_plain coords (repeat [] rows)) as (rows' & S & L & G).
  - intros coord Hc. rewrite repeat_length. now apply Hin.
  - exact Hone.
  - exists rows'. split; [exact S|]. split.
    + now rewrite L, repeat_length.
    + intros r Hr. rewrite G. unfold row.
      rewrite nth_error_repeat_nil by exact Hr. reflexivity.
Qed.

End GridFacts.

Section GridTotal.
Import Plotly.

Variable subplot : Type.
Variable figure : Type.
Variable subplots : nat * nat -> option subplot.
Variable initialize : subplot -> list (option figure).

Lemma update_row_ok (f : row figure -> row figure) (rows : list (row figure)) i :
  i < length rows ->
  exists rows', update_row figure i f rows = ret rows'
                /\ length rows' = length rows.
Proof.
  intros H. destruct (nth_error rows i) as [r|] eqn:N;
    [|apply nth_error_None in N; lia].
  destruct (update_row_spec figure f rows i r N) as (rows' & U & L & _).
  now exists rows'.
Qed.

Lemma update_row_before_ok (f : row figure -> row figure) (rows : list (row figure)) n :
  n < length rows ->
  exists rows', update_row_before figure n f rows = ret rows'
                /\ length rows' = length rows.
Proof.
  intros H. unfold update_row_before. destruct n as [|i].
  - destruct (length rows) as [|k] eqn:L; [lia|].
    rewrite <- L. apply update_row_ok. lia.
  - apply update_row_ok. lia.
Qed.

Lemma pad_rows_ok index c irs :
  forall rows : list (row figure),
    (forall ir, In ir irs -> index ir < length rows) ->
    exists rows', pad_rows figure index c irs rows = ret rows'
                  /\ length rows' = length rows.
Proof.
  induction irs as [|ir irs IH]; intros rows H.
  - now exists rows.
  - destruct (update_row_ok (list_insert (c + 1) None) rows (index ir))
      as (rows1 & U & L1); [apply H; now left|].
    destruct (IH rows1) as (rows' & P & L2).
    { intros ir' Hi. rewrite L1. apply H. now right. }
    exists rows'. split; [|congruence].
    cbn [pad_rows]. now rewrite U, bind_ret_l.
Qed.

Lemma list_insert_length {A} i (x : A) l :
  length (list_insert i x l) = S (length l).
Proof.
  unfold list_insert. rewrite length_app. cbn [List.length].
  rewrite <- (firstn_skipn i l) at 3. rewrite length_app. lia.
Qed.

Lemma offset_bound r (l : list nat) :
  length (filter (fun ir => (ir <=? r)%nat) l) <= length l.
Proof.
  induction l as [|x l IH]; cbn; [lia|]. destruct (x <=? r)%nat; cbn; lia.
Qed.

Lemma mem_nat_In x l : mem_nat x l = true <-> In x l.
Proof.
  unfold mem_nat. rewrite existsb_exists. split.
  - intros (y & Hy & E). apply Nat.eqb_eq in E. now subst.
  - intros H. exists x. split; [exact H|apply Nat.eqb_refl].
Qed.

(** One step of the loop for a coordinate within the rows. *)
Lemma grid_step_ok rows (g : grid figure) r c :
  r < rows ->
  length (plots figure g) = rows + length (insert_rows figure g) ->
  exists g1,
    grid_step subplot figure subplots initialize g (r, c) = ret g1
    /\ length (plots figure g1) = rows + length (insert_rows figure g1)
    /\ insert_cols figure g1
       = insert_cols figure g
         ++ (if marginal subplot figure subplots initialize (r, c) then [c] else [])
    /\ adjoined figure g1
       = adjoined figure g || marginal subplot figure subplots initialize (r, c)
    /\ insert_rows figure g1
       = insert_rows figure g
         ++ (if top_marginal subplot figure subplots initialize (r, c)
                && negb (mem_nat r (insert_rows figure g))
             then [r] else []).
Proof.
  intros Hr Hlen. destruct g as [P irows icols adj].
  cbn [plots insert_rows insert_cols adjoined] in *.
  unfold grid_step, marginal, top_marginal, plot_count.
  destruct (subplots (r, c)) as [sub|] eqn:Hsub.
  2:{ eexists. split; [reflexivity|]. cbn [plots insert_rows insert_cols adjoined].
      cbn. rewrite !app_nil_r, orb_false_r. auto. }
  cbv zeta. cbn [insert_rows insert_cols plots adjoined].
  pose proof (offset_bound r irows) as Ho.
  set (offset := length (filter (fun ir => (ir <=? r)%nat) irows)) in *.
  destruct (2 <? length (initialize sub))%nat eqn:L2.
  - (* a top marginal *)
    assert (L1 : (1 <? length (initialize sub))%nat = true).
    { apply Nat.ltb_lt in L2. apply Nat.ltb_lt. lia. }
    rewrite L1. unfold triple_branch. cbn [insert_rows insert_cols plots adjoined].
    destruct (mem_nat r irows) eqn:M; cbn [negb andb].
    + rewrite bind_ret_l. cbv beta iota.
      destruct (update_row_before_ok
                  (fun row => row ++ [last (initialize sub) None; None]) P (r + offset))
        as (P2 & U2 & E2); [unfold row in *; lia|].
      rewrite U2, !bind_ret_l. cbv beta iota.
      cbn [insert_rows insert_cols plots adjoined].
      destruct (update_row_ok (fun row => row ++ removelast (initialize sub)) P2 (r + offset))
        as (P3 & U3 & E3); [unfold row in *; lia|].
      rewrite U3, bind_ret_l.
      match goal with
      | |- context [bind (if ?b then _ else _) _] => destruct b
      end.
      * destruct (update_row_ok (fun row => row ++ [None]) P3 (r + offset))
          as (P4 & U4 & E4); [unfold row in *; lia|].
        rewrite U4, bind_ret_l. eexists. split; [reflexivity|].
        cbn [insert_rows insert_cols plots adjoined].
        rewrite app_nil_r, orb_true_r. unfold row in *. repeat split; congruence.
      * rewrite bind_ret_l. eexists. split; [reflexivity|].
        cbn [insert_rows insert_cols plots adjoined].
        rewrite app_nil_r, orb_true_r. unfold row in *. repeat split; congruence.
    + destruct (nth_error P r) as [row_r|] eqn:N;
        [|apply nth_error_None in N; lia].
      set (inserted := list_insert (r + offset) (repeat None (length row_r)) P).
      assert (Ei : length inserted = S (length P)) by apply list_insert_length.
      destruct (pad_rows_ok (fun ir => ir) c (seq 0 r) inserted) as (P1 & U1 & E1).
      { intros ir Hi. apply in_seq in Hi. unfold row in *. lia. }
      rewrite U1, !bind_ret_l. cbv beta iota.
      destruct (update_row_before_ok
                  (fun row => row ++ [last (initialize sub) None; None]) P1
                  (r + (offset + 1)))
        as (P2 & U2 & E2); [unfold row in *; lia|].
      rewrite U2, !bind_ret_l. cbv beta iota.
      cbn [insert_rows insert_cols plots adjoined].
      destruct (update_row_ok (fun row => row ++ removelast (initialize sub)) P2
                  (r + (offset + 1)))
        as (P3 & U3 & E3); [unfold row in *; lia|].
      rewrite U3, bind_ret_l.
      match goal with
      | |- context [bind (if ?b then _ else _) _] => destruct b
      end.
      * destruct (update_row_ok (fun row => row ++ [None]) P3 (r + (offset + 1)))
          as (P4 & U4 & E4); [unfold row in *; lia|].
        rewrite U4, bind_ret_l. eexists. split; [reflexivity|].
        cbn [insert_rows insert_cols plots adjoined].
        rewrite orb_true_r, length_app. cbn [List.length].
        unfold row in *. repeat split; lia.
      * rewrite bind_ret_l. eexists. split; [reflexivity|].
        cbn [insert_rows insert_cols plots adjoined].
        rewrite orb_true_r, length_app. cbn [List.length].
        unfold row in *. repeat split; lia.
  - cbn [andb]. rewrite app_nil_r.
    destruct (1 <? length (initialize sub))%nat eqn:L1.
    + (* a right marginal *)
      unfold dual_branch. cbn [insert_rows insert_cols plots adjoined].
      destruct (pad_rows_ok (fun _ => r) c (seq 0 r) P) as (P1 & U1 & E1).
      { intros ir _. unfold row in *. lia. }
      rewrite U1, bind_ret_l.
      assert (X : exists P2,
                 (if mem_nat r irows
                  then update_row_before figure (r + offset)
                         (fun row => row ++ [None; None]) P1
                  else ret P1) = ret P2 /\ length P2 = length P).
      { destruct (mem_nat r irows).
        - destruct (update_row_before_ok (fun row => row ++ [None; None]) P1 (r + offset))
            as (P2 & U2 & E2); [unfold row in *; lia|]. exists P2. unfold row in *. split; congruence.
        - now exists P1. }
      destruct X as (P2 & U2 & E2). rewrite U2, !bind_ret_l. cbv beta iota.
      cbn [insert_rows insert_cols plots adjoined].
      destruct (update_row_ok (fun row => row ++ initialize sub) P2 (r + offset))
        as (P3 & U3 & E3); [unfold row in *; lia|].
      rewrite U3, bind_ret_l.
      match goal with
      | |- context [bind (if ?b then _ else _) _] => destruct b
      end.
      * destruct (update_row_ok (fun row => row ++ [None]) P3 (r + offset))
          as (P4 & U4 & E4); [unfold row in *; lia|].
        rewrite U4, bind_ret_l. eexists. split; [reflexivity|].
        cbn [insert_rows insert_cols plots adjoined].
        rewrite orb_true_r. unfold row in *. repeat split; congruence.
      * rewrite bind_ret_l. eexists. split; [reflexivity|].
        cbn [insert_rows insert_cols plots adjoined].
        rewrite orb_true_r. unfold row in *. repeat split; congruence.
    + (* a single plot *)
      unfold single_branch. cbn [insert_rows insert_cols plots adjoined].
      assert (X : exists P1,
                 (if mem_nat r irows
                  then update_row_before figure (r + offset)
                         (fun row => row ++ repeat None
                                       (1 + (if mem_nat c icols then 1 else 0))) P
                  else ret P) = ret P1 /\ length P1 = length P).
      { destruct (mem_nat r irows).
        - apply update_row_before_ok. unfold row in *. lia.
        - now exists P. }
      destruct X as (P1 & U1 & E1). rewrite U1, !bind_ret_l. cbv beta iota.
      cbn [insert_rows insert_cols plots adjoined].
      destruct (update_row_ok (fun row => row ++ initialize sub) P1 (r + offset))
        as (P3 & U3 & E3); [unfold row in *; lia|].
      rewrite U3, bind_ret_l.
      match goal with
      | |- context [bind (if ?b then _ else _) _] => destruct b
      end.
      * destruct (update_row_ok (fun row => row ++ [None]) P3 (r + offset))
          as (P4 & U4 & E4); [unfold row in *; lia|].
        rewrite U4, bind_ret_l. eexists. split; [reflexivity|].
        cbn [insert_rows insert_cols plots adjoined].
        rewrite app_nil_r, orb_false_r. unfold row in *. repeat split; congruence.
      * rewrite bind_ret_l. eexists. split; [reflexivity|].
        cbn [insert_rows insert_cols plots adjoined].
        rewrite app_nil_r, orb_false_r. unfold row in *. repeat split; congruence.
Qed.

Lemma NoDup_snoc {A} (x : A) l : NoDup l -> ~ In x l -> NoDup (l ++ [x]).
Proof.
  induction l as [|y l IH]; intros N H; cbn.
  - constructor; [intros []|constructor].
  - inversion N as [|? ? Hy Nl]; subst. constructor.
    + rewrite in_app_iff. intros [X|[X|[]]]; [now apply Hy|].
      apply H. now left.
    + apply IH; [exact Nl|]. intros X. apply H. now right.
Qed.

Lemma grid_loop_ok rows (coords : list (nat * nat)) :
  forall g : grid figure,
    (forall coord, In coord coords -> fst coord < rows) ->
    length (plots figure g) = rows + length (insert_rows figure g) ->
    exists g',
      for_each (grid_step subplot figure subplots initialize) coords g = ret g'
      /\ length (plots figure g') = rows + length (insert_rows figure g')
      /\ insert_cols figure g'
         = insert_cols figure g
           ++ map snd (filter (marginal subplot figure subplots initialize) coords)
      /\ adjoined figure g'
         = adjoined figure g
           || existsb (marginal subplot figure subplots initialize) coords
      /\ (NoDup (insert_rows figure g) -> NoDup (insert_rows figure g'))
      /\ (forall r, In r (insert_rows figure g')
                    <-> In r (insert_rows figure g)
                        \/ exists c, In (r, c) coords
                                     /\ top_marginal subplot figure subplots initialize
                                          (r, c) = true).
Proof.
  induction coords as [|[r c] coords IH]; intros g Hin Hlen.
  - exists g. split; [reflexivity|]. split; [exact Hlen|].
    cbn. rewrite app_nil_r, orb_false_r. repeat split; auto.
    intros [H|(c & [] & _)]. exact H.
  - destruct (grid_step_ok rows g r c) as (g1 & S1 & L1 & C1 & A1 & R1).
    { apply (Hin (r, c)). now left. }
    { exact Hlen. }
    destruct (IH g1) as (g' & S2 & L2 & C2 & A2 & N2 & R2).
    { intros coord Hc. apply Hin. now right. }
    { exact L1. }
    exists g'. split; [cbn [for_each]; now rewrite S1, bind_ret_l|].
    split; [exact L2|]. split; [|split; [|split]].
    + rewrite C2, C1. cbn [filter].
      destruct (marginal subplot figure subplots initialize (r, c));
        cbn [map snd]; now rewrite <- app_assoc.
    + rewrite A2, A1. cbn [existsb]. now rewrite orb_assoc.
    + intros N. apply N2. rewrite R1.
      destruct (top_marginal subplot figure subplots initialize (r, c)
                && negb (mem_nat r (insert_rows figure g))) eqn:E.
      * apply andb_prop in E. destruct E as [_ E].
        apply NoDup_snoc; [exact N|]. intros X. apply mem_nat_In in X.
        rewrite X in E. discriminate.
      * now rewrite app_nil_r.
    + intros r'. rewrite R2, R1, in_app_iff. split.
      * intros [[H|H]|(c' & H & T)].
        -- now left.
        -- right.
           destruct (top_marginal subplot figure subplots initialize (r, c)
                     && negb (mem_nat r (insert_rows figure g))) eqn:E;
             [|destruct H].
           destruct H as [<-|[]]. apply andb_prop in E. destruct E as [E _].
           exists c. split; [now left|exact E].
        -- right. exists c'. split; [now right|exact T].
      * intros [H|(c' & [H|H] & T)].
        -- left. now left.
        -- injection H as <- <-. left. rewrite T. cbn [andb].
           destruct (mem_nat r (insert_rows figure g)) eqn:M; cbn [negb].
           ++ left. now apply mem_nat_In.
           ++ right. now left.
        -- right. exists c'. split; assumption.
Qed.

Lemma build_grid_ok rows coords :
  (forall coord, In coord coords -> fst coord < rows) ->
  exists g,
    build_grid subplot figure subplots initialize rows coords = ret g
    /\ length (plots figure g) = rows + length (insert_rows figure g)
    /\ NoDup (insert_rows figure g)
    /\ (forall r, In r (insert_rows figure g)
                  <-> exists c, In (r, c) coords
                                /\ top_marginal subplot figure subplots initialize
                                     (r, c) = true)
    /\ insert_cols figure g
       = map snd (filter (marginal subplot figure subplots initialize) coords)
    /\ adjoined figure g
       = existsb (marginal subplot figure subplots initialize) coords.
Proof.
  intros Hin. unfold build_grid.
  destruct (grid_loop_ok rows coords (mkGrid figure (repeat [] rows) [] [] false))
    as (g & S & L & C & A & N & R).
  - exact Hin.
  - cbn. rewrite repeat_length. lia.
  - exists g. split; [exact S|]. split; [exact L|].
    split; [apply N; constructor|]. split; [|split].
    + intros r. rewrite R. cbn. intuition.
    + exact C.
    + exact A.
Qed.

End GridTotal.

(** X28: [AdjointLayoutPlot.initialize_plot] returns between one and three
    entries; when no plot at main, right or top counts as true it returns
    the list that holds None alone; otherwise it returns the figure of every
    such plot and no None, the figure of the main plot first. *)
Theorem adjoint_plots_returned :
  forall (subplot figure : Type) (truthy : subplot -> bool)
         (initialize : subplot -> figure) (subplots : PyDict.t subplot),
    let result :=
      Plotly.adjoint_initialize_plot subplot figure truthy initialize subplots in
    1 <= length result <= 3
    /\ ((forall pos sub, In pos ["main"; "right"; "top"] ->
                         PyDict.get subplots pos = Some sub -> truthy sub = false) ->
        result = [None])
    /\ (forall pos sub, In pos ["main"; "right"; "top"] ->
                        PyDict.get subplots pos = Some sub -> truthy sub = true ->
                        In (Some (initialize sub)) result /\ ~ In None result)
    /\ (forall sub, PyDict.get subplots "main" = Some sub -> truthy sub = true ->
                    hd None result = Some (initialize sub)).
Proof.
  intros subplot figure truthy initialize subplots result. subst result.
  split; [apply adjoint_length|]. split; [apply adjoint_nothing|].
  split; [apply adjoint_all_figures | apply adjoint_main_first].
Qed.

Lemma adjoint_plots_returned_witness :
  In (Some 6)
     (Plotly.adjoint_initialize_plot nat nat (fun n => negb (Nat.eqb n 0))
        (fun n => n * 2) [("main", 3); ("right", 0)])
  /\ ~ In None
       (Plotly.adjoint_initialize_plot nat nat (fun n => negb (Nat.eqb n 0))
          (fun n => n * 2) [("main", 3); ("right", 0)]).
Proof.
  destruct (adjoint_plots_returned nat nat (fun n => negb (Nat.eqb n 0))
              (fun n => n * 2) [("main", 3); ("right", 0)]) as (_ & _ & H & _).
  apply (H "main" 3).
  - simpl. auto.
  - reflexivity.
  - reflexivity.
Defined.

(** X29: for a layout in which every plot returns at most one figure, and
    whose coordinates lie within the rows, the loop of
    [LayoutPlot.initialize_plot] raises nothing, inserts no row and no
    column, leaves [adjoined] false, and builds one row of plots for every
    row of the layout: row r holds what the plots of the coordinates of row
    r return, in the order of the coordinates. *)
Theorem layout_grid_without_marginals :
  forall (subplot figure : Type) (subplots : nat * nat -> option subplot)
         (initialize : subplot -> list (option figure)) rows coords,
    (forall coord, In coord coords -> fst coord < rows) ->
    (forall coord sub, In coord coords -> subplots coord = Some sub ->
                       length (initialize sub) <= 1) ->
    exists grid_rows,
      Plotly.build_grid subplot figure subplots initialize rows coords
      = ret (Plotly.mkGrid figure grid_rows [] [] false)
      /\ length grid_rows = rows
      /\ forall r, r < rows ->
                   nth_error grid_rows r
                   = Some (Plotly.row_plots subplot figure subplots initialize r coords).
Proof. intros. now apply build_grid_plain. Qed.

Lemma layout_grid_without_marginals_witness :
  exists grid_rows,
    Plotly.build_grid nat nat
      (fun coord => if Nat.eqb (fst coord + snd coord) 1 then None
                    else Some (10 * fst coord + snd coord))
      (fun n => [Some n]) 2 [(0, 0); (0, 1); (1, 0); (1, 1)]
    = ret (Plotly.mkGrid nat grid_rows [] [] false)
    /\ length grid_rows = 2
    /\ forall r, r < 2 ->
                 nth_error grid_rows r
                 = Some (Plotly.row_plots nat nat
                           (fun coord => if Nat.eqb (fst coord + snd coord) 1 then None
                                         else Some (10 * fst coord + snd coord))
                           (fun n => [Some n]) r [(0, 0); (0, 1); (1, 0); (1, 1)]).
Proof.
  apply (layout_grid_without_marginals nat nat
           (fun coord => if Nat.eqb (fst coord + snd coord) 1 then None
                         else Some (10 * fst coord + snd coord))
           (fun n => [Some n]) 2 [(0, 0); (0, 1); (1, 0); (1, 1)]).
  - intros coord [<- | [<- | [<- | [<- | []]]]]; simpl; lia.
  - intros coord sub _ _. simpl. lia.
Defined.

(** X30: for coordinates that lie within the rows the loop of
    [LayoutPlot.initialize_plot] never raises, whatever the plots return.
    The grid ends with one row for every row of the layout and one for
    every inserted row; a row is inserted, once, exactly for the rows with a
    plot that returns more than two entries; [insert_cols] lists, in the
    order of the coordinates, the column of every plot that returns more
    than one entry; and [adjoined] is true exactly when there is such a
    plot. *)
Theorem layout_grid_never_fails :
  forall (subplot figure : Type) (subplots : nat * nat -> option subplot)
         (initialize : subplot -> list (option figure)) rows coords,
    (forall coord, In coord coords -> fst coord < rows) ->
    exists g,
      Plotly.build_grid subplot figure subplots initialize rows coords = ret g
      /\ length (Plotly.plots figure g)
         = rows + length (Plotly.insert_rows figure g)
      /\ NoDup (Plotly.insert_rows figure g)
      /\ (forall r, In r (Plotly.insert_rows figure g)
                    <-> exists c, In (r, c) coords
                                  /\ Plotly.top_marginal subplot figure subplots
                                       initialize (r, c) = true)
      /\ Plotly.insert_cols figure g
         = map snd (filter (Plotly.marginal subplot figure subplots initialize) coords)
      /\ Plotly.adjoined figure g
         = existsb (Plotly.marginal subplot figure subplots initialize) coords.
Proof. intros. now apply build_grid_ok. Qed.

Lemma layout_grid_never_fails_witness :
  exists g,
    Plotly.build_grid nat nat (fun coord => Some (fst coord + snd coord + 1))
      (fun n => repeat (Some n) n) 2 [(0, 0); (0, 1); (1, 0); (1, 1)]
    = ret g
    /\ length (Plotly.plots nat g) = 2 + length (Plotly.insert_rows nat g)
    /\ NoDup (Plotly.insert_rows nat g)
    /\ (forall r, In r (Plotly.insert_rows nat g)
                  <-> exists c, In (r, c) [(0, 0); (0, 1); (1, 0); (1, 1)]
                                /\ Plotly.top_marginal nat nat
                                     (fun coord => Some (fst coord + snd coord + 1))
                                     (fun n => repeat (Some n) n) (r, c) = true)
    /\ Plotly.insert_cols nat g
       = map snd (filter (Plotly.marginal nat nat
                            (fun coord => Some (fst coord + snd coord + 1))
                            (fun n => repeat (Some n) n))
                         [(0, 0); (0, 1); (1, 0); (1, 1)])
    /\ Plotly.adjoined nat g
       = existsb (Plotly.marginal nat nat
                    (fun coord => Some (fst coord + snd coord + 1))
                    (fun n => repeat (Some n) n))
                 [(0, 0); (0, 1); (1, 0); (1, 1)].
Proof.
  apply (layout_grid_never_fails nat nat
           (fun coord => Some (fst coord + snd coord + 1))
           (fun n => repeat (Some n) n) 2 [(0, 0); (0, 1); (1, 0); (1, 1)]).
  intros coord [<- | [<- | [<- | [<- | []]]]]; simpl; lia.
Defined.
